(** * Transkrip-Audio-ke-Teks: the job queue, the stage tracker, the Whisper
      segment merge and the speaker diarization engine

    A shallow embedding of
      - [server/services/transcriptionQueue.js]  (class [TranscriptionQueue]:
        the pipeline of a job, the scheduler, the report of a transcription),
      - [WhisperService] (the segment merge, large files, language codes),
      - [SpeakerDiarizationService] (clustering, silhouette, labelling,
        smoothing, speaker profiles, speech rate),
      - [GoogleSpeechService.formatGoogleResponse],
      - the progress reports of the services,
    with the properties of the specification checked against it, and
    further properties of the code.

    Conventions of the embedding.
      - A JavaScript number is the rational ([Q]) that is its exact value;
        [Math.round] is [floor (x + 1/2)].  Sums, products and quotients
        are exact, where a double computation is rounded in its last
        place.  Where the source compares a difference of two
        times with a threshold ([mergeCloseSegments],
        [smoothSpeakerTransitions]) the rounding decides the branch, and
        the comparison is made as IEEE 754 makes it: the operands are
        doubles (a rational that is none, a decimal literal for one,
        stands for the double nearest to it) and [js_sub] rounds their
        difference to the nearest double, ties to even.  The infinities
        are outside the model; where the source can divide by zero the
        division is written [js_div] and returns [None], and a number that
        may be [NaN] is a [Number].
      - A job object is a record; [job.stages] is a total map from the five
        stage names of [addJob].
      - An [await] on real I/O (ffmpeg, a provider call, the diarization
        service, [fs.writeJson]) is a suspension point of the job's task;
        the collaborator answers with a [Signal].  Everything between two
        suspension points runs atomically, as on the Node.js event loop. *)

From Stdlib Require Import QArith Qround Qabs Qpower Lia Lqa Ascii.
From Stdlib Require SpecFloat.
From stdpp Require Import gmap strings list fin_maps functions pretty.

(** ** JavaScript numbers *)

Module Js.

#[local] Open Scope Q_scope.

(** [Math.round]: the nearest integer, halves towards plus infinity. *)
Definition Math_round (x : Q) : Z := Qfloor (x + (1 # 2)).

(** [x || 0] on a number that may be [undefined]. *)
Definition or0 (x : option Q) : Q := default 0 x.

(** [a / b] when the quotient is finite; [None] stands for the non-finite
    results ([Infinity], [-Infinity], [NaN]) of a division by zero. *)
Definition js_div (a b : Q) : option Q :=
  if Qeq_bool b 0 then None else Some (a / b).

(** [x < y] and [x > y] on numbers, as booleans. *)
Definition Qlt_bool (x y : Q) : bool := negb (Qle_bool y x).

(** [Math.sqrt] on rationals: exact on every square of a rational (whatever
    the fraction's representation), truncated to 15 decimals elsewhere. *)
Definition sqrt_scale : Z := 10 ^ 15.
Definition Math_sqrt (x : Q) : Q :=
  let n := Qnum x in
  let d := Zpos (Qden x) in
  Qmake (Z.sqrt (n * d * (sqrt_scale * sqrt_scale)))
        (Z.to_pos (d * sqrt_scale)).

(** *** Doubles *)

(** [floor (log2 x)] for a positive [x]: the difference of the bit lengths
    of numerator and denominator, or one less. *)
Definition ilog2 (x : Q) : Z :=
  let l := (Z.log2 (Qnum x) - Z.log2 (Zpos (Qden x)))%Z in
  if Qle_bool (2 ^ l) x then l else (l - 1)%Z.

(** The nearest integer, a half going to the even neighbour. *)
Definition roundHalfEven (t : Q) : Z :=
  let f := Qfloor t in
  match Qcompare (t - inject_Z f) (1 # 2) with
  | Lt => f
  | Gt => (f + 1)%Z
  | Eq => if Z.even f then f else (f + 1)%Z
  end.

(** The exponent of the last place of the double format at a positive
    [x]: 53 significant bits, and [2 ^ -1074] for the subnormal numbers. *)
Definition ulpExponent (x : Q) : Z := Z.max (ilog2 x - 52) (-1074).

(** The double nearest to a positive [x]. *)
Definition nearest (x : Q) : Q :=
  inject_Z (roundHalfEven (x / 2 ^ ulpExponent x)) * 2 ^ ulpExponent x.

(** The double nearest to [x], ties to even: the value of the literal [x],
    and the rounding of every IEEE 754 operation.  (No overflow: beyond
    [2 ^ 1024] the model goes on with 53 bits.) *)
Definition double (x : Q) : Q :=
  match Qcompare x 0 with
  | Eq => 0
  | Gt => nearest x
  | Lt => - nearest (- x)
  end.

(** [x - y] on doubles. *)
Definition js_sub (x y : Q) : Q := double (double x - double y).

(** [x < y] on doubles. *)
Definition js_lt (x y : Q) : bool := Qlt_bool (double x) (double y).

(** A number that may be [NaN]. *)
Inductive Number := Finite (q : Q) | NaN.

(** [x < y] when [x] may be [NaN]: a comparison with [NaN] is false. *)
Definition lessThan (x : Number) (y : Q) : bool :=
  match x with
  | Finite q => js_lt q y
  | NaN => false
  end.

(** *** The same rounding in the Standard Library's IEEE 754 model *)

(** [x] in binary64, by the correctly rounded division of the library. *)
Definition binary64 (x : Q) : SpecFloat.spec_float :=
  let den := SpecFloat.S754_finite false (Qden x) 0 in
  match Qnum x with
  | Z0 => SpecFloat.S754_zero false
  | Zpos p => SpecFloat.SFdiv 53 1024 (SpecFloat.S754_finite false p 0) den
  | Zneg p => SpecFloat.SFdiv 53 1024 (SpecFloat.S754_finite true p 0) den
  end.

(** The value of a finite binary64 number, in lowest terms. *)
Definition valueOf (f : SpecFloat.spec_float) : option Q :=
  match f with
  | SpecFloat.S754_zero _ => Some 0
  | SpecFloat.S754_finite s m e =>
      Some (Qred ((if s then -1 else 1) * inject_Z (Zpos m) * 2 ^ e))
  | _ => None
  end.

(** Numbers the two models are compared on: times and thresholds of the
    services, ties, numbers beyond 53 bits. *)
Definition samples : list Q :=
  [1 # 10; 11 # 10; 114 # 100; 214 # 100; 3 # 10; 23 # 10; 13 # 100; 213 # 100;
   1 # 3; -1 # 3; 8 # 10; 5000; 5500; 2 ^ 53 + 1; 2 ^ 53 + 3;
   (2 ^ 54 - 1) / 2 ^ 55; 1 # 1000; 1200; 12345678901234567890 # 1000000007].

End Js.

(** ** The stage tracker: [job.stages] and [updateJobProgress] *)

Module StageTracker.
Import Js.

#[local] Open Scope Q_scope.

(** The keys of [job.stages], in the insertion order of [addJob]. *)
Inductive StageName := upload | processing | transcription | diarization | finalization.

#[global] Instance StageName_eq_dec : EqDecision StageName.
Proof. solve_decision. Defined.

Inductive StageStatus := pending | in_progress | completed.

#[global] Instance StageStatus_eq_dec : EqDecision StageStatus.
Proof. solve_decision. Defined.

Record StageState := mkStage { st_status : StageStatus; st_progress : Q }.

(** [Object.keys(job.stages)]. *)
Definition stageNames : list StageName :=
  [upload; processing; transcription; diarization; finalization].

(** The literal [stageWeights] of [updateJobProgress]. *)
Definition stageWeights (s : StageName) : Q :=
  match s with
  | upload => 10
  | processing => 10
  | transcription => 60
  | diarization => 15
  | finalization => 5
  end.

(** The [forEach] loop: [totalProgress += (stageProgress * weight) / 100]. *)
Definition totalProgress (stages : StageName → StageState) : Q :=
  foldl (λ total stageName,
           total + (st_progress (stages stageName) * stageWeights stageName) / 100)
        0 stageNames.

(** The stages object built by [addJob]. *)
Definition initialStages (s : StageName) : StageState :=
  match s with
  | upload => mkStage completed 100
  | _ => mkStage pending 0
  end.

(** The first two statements of [updateJobProgress]. *)
Definition setStage (stages : StageName → StageState) (stage : StageName)
    (status : StageStatus) (progress : Q) : StageName → StageState :=
  <[stage := mkStage status progress]> stages.

(** [job.progress] as [updateJobProgress] computes it. *)
Definition overallProgress (stages : StageName → StageState) : Z :=
  Math_round (totalProgress stages).

(** [getCurrentStage]: the first stage that is in progress ([None] is the
    string ['unknown']). *)
Definition getCurrentStage (stages : StageName → StageState) : option StageName :=
  head (filter (λ s, st_status (stages s) = in_progress) stageNames).

(** The stored percentages of all five stages lie in [0, 100]. *)
Definition stagesInRange (stages : StageName → StageState) : Prop :=
  ∀ s, 0 <= st_progress (stages s) ∧ st_progress (stages s) <= 100.

End StageTracker.

(** ** [TranscriptionQueue]: jobs, the pipeline of [processJob], the scheduler *)

Module TranscriptionQueue.
Import Js StageTracker.

#[local] Open Scope Q_scope.

(** *** Jobs and notifications *)

(** The values [job.status] takes in the source: ['queued'] from [addJob]
    (kept while the job is processed), ['completed'] from [processJob],
    ['failed'] from [handleJobError], ['cancelled'] from [cancelJob]. *)
Inductive JobStatus := queued | job_completed | failed | cancelled.

#[global] Instance JobStatus_eq_dec : EqDecision JobStatus.
Proof. solve_decision. Defined.

(** The fields of [jobData] the pipeline reads; [None] is [undefined]. *)
Record JobData := mkJobData {
  d_audioPath : string;
  d_speechService : option string;
  d_expectedSpeakers : option string;
}.

(** The job object of [addJob].  [result] keeps the id of the saved
    transcription, which is all the properties below look at. *)
Record Job := mkJob {
  id : string;
  data : JobData;
  status : JobStatus;
  progress : Z;
  stages : StageName → StageState;
  error : option string;
  result : option string;
}.

Definition with_status (st : JobStatus) (j : Job) : Job :=
  mkJob (id j) (data j) st (progress j) (stages j) (error j) (result j).
Definition with_error (e : string) (j : Job) : Job :=
  mkJob (id j) (data j) (status j) (progress j) (stages j) (Some e) (result j).
Definition with_result (r : string) (j : Job) : Job :=
  mkJob (id j) (data j) (status j) (progress j) (stages j) (error j) (Some r).
Definition with_stages (s : StageName → StageState) (p : Z) (j : Job) : Job :=
  mkJob (id j) (data j) (status j) p s (error j) (result j).

(** What [this.io.to(...).emit] sends; [estimatedTimeRemaining] (a function
    of the wall clock) is left out. *)
Inductive Notification :=
| job_queued (jobId : string) (queuePosition : nat)
| job_progress (jobId : string) (stage : StageName) (st : StageStatus)
    (stageProgress : Q) (overall : Z)
| job_done (jobId : string)
| job_failed (jobId : string) (message : string) (stage : option StageName).

(** A computation that emits notifications on the way. *)
Definition Emit (A : Type) : Type := A * list Notification.
Definition emit_ret {A} (a : A) : Emit A := (a, []).
Definition emit_bind {A B} (m : Emit A) (k : A → Emit B) : Emit B :=
  let '(a, out1) := m in let '(b, out2) := k a in (b, out1 ++ out2).

Notation "x <~ m ;; k" := (emit_bind m (λ x, k))
  (at level 100, m at next level, right associativity).

(** [updateJobProgress(job, stage, status, progress)]. *)
Definition updateJobProgress (job : Job) (stage : StageName) (st : StageStatus)
    (p : Q) : Emit Job :=
  let stages' := setStage (stages job) stage st p in
  let job' := with_stages stages' (overallProgress stages') job in
  (job', [job_progress (id job) stage st p (progress job')]).

(** [handleJobError(job, error)], with [error.message = msg]. *)
Definition handleJobError (job : Job) (msg : string) : Emit Job :=
  (with_error msg (with_status failed job),
   [job_failed (id job) msg (getCurrentStage (stages job))]).

(** *** The task of one job: [processJob] between its suspension points *)

Inductive Provider := whisper | google | azure.

#[global] Instance Provider_eq_dec : EqDecision Provider.
Proof. solve_decision. Defined.

(** Where the task is suspended. *)
Inductive Await :=
| AwaitAudio                       (* [processAudio]: ffmpeg is running *)
| AwaitPrimary (p : Provider)      (* the [switch] of [transcribeAudio] *)
| AwaitFallback                    (* the [catch] of [transcribeAudio] *)
| AwaitDiarization                 (* [speakerDiarization.process] *)
| AwaitSave.                       (* [saveTranscription] in [finalizeTranscription] *)

(** [calls] is the log of provider calls [transcribeAudio] has made. *)
Record Task := mkTask { job : Job; at_ : Await; calls : list Provider }.

(** What can happen to a suspended task. *)
Inductive Signal :=
| FfmpegProgress (percent : option Q)  (* ffmpeg's ['progress'] event *)
| Callback (p : Q)                     (* the [progressCallback] handed to a service *)
| Resolved                             (* the awaited promise fulfils *)
| Rejected (message : string)          (* the awaited promise rejects *)
| MarkCancelled.                       (* [cancelJob] found the job in [processing] *)

(** A task is suspended, or [processQueue] is through with it; a settled
    task keeps the job object as it was left and the log of provider calls. *)
Inductive TaskState := Running (t : Task) | Settled (j : Job) (log : list Provider).

(** [job.speechService || 'whisper'] and the [switch] over it: the provider
    called first, or [None] when the [default] branch throws. *)
Definition selectService (j : Job) : string :=
  match d_speechService (data j) with
  | None => "whisper"
  | Some s => if decide (s = "") then "whisper" else s
  end.

Definition primaryProvider (service : string) : option Provider :=
  if decide (service = "whisper") then Some whisper
  else if decide (service = "google") then Some google
  else if decide (service = "azure") then Some azure
  else None.

(** [SpeakerDiarizationService.process] wraps whatever its body throws. *)
Definition process_rethrow (message : string) : string :=
  "Speaker diarization failed: " +:+ message.

(** The synchronous start of [processJob], up to the ffmpeg call. *)
Definition startJob (j : Job) : Emit Task :=
  j1 <~ updateJobProgress j processing in_progress 0 ;;
  emit_ret (mkTask j1 AwaitAudio []).

(** [processQueue]'s [catch]: the job fails and leaves the pipeline. *)
Definition failJob (t : Task) (msg : string) : Emit TaskState :=
  j1 <~ handleJobError (job t) msg ;; emit_ret (Settled j1 (calls t)).

(** From the end of [processAudio] into [transcribeAudio]. *)
Definition enterTranscription (t : Task) : Emit TaskState :=
  j1 <~ updateJobProgress (job t) processing completed 100 ;;
  j2 <~ updateJobProgress j1 transcription in_progress 0 ;;
  match primaryProvider (selectService j2) with
  | Some p => emit_ret (Running (mkTask j2 (AwaitPrimary p) (calls t ++ [p])))
  | None => emit_ret (Running (mkTask j2 AwaitFallback (calls t ++ [whisper])))
  end.

(** From the end of [transcribeAudio] into [performSpeakerDiarization]. *)
Definition enterDiarization (t : Task) : Emit TaskState :=
  j1 <~ updateJobProgress (job t) transcription completed 100 ;;
  j2 <~ updateJobProgress j1 diarization in_progress 0 ;;
  emit_ret (Running (mkTask j2 AwaitDiarization (calls t))).

(** From the end of the diarization into [finalizeTranscription]. *)
Definition enterFinalization (t : Task) : Emit TaskState :=
  j1 <~ updateJobProgress (job t) diarization completed 100 ;;
  j2 <~ updateJobProgress j1 finalization in_progress 0 ;;
  emit_ret (Running (mkTask j2 AwaitSave (calls t))).

(** The tail of [processJob]: the job is marked completed. *)
Definition completeJob (t : Task) : Emit TaskState :=
  j1 <~ updateJobProgress (job t) finalization completed 100 ;;
  let j2 := with_result (id j1) (with_status job_completed j1) in
  (Settled j2 (calls t), [job_done (id j2)]).

Definition report (t : Task) (stage : StageName) (p : Q) : Emit TaskState :=
  j1 <~ updateJobProgress (job t) stage in_progress p ;;
  emit_ret (Running (mkTask j1 (at_ t) (calls t))).

(** One signal delivered to a suspended task.  A signal the suspension
    point does not wait for leaves the task as it is. *)
Definition step (t : Task) (sig : Signal) : Emit TaskState :=
  match sig, at_ t with
  | MarkCancelled, _ =>
      emit_ret (Running (mkTask (with_status cancelled (job t)) (at_ t) (calls t)))
  | FfmpegProgress percent, AwaitAudio =>
      report t processing (inject_Z (Math_round (or0 percent)))
  | Resolved, AwaitAudio => enterTranscription t
  | Rejected e, AwaitAudio => failJob t e
  | Callback p, AwaitPrimary _ => report t transcription p
  | Resolved, AwaitPrimary _ => enterDiarization t
  | Rejected _, AwaitPrimary _ =>
      emit_ret (Running (mkTask (job t) AwaitFallback (calls t ++ [whisper])))
  | Callback p, AwaitFallback => report t transcription p
  | Resolved, AwaitFallback => enterDiarization t
  | Rejected e, AwaitFallback => failJob t e
  | Callback p, AwaitDiarization => report t diarization p
  | Resolved, AwaitDiarization => enterFinalization t
  | Rejected e, AwaitDiarization => failJob t (process_rethrow e)
  | Resolved, AwaitSave => completeJob t
  | Rejected e, AwaitSave => failJob t e
  | _, _ => emit_ret (Running t)
  end.

Definition stepState (s : TaskState) (sig : Signal) : Emit TaskState :=
  match s with
  | Running t => step t sig
  | Settled j log => emit_ret (Settled j log)
  end.

(** A whole sequence of signals. *)
Fixpoint run (s : TaskState) (sigs : list Signal) : Emit TaskState :=
  match sigs with
  | [] => emit_ret s
  | sig :: rest => s1 <~ stepState s sig ;; run s1 rest
  end.

(** The job object of a task state. *)
Definition jobOf (s : TaskState) : Job :=
  match s with Running t => job t | Settled j _ => j end.

(** The provider calls made so far. *)
Definition callsOf (s : TaskState) : list Provider :=
  match s with Running t => calls t | Settled _ log => log end.

(** The overall percentages a list of notifications reports. *)
Definition reported (out : list Notification) : list Z :=
  omap (λ n, match n with job_progress _ _ _ _ o => Some o | _ => None end) out.

(** The percentages the services hand to their [progressCallback] before
    the remote call is awaited, read off [GoogleSpeechService.transcribe]
    and [WhisperService.transcribe] (the path of a file under 25 MB). *)
Definition googleReportsBeforeCall : list Q := [5; 15; 25].
Definition whisperReportsBeforeCall : list Q := [5; 10; 20; 30].

(** The job object [addJob] builds for [jobData] and the fresh [jobId]. *)
Definition newJob (jobId : string) (d : JobData) : Job :=
  mkJob jobId d queued 0 initialStages None None.

(** *** The scheduler: [queue], [processing], [processQueue], [cancelJob] *)

(** [sch_queue] is [this.queue] and [sch_processing] is the Map
    [this.processing], each running job with the state of its task.  Two
    fields are ghosts the source does not keep: [issued], the ids [uuidv4]
    has handed out, and [retired], the job objects the scheduler has let go
    of (most recent first), which is where a job's last status is read. *)
Record Scheduler := mkScheduler {
  sch_queue : list Job;
  sch_processing : gmap string Task;
  maxConcurrent : Z;
  issued : gset string;
  retired : list Job;
}.

(** The constructor: [parseInt(process.env.MAX_CONCURRENT_JOBS) || 3], with
    [None] for the [NaN] of an unset or unparsable variable. *)
Definition parseMaxConcurrent (env : option Z) : Z :=
  match env with
  | Some n => if decide (n = 0%Z) then 3%Z else n
  | None => 3%Z
  end.

Definition construct (env : option Z) : Scheduler :=
  mkScheduler [] ∅ (parseMaxConcurrent env) ∅ [].

(** [addJob(jobData)], where [uuidv4()] returned [jobId]. *)
Definition addJob (s : Scheduler) (jobId : string) (d : JobData)
    : Emit (Scheduler * string) :=
  let q := sch_queue s ++ [newJob jobId d] in
  ((mkScheduler q (sch_processing s) (maxConcurrent s)
      ({[jobId]} ∪ issued s) (retired s), jobId),
   [job_queued jobId (length q)]).

(** The guard of [processQueue]. *)
Definition mayAdmit (s : Scheduler) : bool :=
  negb (bool_decide (maxConcurrent s ≤ Z.of_nat (size (sch_processing s)))%Z
        || bool_decide (length (sch_queue s) = 0%nat)).

(** One call of [processQueue], up to the first suspension of the job it
    starts: [queue.shift()], [processing.set(job.id, job)] and the start of
    [processJob]. *)
Definition processQueue (s : Scheduler) : Emit Scheduler :=
  if mayAdmit s then
    match sch_queue s with
    | [] => emit_ret s
    | j :: rest =>
        t <~ startJob j ;;
        emit_ret (mkScheduler rest (<[id j := t]> (sch_processing s))
                    (maxConcurrent s) (issued s) (retired s))
    end
  else emit_ret s.

(** A signal reaches the task of a running job; when the task settles,
    the [finally] of [processQueue] deletes the job from [processing]. *)
Definition deliver (s : Scheduler) (jobId : string) (sig : Signal)
    : Emit Scheduler :=
  match sch_processing s !! jobId with
  | None => emit_ret s
  | Some t =>
      st <~ step t sig ;;
      match st with
      | Running t' =>
          emit_ret (mkScheduler (sch_queue s) (<[jobId := t']> (sch_processing s))
                      (maxConcurrent s) (issued s) (retired s))
      | Settled j _ =>
          emit_ret (mkScheduler (sch_queue s) (delete (id j) (sch_processing s))
                      (maxConcurrent s) (issued s) (j :: retired s))
      end
  end.

(** [cancelJob(jobId)]: the scheduler after the call and the returned
    boolean.  [findIndex] and [splice] on the queue first, then
    [processing.get]. *)
Definition cancelJob (s : Scheduler) (jobId : string) : Scheduler * bool :=
  match list_find (λ j, id j = jobId) (sch_queue s) with
  | Some (queueIndex, j) =>
      (mkScheduler (delete queueIndex (sch_queue s)) (sch_processing s)
         (maxConcurrent s) (issued s) (j :: retired s), true)
  | None =>
      match sch_processing s !! jobId with
      | Some t =>
          (mkScheduler (sch_queue s)
             (<[jobId := mkTask (with_status cancelled (job t)) (at_ t) (calls t)]>
                (sch_processing s))
             (maxConcurrent s) (issued s) (retired s), true)
      | None => (s, false)
      end
  end.

(** What the outside world does to the scheduler. *)
Inductive Event :=
| EvAddJob (jobId : string) (d : JobData)   (* a route calls [addJob] *)
| EvTick                                    (* the [setInterval] timer fires *)
| EvCancel (jobId : string)                 (* a route calls [cancelJob] *)
| EvSignal (jobId : string) (sig : Signal). (* a collaborator answers a task *)

Definition handle (s : Scheduler) (ev : Event) : Emit Scheduler :=
  match ev with
  | EvAddJob jobId d => r <~ addJob s jobId d ;; emit_ret r.1
  | EvTick => processQueue s
  | EvCancel jobId => emit_ret (cancelJob s jobId).1
  | EvSignal jobId sig => deliver s jobId sig
  end.

(** [uuidv4] never returns the same id twice. *)
Definition admissible (s : Scheduler) (ev : Event) : Prop :=
  match ev with
  | EvAddJob jobId _ => jobId ∉ issued s
  | _ => True
  end.

(** The states of a scheduler constructed under [env]. *)
Inductive reachable (env : option Z) : Scheduler → Prop :=
| reachable_construct : reachable env (construct env)
| reachable_handle s ev :
    reachable env s → admissible s ev → reachable env (handle s ev).1.

(** A whole list of events, from left to right. *)
Definition handleAll (s : Scheduler) (evs : list Event) : Scheduler :=
  foldl (λ s ev, (handle s ev).1) s evs.

(** The last status the job object [jobId] was left with, once the
    scheduler has let go of it. *)
Definition finalStatus (s : Scheduler) (jobId : string) : option JobStatus :=
  status <$> head (filter (λ j, id j = jobId) (retired s)).

Definition queueIds (s : Scheduler) : list string := id <$> sch_queue s.

(** *** Conditions on what the collaborators report *)

(** A signal that neither fulfils nor rejects the awaited promise. *)
Definition passive (sig : Signal) : Prop :=
  match sig with
  | Resolved | Rejected _ => False
  | _ => True
  end.

(** The percentage a signal makes [updateJobProgress] store, if any. *)
Definition reportedPercent (sig : Signal) : option Q :=
  match sig with
  | FfmpegProgress percent => Some (inject_Z (Math_round (or0 percent)))
  | Callback p => Some p
  | _ => None
  end.

(** The percentage a signal stores lies in [0, 100]. *)
Definition signalInRange (sig : Signal) : Prop :=
  match reportedPercent sig with
  | Some p => 0 <= p ∧ p <= 100
  | None => True
  end.

(** The stage whose percentage a report changes at a suspension point. *)
Definition reportingStage (a : Await) : StageName :=
  match a with
  | AwaitAudio => processing
  | AwaitPrimary _ | AwaitFallback => transcription
  | AwaitDiarization => diarization
  | AwaitSave => finalization
  end.

(** A signal that does not take back progress: the percentage it stores is
    at most 100 and at least the one stored for the stage so far. *)
Definition notLowering (t : Task) (sig : Signal) : Prop :=
  match reportedPercent sig with
  | Some p => st_progress (stages (job t) (reportingStage (at_ t))) <= p ∧ p <= 100
  | None => True
  end.

(** Every signal of the list, at the moment it arrives, is [notLowering]. *)
Fixpoint steady (s : TaskState) (sigs : list Signal) : Prop :=
  match sigs with
  | [] => True
  | sig :: rest =>
      match s with Running t => notLowering t sig | Settled _ _ => True end
      ∧ steady (stepState s sig).1 rest
  end.

(** [l] never goes down, starting from [a]. *)
Fixpoint ascendingFrom (a : Z) (l : list Z) : Prop :=
  match l with
  | [] => True
  | x :: rest => (a ≤ x)%Z ∧ ascendingFrom x rest
  end.

(** *** Invariants and sample data of the facts below *)

(** An overall percentage between 0 and 100. *)
Definition inRange (o : Z) : Prop := (0 ≤ o ≤ 100)%Z.

(** A job whose stored stage percentages and overall progress are in range. *)
Definition jobInRange (j : Job) : Prop :=
  stagesInRange (stages j) ∧ inRange (progress j).

(** What a passive signal leaves untouched. *)
Record sameControl (t t' : Task) : Prop := {
  same_at : at_ t' = at_ t;
  same_calls : calls t' = calls t;
  same_id : id (job t') = id (job t);
  same_data : data (job t') = data (job t);
  same_result : result (job t') = result (job t);
  same_error : error (job t') = error (job t);
  same_final : reportingStage (at_ t) ≠ finalization →
               stages (job t') finalization = stages (job t) finalization;
}.

(** The stages the pipeline has not reached at a suspension point. *)
Definition later (a : Await) (s : StageName) : Prop :=
  match a, s with
  | AwaitAudio, (transcription | diarization | finalization) => True
  | (AwaitPrimary _ | AwaitFallback), (diarization | finalization) => True
  | AwaitDiarization, finalization => True
  | _, _ => False
  end.

(** The current stage is at most at 100, the later ones are still at 0, and
    [job.progress] is what the last update computed. *)
Definition orderly (t : Task) : Prop :=
  st_progress (stages (job t) (reportingStage (at_ t))) <= 100
  ∧ (∀ s, later (at_ t) s → st_progress (stages (job t) s) <= 0)
  ∧ progress (job t) = overallProgress (stages (job t)).

(** The last element of [l], or [a] when [l] is empty. *)
Definition lastFrom (a : Z) (l : list Z) : Z := default a (list.last l).

(** [orderly], for a task that is still running. *)
Definition orderlyState (s : TaskState) : Prop :=
  match s with Running t => orderly t | Settled _ _ => True end.

(** A job submitted for the Google service. *)
Definition job1 : JobData := mkJobData "uploads/a.wav" (Some "google") None.

(** What holds of every state of a scheduler constructed under [env]. *)
Record invariant (env : option Z) (s : Scheduler) : Prop := {
  inv_max : maxConcurrent s = parseMaxConcurrent env;
  inv_bound : (size (sch_processing s) ≤ Z.to_nat (maxConcurrent s))%nat;
  inv_nodup : NoDup (queueIds s);
  inv_queue_issued : ∀ i, i ∈ queueIds s → i ∈ issued s;
  inv_processing_issued : ∀ i, is_Some (sch_processing s !! i) → i ∈ issued s;
  inv_disjoint : ∀ i, i ∈ queueIds s → sch_processing s !! i = None;
  inv_keys : ∀ i t, sch_processing s !! i = Some t → id (job t) = i;
}.

(** Two jobs submitted to a scheduler with [MAX_CONCURRENT_JOBS=1], one tick. *)
Definition twoJobsOneSlot : Scheduler :=
  (handle (handle (handle (construct (Some 1%Z))
     (EvAddJob "job-1" job1)).1 (EvAddJob "job-2" job1)).1 EvTick).1.

End TranscriptionQueue.

(** ** [WhisperService]: segments and [mergeCloseSegments] *)

Module WhisperService.
Import Js.

#[local] Open Scope Q_scope.

(** A word and a segment as [formatWhisperResponse] builds them; times are
    in seconds.  [words = None] is a segment without a [words] property. *)
Record Word := mkWord {
  w_id : nat;
  w_text : string;
  w_start : Q;
  w_end : Q;
  w_confidence : Q;
}.

Record Segment := mkSegment {
  id : nat;
  start : Q;
  end_ : Q;
  text : string;
  confidence : Q;
  words : option (list Word);
}.

(** The default of the parameter [maxGap]. *)
Definition defaultMaxGap : Q := 1.

(** The body of the [if]: what [previous] is after the assignments to
    [previous.end], [previous.text], [previous.words] and
    [previous.confidence]. *)
Definition absorb (previous current : Segment) : Segment :=
  mkSegment (id previous) (start previous) (end_ current)
    (text previous +:+ " " +:+ text current)
    ((confidence previous + confidence current) / 2)
    (match words previous, words current with
     | Some ws, Some ws' => Some (ws ++ ws')
     | _, _ => words previous
     end).

(** The condition of the [if]: [current.start - previous.end <= maxGap],
    the difference computed in double precision. *)
Definition withinGap (maxGap : Q) (previous current : Segment) : bool :=
  Qle_bool (js_sub (start current) (end_ previous)) (double maxGap).

(** One turn of the [for] loop on the array [merged]: [previous] is its
    last element, updated in place or followed by [current]. *)
Definition mergeTurn (maxGap : Q) (merged : list Segment) (current : Segment)
    : list Segment :=
  match list.last merged with
  | Some previous =>
      if withinGap maxGap previous current
      then <[(length merged - 1)%nat := absorb previous current]> merged
      else merged ++ [current]
  | None => merged
  end.

(** The loop, from [merged = [segments[0]]]. *)
Definition mergeLoop (maxGap : Q) (segments : list Segment) : list Segment :=
  match segments with
  | [] => []
  | first :: rest => foldl (mergeTurn maxGap) [first] rest
  end.

(** [merged.forEach((segment, index) => segment.id = index)]. *)
Definition reindex (merged : list Segment) : list Segment :=
  imap (λ index segment,
          mkSegment index (start segment) (end_ segment) (text segment)
            (confidence segment) (words segment)) merged.

(** [mergeCloseSegments(segments, maxGap)]. *)
Definition mergeCloseSegments (segments : list Segment) (maxGap : Q)
    : list Segment :=
  match segments with
  | [] => segments
  | _ :: _ => reindex (mergeLoop maxGap segments)
  end.

(** The merge rule in the words of the specification: walk the list with
    the segment built so far; a next segment whose gap to it is at most the
    threshold is merged into it, any other one closes it and starts anew.
    The gap is the one the code computes ([withinGap]). *)
Fixpoint mergeRuns (maxGap : Q) (current : Segment) (rest : list Segment)
    : list Segment :=
  match rest with
  | [] => [current]
  | next :: rest' =>
      if withinGap maxGap current next
      then mergeRuns maxGap (absorb current next) rest'
      else current :: mergeRuns maxGap next rest'
  end.

(** *** Sample data *)

(** The two segments of the specification's example, with texts. *)
Definition firstSegment : Segment :=
  mkSegment 0 0 5000 "selamat pagi" (8 # 10) (Some [mkWord 0 "selamat" 0 2000 (9 # 10)]).
Definition closeSegment : Segment :=
  mkSegment 1 5500 9000 "semuanya" (6 # 10) (Some [mkWord 0 "semuanya" 5500 9000 (7 # 10)]).

(** Two segments whose gap is one second on paper: the first ends at
    0.1, the second starts at 1.1. *)
Definition earlySegment : Segment :=
  mkSegment 0 0 (1 # 10) "apa" (8 # 10) (Some []).
Definition lateSegment : Segment :=
  mkSegment 1 (11 # 10) 2 "kabar" (6 # 10) (Some []).

End WhisperService.

(** ** [SpeakerDiarizationService]: features, k-means, silhouette, smoothing *)

Module SpeakerDiarizationService.
Import Js WhisperService.

#[local] Open Scope Q_scope.

(** *** Speech rate *)

(** [text.split(' ')]: the pieces between the spaces (one more piece than
    there are spaces; the empty string gives one empty piece). *)
Fixpoint splitSpaces (s : string) : list string :=
  match s with
  | EmptyString => [EmptyString]
  | String c rest =>
      match splitSpaces rest with
      | piece :: pieces =>
          if Ascii.eqb c " "%char then EmptyString :: piece :: pieces
          else String c piece :: pieces
      | [] => [String c EmptyString]
      end
  end.

(** The number of spaces of a string. *)
Fixpoint countSpaces (s : string) : nat :=
  match s with
  | EmptyString => 0
  | String c rest => ((if Ascii.eqb c " "%char then 1 else 0) + countSpaces rest)%nat
  end.

(** [segment.words ? segment.words.length : segment.text.split(' ').length];
    an array, even an empty one, is truthy. *)
Definition wordCount (segment : Segment) : nat :=
  match words segment with
  | Some ws => length ws
  | None => length (splitSpaces (text segment))
  end.

(** [calculateSpeechRate(segment)], in words per second. *)
Definition calculateSpeechRate (segment : Segment) : option Q :=
  let duration := end_ segment - start segment in
  if Qlt_bool 0 duration
  then js_div (inject_Z (Z.of_nat (wordCount segment))) duration
  else Some 0.

(** *** Smoothing *)

(** A segment after [assignSpeakersToSegments]: [speaker = None] is the
    [null] of a segment no cluster claimed; the confidence is what
    [calculateSpeakerConfidence] returned, [NaN] for one. *)
Record DiarizedSegment := mkDiarized {
  segment : Segment;
  speaker : option string;
  speakerConfidence : Number;
}.

(** The condition of the [if] in [smoothSpeakerTransitions];
    [current.end - current.start] is computed in double precision, and a
    confidence that is [NaN] is not below 0.8. *)
Definition flickers (previous current next : DiarizedSegment) : bool :=
  bool_decide (speaker previous = speaker next)
  && bool_decide (speaker current ≠ speaker previous)
  && Qlt_bool (js_sub (end_ (segment current)) (start (segment current))) 2
  && lessThan (speakerConfidence current) (8 # 10).

(** The two assignments of the [if]. *)
Definition reassign (previous current : DiarizedSegment) : DiarizedSegment :=
  mkDiarized (segment current) (speaker previous) (Finite (6 # 10)).

(** One turn of the loop, on the array as it is at that moment. *)
Definition smoothAt (segments : list DiarizedSegment) (i : nat)
    : list DiarizedSegment :=
  match segments !! (i - 1)%nat, segments !! i, segments !! (i + 1)%nat with
  | Some previous, Some current, Some next =>
      if flickers previous current next
      then <[i := reassign previous current]> segments
      else segments
  | _, _, _ => segments
  end.

(** [smoothSpeakerTransitions(segments)]: [i] from 1 to [length - 2], the
    array updated in place. *)
Definition smoothSpeakerTransitions (segments : list DiarizedSegment)
    : list DiarizedSegment :=
  foldl smoothAt segments (seq 1 (length segments - 2)).

(** *** Feature vectors and distance *)

(** The [featureKeys] of the clustering. *)
Inductive FeatureKey := duration | speechRate | pitch | energy | spectralCentroid.

Definition featureKeys : list FeatureKey :=
  [duration; speechRate; pitch; energy; spectralCentroid].

(** An object with the five feature keys: a centroid, or the numeric part
    of a feature. *)
Record Vector := mkVector {
  v_duration : Q; v_speechRate : Q; v_pitch : Q; v_energy : Q;
  v_spectralCentroid : Q;
}.

Definition get (key : FeatureKey) (v : Vector) : Q :=
  match key with
  | duration => v_duration v
  | speechRate => v_speechRate v
  | pitch => v_pitch v
  | energy => v_energy v
  | spectralCentroid => v_spectralCentroid v
  end.

(** The object [featureKeys.forEach(key => centroid[key] = f(key))] fills. *)
Definition build (f : FeatureKey → Q) : Vector :=
  mkVector (f duration) (f speechRate) (f pitch) (f energy) (f spectralCentroid).

(** A feature of [extractAudioFeatures]; the keys the clustering never
    reads ([textLength], [avgWordDuration], [pausesBefore]) are left out. *)
Record Feature := mkFeature { segmentId : nat; values : Vector }.

(** [calculateDistance(feature1, feature2)]. *)
Definition calculateDistance (v1 v2 : Vector) : Q :=
  Math_sqrt (foldl (λ sumSquaredDiffs key,
                      let diff := get key v1 - get key v2 in
                      sumSquaredDiffs + diff * diff) 0 featureKeys).

(** *** [Math.random] *)

(** The values [Math.random()] is going to return, each in [0, 1); a list
    that has run out returns 0. *)
Definition Rng : Type := list Q.

Definition random (rng : Rng) : Q * Rng :=
  match rng with
  | [] => (0, [])
  | r :: rest => (r, rest)
  end.

(** [Math.min(...values)] and [Math.max(...values)] of a non-empty array
    (0 stands in for the infinities of an empty one). *)
Definition minimum (values : list Q) : Q :=
  match values with
  | [] => 0
  | v :: rest => foldl (λ m x, if Qlt_bool x m then x else m) v rest
  end.

Definition maximum (values : list Q) : Q :=
  match values with
  | [] => 0
  | v :: rest => foldl (λ m x, if Qlt_bool m x then x else m) v rest
  end.

(** *** k-means *)

(** One centroid of [initializeCentroids]: a random point in the bounding
    box of the features, one draw per key in the order of [featureKeys]. *)
Definition randomCentroid (features : list Feature) (rng : Rng) : Vector * Rng :=
  let draw key rng :=
    let values := (λ f, get key (values f)) <$> features in
    let '(r, rng') := random rng in
    (minimum values + r * (maximum values - minimum values), rng') in
  let '(d, rng) := draw duration rng in
  let '(s, rng) := draw speechRate rng in
  let '(p, rng) := draw pitch rng in
  let '(e, rng) := draw energy rng in
  let '(c, rng) := draw spectralCentroid rng in
  (mkVector d s p e c, rng).

(** [initializeCentroids(features, k)]. *)
Fixpoint initializeCentroids (features : list Feature) (k : nat) (rng : Rng)
    : list Vector * Rng :=
  match k with
  | O => ([], rng)
  | S k' =>
      let '(centroid, rng) := randomCentroid features rng in
      let '(centroids, rng) := initializeCentroids features k' rng in
      (centroid :: centroids, rng)
  end.

(** [findNearestCentroid(feature, centroids)]: the first index of a least
    distance ([centroids] is non-empty for [k >= 1]). *)
Definition findNearestCentroid (feature : Vector) (centroids : list Vector) : nat :=
  match centroids with
  | [] => 0%nat
  | c0 :: rest =>
      (foldl (λ '(nearestIndex, minDistance, i) c,
                let distance := calculateDistance feature c in
                if Qlt_bool distance minDistance
                then (i, distance, S i)
                else (nearestIndex, minDistance, S i))
             (0%nat, calculateDistance feature c0, 1%nat) rest).1.1
  end.

(** [features.filter((_, idx) => assignments[idx] === i)]. *)
Definition assignedTo (features : list Feature) (assignments : list (option nat))
    (i : nat) : list Feature :=
  omap (λ '(f, a), if decide (a = Some i) then Some f else None)
       (zip features assignments).

(** The mean of a non-empty cluster, key by key. *)
Definition meanOf (clusterFeatures : list Feature) : Vector :=
  build (λ key,
    foldl (λ acc f, acc + get key (values f)) 0 clusterFeatures
    / inject_Z (Z.of_nat (length clusterFeatures))).

(** [updateCentroids(features, assignments, k)]: the loop from cluster [i]
    on, [n] clusters to go; an empty cluster gets a fresh random centroid. *)
Fixpoint updateCentroidsFrom (features : list Feature)
    (assignments : list (option nat)) (i n : nat) (rng : Rng)
    : list Vector * Rng :=
  match n with
  | O => ([], rng)
  | S n' =>
      let clusterFeatures := assignedTo features assignments i in
      let '(centroid, rng) :=
        match clusterFeatures with
        | [] => randomCentroid features rng
        | _ :: _ => (meanOf clusterFeatures, rng)
        end in
      let '(centroids, rng) :=
        updateCentroidsFrom features assignments (S i) n' rng in
      (centroid :: centroids, rng)
  end.

Definition updateCentroids (features : list Feature)
    (assignments : list (option nat)) (k : nat) (rng : Rng) : list Vector * Rng :=
  updateCentroidsFrom features assignments 0 k rng.

(** [centroidsConverged(oldCentroids, newCentroids, tolerance)]. *)
Definition centroidsConverged (oldCentroids newCentroids : list Vector)
    (tolerance : Q) : bool :=
  forallb (λ '(o, n), negb (Qlt_bool tolerance (calculateDistance o n)))
          (zip oldCentroids newCentroids).

Definition maxIterations : nat := 100.
Definition tolerance : Q := 1 # 1000.

(** The [for] loop of [kMeansClustering], [fuel] iterations to go.  On
    [break] the centroids of the previous round are kept, as in the source. *)
Fixpoint iterate (fuel : nat) (features : list Feature) (k : nat)
    (centroids : list Vector) (assignments : list (option nat)) (rng : Rng)
    : list Vector * list (option nat) * Rng :=
  match fuel with
  | O => (centroids, assignments, rng)
  | S fuel' =>
      let nearest :=
        (λ f, Some (findNearestCentroid (values f) centroids)) <$> features in
      let changed := bool_decide (assignments ≠ nearest) in
      let '(newCentroids, rng) := updateCentroids features nearest k rng in
      if negb changed || centroidsConverged centroids newCentroids tolerance
      then (centroids, nearest, rng)
      else iterate fuel' features k newCentroids nearest rng
  end.

(** A cluster object; [size] is [length c_features]. *)
Record Cluster := mkCluster {
  c_id : nat;
  c_centroid : option Vector;
  c_features : list Feature;
}.

(** [kMeansClustering(features, k)]. *)
Definition kMeansClustering (features : list Feature) (k : nat) (rng : Rng)
    : list Cluster * Rng :=
  let '(centroids, rng) := initializeCentroids features k rng in
  let assignments := replicate (length features) None in
  let '(centroids, assignments, rng) :=
    iterate maxIterations features k centroids assignments rng in
  ((λ i, mkCluster i (centroids !! i) (assignedTo features assignments i))
     <$> seq 0 k, rng).

(** *** Silhouette *)

(** [averageIntraClusterDistance(feature, cluster)]. *)
Definition averageIntraClusterDistance (feature : Feature) (cluster : Cluster) : Q :=
  if bool_decide (length (c_features cluster) ≤ 1)%nat then 0
  else
    let others :=
      filter (λ other, segmentId other ≠ segmentId feature) (c_features cluster) in
    let totalDistance :=
      foldl (λ total other,
               total + calculateDistance (values feature) (values other)) 0 others in
    match others with
    | [] => 0
    | _ :: _ => totalDistance / inject_Z (Z.of_nat (length others))
    end.

(** [nearestClusterDistance(feature, clusters, excludeClusterIdx)]: the least
    distance to a feature of another cluster, 0 when there is none. *)
Definition nearestClusterDistance (feature : Feature) (clusters : list Cluster)
    (excludeClusterIdx : nat) : Q :=
  let distances :=
    mjoin (imap (λ clusterIdx cluster,
                   if decide (clusterIdx = excludeClusterIdx) then []
                   else (λ other, calculateDistance (values feature) (values other))
                          <$> c_features cluster) clusters) in
  match distances with
  | [] => 0
  | _ :: _ => minimum distances
  end.

(** The silhouette of one feature. *)
Definition silhouette (feature : Feature) (clusters : list Cluster)
    (clusterIdx : nat) (cluster : Cluster) : Q :=
  let a := averageIntraClusterDistance feature cluster in
  let b := nearestClusterDistance feature clusters clusterIdx in
  if Qeq_bool b 0 then 0 else (b - a) / (if Qlt_bool a b then b else a).

(** [evaluateClusterQuality(clusters, features)]. *)
Definition evaluateClusterQuality (clusters : list Cluster)
    (features : list Feature) : Q :=
  let silhouettes :=
    mjoin (imap (λ clusterIdx cluster,
                   (λ feature, silhouette feature clusters clusterIdx cluster)
                     <$> c_features cluster) clusters) in
  match silhouettes with
  | [] => 0
  | _ :: _ =>
      foldl Qplus 0 silhouettes / inject_Z (Z.of_nat (length silhouettes))
  end.

(** *** The choice of the number of clusters *)

(** The state of the loop of [findOptimalClusters]: [bestScore = None] is
    [-Infinity], [tried] lists the [k] handed to [kMeansClustering]. *)
Record Search := mkSearch {
  bestClusters : option (list Cluster);
  bestScore : option Q;
  tried : list nat;
  rngOf : Rng;
}.

(** The body of the loop for one [k]. *)
Definition tryK (features : list Feature) (s : Search) (k : nat) : Search :=
  let '(clusters, rng) := kMeansClustering features k (rngOf s) in
  let score := evaluateClusterQuality clusters features in
  let better :=
    match bestScore s with
    | None => true
    | Some best => Qlt_bool best score
    end in
  if better
  then mkSearch (Some clusters) (Some score) (tried s ++ [k]) rng
  else mkSearch (bestClusters s) (bestScore s) (tried s ++ [k]) rng.

(** The loop [for (k = minK; k <= maxK; k++)]. *)
Definition searchClusters (features : list Feature) (minK maxK : nat) (rng : Rng)
    : Search :=
  foldl (tryK features) (mkSearch None None [] rng) (seq minK (S maxK - minK)).

(** [findOptimalClusters(features, minK, maxK)]: the clusters returned, the
    [k] that were tried, and the random numbers left. *)
Definition findOptimalClusters (features : list Feature) (minK maxK : nat)
    (rng : Rng) : list Cluster * list nat * Rng :=
  let s := searchClusters features minK maxK rng in
  match bestClusters s with
  | Some clusters => (clusters, tried s, rngOf s)
  | None =>
      let '(clusters, rng) := kMeansClustering features 2 (rngOf s) in
      (clusters, tried s ++ [2%nat], rng)
  end.

(** The runs of [kMeansClustering] for [k = minK, minK + 1, ...], [n] of
    them, each with its score, in the order the loop makes them. *)
Fixpoint candidates (features : list Feature) (k n : nat) (rng : Rng)
    : list (nat * list Cluster * Q) :=
  match n with
  | O => []
  | S n' =>
      let '(clusters, rng') := kMeansClustering features k rng in
      (k, clusters, evaluateClusterQuality clusters features)
        :: candidates features (S k) n' rng'
  end.

(** *** Auxiliary notions and sample data of the facts below *)

(** The array after the turns [i = 1 .. m]. *)
Definition smoothedUpTo (segments : list DiarizedSegment) (m : nat) :=
  foldl smoothAt segments (seq 1 m).

(** Two speaker labels of [assignSpeakersToSegments]. *)
Definition speakerA : option string := Some "speaker_1".
Definition speakerB : option string := Some "speaker_2".

(** A segment from [from] to [to] seconds, labelled and scored. *)
Definition labelled (i : nat) (from to : Q) (who : option string) (score : Q)
    : DiarizedSegment :=
  mkDiarized (mkSegment i from to "ya" (8 # 10) (Some [])) who (Finite score).

(** The example of the specification: a 1.5 s segment of speaker B between
    two 10 s segments of speaker A. *)
Definition oneFlicker (score : Q) : list DiarizedSegment :=
  [labelled 0 0 10 speakerA (9 # 10);
   labelled 1 10 (23 # 2) speakerB score;
   labelled 2 (23 # 2) (43 # 2) speakerA (9 # 10)].

(** A segment from 0.3 to 2.3 seconds between two of the other speaker:
    two seconds on paper, 1.9999999999999998 in double precision. *)
Definition nearlyTwoSeconds : list DiarizedSegment :=
  [labelled 0 0 (3 # 10) speakerA (9 # 10);
   labelled 1 (3 # 10) (23 # 10) speakerB (5 # 10);
   labelled 2 (23 # 10) 12 speakerA (9 # 10)].

(** A one-second segment of speaker B whose cluster has one member, so
    that its confidence is [NaN], between two segments of speaker A. *)
Definition unsureFlicker : list DiarizedSegment :=
  [labelled 0 0 10 speakerA (9 # 10);
   mkDiarized (mkSegment 1 10 11 "ya" (8 # 10) (Some [])) speakerB NaN;
   labelled 2 11 21 speakerA (9 # 10)].

(** Two short, unsure segments in a row between long ones: A B A B. *)
Definition twoFlickers : list DiarizedSegment :=
  [labelled 0 0 10 speakerA (9 # 10);
   labelled 1 10 11 speakerB (5 # 10);
   labelled 2 11 12 speakerA (5 # 10);
   labelled 3 12 22 speakerB (9 # 10)].

(** [score > bestScore], with [None] for [-Infinity]. *)
Definition beats (best : option Q) (score : Q) : Prop :=
  match best with
  | None => True
  | Some b => b < score
  end.

(** Four features in two pairs that lie far apart: durations 1 and 2
    against 101 and 102, all other keys equal. *)
Definition featureAt (i : nat) (seconds : Q) : Feature :=
  mkFeature i (mkVector seconds 2 150 50 1000).

Definition twoPairs : list Feature :=
  [featureAt 0 1; featureAt 1 2; featureAt 2 101; featureAt 3 102].

(** Values of [Math.random] for the three runs [k = 2, 3, 4]: five draws for
    each initial centroid, the first of the five placing its duration. *)
Definition draws : Rng :=
  [0; 0; 0; 0; 0;  99 # 100; 0; 0; 0; 0]
  ++ [0; 0; 0; 0; 0;  1 # 101; 0; 0; 0; 0;  100 # 101; 0; 0; 0; 0]
  ++ [0; 0; 0; 0; 0;  1 # 101; 0; 0; 0; 0;  100 # 101; 0; 0; 0; 0;
      1009 # 1010; 0; 0; 0; 0].

(** The segment ids of each cluster. *)
Definition members (clusters : list Cluster) : list (list nat) :=
  (λ c, segmentId <$> c_features c) <$> clusters.

End SpeakerDiarizationService.

(** ** More of [TranscriptionQueue]: stage discipline and the ledger of jobs *)

Module QueueMore.
Import Js StageTracker TranscriptionQueue.

#[local] Open Scope Q_scope.

(** The position of a stage in the pipeline. *)
Definition stageIndex (s : StageName) : nat :=
  match s with
  | upload => 0 | processing => 1 | transcription => 2
  | diarization => 3 | finalization => 4
  end.

(** The stages before the current one are completed at 100, the current one
    is in progress, the later ones are pending at 0; no error and no result
    are stored yet. *)
Definition tidy (t : Task) : Prop :=
  error (job t) = None ∧ result (job t) = None
  ∧ ∀ s,
      ((stageIndex s < stageIndex (reportingStage (at_ t)))%nat →
         stages (job t) s = mkStage completed 100)
      ∧ (s = reportingStage (at_ t) → st_status (stages (job t) s) = in_progress)
      ∧ ((stageIndex (reportingStage (at_ t)) < stageIndex s)%nat →
         stages (job t) s = mkStage pending 0).

(** A terminal notification. *)
Definition terminal (n : Notification) : bool :=
  match n with
  | job_done _ | job_failed _ _ _ => true
  | _ => false
  end.

(** How a task has ended. *)
Definition settledWell (jobId : string) (j : Job) (out : list Notification) : Prop :=
  (status j = job_completed
   ∧ progress j = 100%Z
   ∧ (∀ s, stages j s = mkStage completed 100)
   ∧ result j = Some jobId ∧ error j = None
   ∧ filter (λ n, terminal n = true) out = [job_done jobId])
  ∨ (status j = failed
     ∧ result j = None
     ∧ ∃ e stage, error j = Some e
        ∧ st_status (stages j stage) = in_progress
        ∧ getCurrentStage (stages j) = Some stage
        ∧ filter (λ n, terminal n = true) out = [job_failed jobId e (Some stage)]).

Definition quiet (out : list Notification) : Prop :=
  filter (λ n, terminal n = true) out = [].

(** One entry of [getQueueStatus().processing]; [filename] is left out. *)
Record RunningEntry := mkEntry {
  e_id : string;
  e_progress : Z;
  e_stage : option StageName;
}.

Record QueueStatus := mkQueueStatus {
  queueLength : nat;
  processingEntries : list RunningEntry;
  qs_maxConcurrent : Z;
}.

(** [getQueueStatus()].  The source lists the running jobs in the order
    they were admitted; here they come in the order of the map's keys, and
    the facts below speak of membership only. *)
Definition getQueueStatus (s : Scheduler) : QueueStatus :=
  mkQueueStatus (length (sch_queue s))
    ((λ '(_, t), mkEntry (id (job t)) (progress (job t))
                   (getCurrentStage (stages (job t))))
       <$> map_to_list (sch_processing s))
    (maxConcurrent s).

(** The ids of the jobs the scheduler has let go of. *)
Definition retiredIds (s : Scheduler) : list string := id <$> retired s.

(** The books of the scheduler: every queued job is as [addJob] built it,
    every running task keeps the stage discipline, the jobs let go of are
    in neither container, and the count of issued ids is that of the jobs
    in the three places. *)
Record ledger (s : Scheduler) : Prop := {
  led_queue : ∀ j, j ∈ sch_queue s → ∃ d, j = newJob (id j) d;
  led_tidy : ∀ k t, sch_processing s !! k = Some t → tidy t;
  led_retired_issued : ∀ i, i ∈ retiredIds s → i ∈ issued s;
  led_retired_gone :
    ∀ i, i ∈ retiredIds s → (i ∉ queueIds s) ∧ sch_processing s !! i = None;
  led_count :
    size (issued s)
    = (length (sch_queue s) + size (sch_processing s) + length (retired s))%nat;
}.

(** Every event of the list is admissible when it arrives. *)
Fixpoint admissibleAll (s : Scheduler) (evs : list Event) : Prop :=
  match evs with
  | [] => True
  | ev :: rest => admissible s ev ∧ admissibleAll (handle s ev).1 rest
  end.

(** A job is cancelled while it waits; its id is then used again in a
    cancel, ticks pass and another job is submitted. *)
Definition afterQueueCancel : Scheduler :=
  (handle (handle (construct None) (EvAddJob "job-1" job1)).1 (EvCancel "job-1")).1.

End QueueMore.

(** ** The report of [TranscriptionQueue]: time estimate, timestamps,
       average confidence and statistics *)

Module TranscriptionReport.
Import Js WhisperService SpeakerDiarizationService.

#[local] Open Scope Q_scope.

(** [estimateTimeRemaining(job)], in seconds, from [job.progress] and the
    milliseconds since [job.createdAt]; [None] is [null]. *)
Definition estimateTimeRemaining (progress elapsedTime : Z) : option Z :=
  if (progress =? 0)%Z then None
  else
    let totalEstimated := inject_Z elapsedTime / inject_Z progress * 100 in
    let remaining := totalEstimated - inject_Z elapsedTime in
    Some (Z.max 0 (Math_round (remaining / 1000))).

(** [Math.trunc] of a quotient, as the remainder operator uses it. *)
Definition truncate (x : Q) : Z := Z.quot (Qnum x) (Z.pos (Qden x)).

(** [x % m] for a positive literal [m]: the remainder has the sign of [x]. *)
Definition js_rem (x : Q) (m : positive) : Q :=
  x - inject_Z (Z.pos m) * inject_Z (truncate (x / inject_Z (Z.pos m))).

(** [s.padStart(2, '0')]. *)
Definition padStart2 (s : string) : string :=
  String.concat "" (replicate (2 - String.length s) "0") +:+ s.

(** [n.toString().padStart(2, '0')] for an integer [n]: its decimal digits,
    as [toString] writes an integer below 10^21. *)
Definition twoDigits (n : Z) : string := padStart2 (pretty n).

(** [formatTimestamp(seconds)]. *)
Definition formatTimestamp (seconds : Q) : string :=
  let hours := Qfloor (seconds / 3600) in
  let minutes := Qfloor (js_rem seconds 3600 / 60) in
  let secs := Qfloor (js_rem seconds 60) in
  if (0 <? hours)%Z
  then "[" +:+ twoDigits hours +:+ ":" +:+ twoDigits minutes +:+ ":"
       +:+ twoDigits secs +:+ "]"
  else "[" +:+ twoDigits minutes +:+ ":" +:+ twoDigits secs +:+ "]".

(** The clock reading of a whole number of seconds. *)
Definition clock (t : Z) : string :=
  if (3600 <=? t)%Z
  then "[" +:+ twoDigits (t / 3600) +:+ ":" +:+ twoDigits (t mod 3600 / 60)
       +:+ ":" +:+ twoDigits (t mod 60) +:+ "]"
  else "[" +:+ twoDigits (t / 60) +:+ ":" +:+ twoDigits (t mod 60) +:+ "]".

(** [calculateAverageConfidence(segments)]; on a number [c], [c || 0] is
    [c]. *)
Definition calculateAverageConfidence (segments : list DiarizedSegment) : Q :=
  match segments with
  | [] => 0
  | _ :: _ =>
      foldl (λ sum s, sum + confidence (segment s)) 0 segments
      / inject_Z (Z.of_nat (length segments))
  end.

(** An entry of [diarizedResult.speakers], as far as the statistics read it. *)
Record Speaker := mkSpeaker { sp_id : string; sp_name : string }.

Record DiarizedResult := mkDiarizedResult {
  r_duration : Q;
  r_speakers : list Speaker;
  r_segments : list DiarizedSegment;
}.

Record SpeakerStat := mkSpeakerStat {
  st_name : string;
  st_speakingTime : Q;
  st_speakingPercentage : option Q;
  st_wordCount : nat;
  st_averageConfidence : Q;
}.

Record Statistics := mkStatistics {
  totalDuration : Q;
  totalWords : nat;
  totalSegments : nat;
  speakerStats : gmap string SpeakerStat;
}.

(** [seg.words?.length || 0]. *)
Definition wordsIn (seg : DiarizedSegment) : nat :=
  match words (segment seg) with
  | Some ws => length ws
  | None => 0%nat
  end.

(** [seg.end - seg.start]. *)
Definition lengthOf (seg : DiarizedSegment) : Q :=
  end_ (segment seg) - start (segment seg).

(** The entry [generateStatistics] stores under [speaker.id]. *)
Definition speakerStat (duration : Q) (segments : list DiarizedSegment)
    (speaker_ : Speaker) : SpeakerStat :=
  let speakerSegments :=
    filter (λ seg, speaker seg = Some (sp_id speaker_)) segments in
  let speakingTime := foldl (λ sum seg, sum + lengthOf seg) 0 speakerSegments in
  let wordCount := foldl (λ sum seg, (sum + wordsIn seg)%nat) 0%nat speakerSegments in
  mkSpeakerStat (sp_name speaker_) speakingTime
    ((λ share, share * 100) <$> js_div speakingTime duration)
    wordCount (calculateAverageConfidence speakerSegments).

(** [generateStatistics(diarizedResult)]. *)
Definition generateStatistics (r : DiarizedResult) : Statistics :=
  let segments := r_segments r in
  mkStatistics (r_duration r)
    (foldl (λ sum seg, (sum + wordsIn seg)%nat) 0%nat segments)
    (length segments)
    (foldl (λ stats speaker_,
              <[sp_id speaker_ := speakerStat (r_duration r) segments speaker_]> stats)
           ∅ (r_speakers r)).

(** The segments follow one another in time, from [t] on. *)
Fixpoint inOrderFrom (t : Q) (segments : list DiarizedSegment) : Prop :=
  match segments with
  | [] => True
  | seg :: rest =>
      t <= start (segment seg) ∧ start (segment seg) <= end_ (segment seg)
      ∧ inOrderFrom (end_ (segment seg)) rest
  end.

(** The sum of a list of numbers. *)
Definition sumQ (l : list Q) : Q := foldr Qplus 0 l.

(** What the statistics say of a speaker. *)
Definition statOf (stats : Statistics) (speaker_ : Speaker) : option SpeakerStat :=
  speakerStats stats !! sp_id speaker_.

(** [v] when [k] is the key [i], 0 otherwise. *)
Definition shareOf (k : option string) (v : Q) (i : string) : Q :=
  if decide (k = Some i) then v else 0.

(** The sum of [f] over the elements of [l] whose key is [i]. *)
Definition partOf {X : Type} (key : X → option string) (f : X → Q)
    (l : list X) (i : string) : Q :=
  sumQ (f <$> filter (λ x, key x = Some i) l).

(** A conversation of 22 seconds between two speakers. *)
Definition conversation : DiarizedResult :=
  mkDiarizedResult 22
    [mkSpeaker "speaker_1" "Speaker 1"; mkSpeaker "speaker_2" "Speaker 2"]
    twoFlickers.

End TranscriptionReport.

(** ** More of [WhisperService]: what the merge keeps, large files and
       language codes *)

Module WhisperMore.
Import Js WhisperService.

#[local] Open Scope Q_scope.

(** Adjacent segments lie more than [maxGap] apart. *)
Fixpoint apart (maxGap : Q) (segments : list Segment) : Prop :=
  match segments with
  | a :: (b :: _) as rest =>
      withinGap maxGap a b = false ∧ apart maxGap rest
  | _ => True
  end.

(** [segments.map(seg => seg.text).join(' ')]. *)
Definition joinTexts (segments : list Segment) : string :=
  String.concat " " (text <$> segments).

(** [segments.flatMap(seg => seg.words || [])]. *)
Definition allWords (segments : list Segment) : list Word :=
  segments ≫= λ seg, default [] (words seg).

(** [Math.min] and [Math.ceil] on numbers. *)
Definition Math_min (a b : Q) : Q := if Qlt_bool b a then b else a.
Definition Math_ceil (x : Q) : Z := Qceiling x.

(** Twenty minutes, in seconds. *)
Definition chunkDuration : Q := 20 * 60.

(** A chunk of a large file; the path of its file is left out. *)
Record Chunk := mkChunk { startTime : Q; endTime : Q }.

Definition numChunks (duration : Q) : Z := Math_ceil (duration / chunkDuration).

(** The chunk the loop [for (i = 0; i < numChunks; i++)] pushes in turn [i]. *)
Definition chunkAt (duration : Q) (i : nat) : Chunk :=
  let startTime := inject_Z (Z.of_nat i) * chunkDuration in
  mkChunk startTime (Math_min (startTime + chunkDuration) duration).

(** The array [chunks] after the loop. *)
Definition makeChunks (duration : Q) : list Chunk :=
  chunkAt duration <$> seq 0 (Z.to_nat (numChunks duration)).

(** The loop over [chunkResult.segments]: the state is [allSegments] and
    the counter [wordId]. *)
Record Assembly := mkAssembly { allSegments : list Segment; wordId : nat }.

(** A word of a chunk, moved to the time of the whole file and renumbered. *)
Definition shiftWord (startTime : Q) (wordId : nat) (w : Word) : Word :=
  mkWord wordId (w_text w) (w_start w + startTime) (w_end w + startTime)
    (w_confidence w).

(** The body of [chunkResult.segments.forEach]. *)
Definition addSegment (startTime : Q) (a : Assembly) (seg : Segment) : Assembly :=
  let shifted :=
    mkSegment (length (allSegments a)) (start seg + startTime)
      (end_ seg + startTime) (text seg) (confidence seg)
      (imap (λ i, shiftWord startTime (wordId a + i)) <$> words seg) in
  mkAssembly (allSegments a ++ [shifted])
    (wordId a + from_option length 0%nat (words seg)).

(** One chunk with the segments its transcription returned. *)
Definition addChunk (a : Assembly) (result : Chunk * list Segment) : Assembly :=
  foldl (addSegment (startTime result.1)) a result.2.

(** [allSegments] and [wordId] after the loop over the chunks. *)
Definition assemble (results : list (Chunk * list Segment)) : Assembly :=
  foldl addChunk (mkAssembly [] 0) results.

(** What [transcribeLargeFile] returns of the transcript: [text],
    [segments] and [words]. *)
Definition largeFileResult (results : list (Chunk * list Segment))
    : string * list Segment * list Word :=
  let mergedSegments :=
    mergeCloseSegments (allSegments (assemble results)) defaultMaxGap in
  (joinTexts mergedSegments, mergedSegments, allWords mergedSegments).

(** The segments of all chunks, in the order they were transcribed. *)
Definition chunkSegments (results : list (Chunk * list Segment)) : list Segment :=
  results ≫= snd.

(** The assembly is sound: ids count the segments, [wordId] counts the
    words, and every segment has a word list. *)
Record assembled (a : Assembly) : Prop := {
  asm_ids : id <$> allSegments a = seq 0 (length (allSegments a));
  asm_wordIds : w_id <$> allWords (allSegments a) = seq 0 (wordId a);
}.

(** The number of words of a segment's list. *)
Definition wordsOf (s : Segment) : nat := from_option length 0%nat (words s).

(** The segments follow one another in time from [t] on: none starts
    before [t] or before the one before it has ended, none ends before it
    starts. *)
Fixpoint orderedFrom (t : Q) (segments : list Segment) : Prop :=
  match segments with
  | [] => True
  | s :: rest => t <= start s ∧ start s <= end_ s ∧ orderedFrom (end_ s) rest
  end.

(** The end of the last segment, [t] when there is none. *)
Definition lastEnd (t : Q) (segments : list Segment) : Q :=
  from_option end_ t (list.last segments).

(** The segments a chunk's transcription returned are in order and within
    the twenty minutes of the chunk. *)
Definition fitsChunk (segments : list Segment) : Prop :=
  orderedFrom 0 segments ∧ ∀ s, s ∈ segments → end_ s <= chunkDuration.

(** Each chunk starts at least twenty minutes after the one before it, and
    its segments fit it. *)
Fixpoint spacedFrom (t : Q) (results : list (Chunk * list Segment)) : Prop :=
  match results with
  | [] => True
  | r :: rest =>
      t <= startTime r.1 ∧ fitsChunk r.2
      ∧ spacedFrom (startTime r.1 + chunkDuration) rest
  end.

(** The own properties of [languageMap] in [extractLanguageCode]. *)
Definition languageMap : list (string * string) :=
  [("id-ID", "id"); ("en-US", "en"); ("en-GB", "en"); ("ms-MY", "ms");
   ("zh-CN", "zh"); ("ja-JP", "ja"); ("ko-KR", "ko"); ("th-TH", "th");
   ("vi-VN", "vi")].

(** The property names every object literal inherits from
    [Object.prototype]: [languageMap[name]] is then a function or an
    object, which is truthy. *)
Definition inheritedNames : list string :=
  ["constructor"; "__proto__"; "hasOwnProperty"; "isPrototypeOf";
   "propertyIsEnumerable"; "toLocaleString"; "toString"; "valueOf";
   "__defineGetter__"; "__defineSetter__"; "__lookupGetter__";
   "__lookupSetter__"].

(** What [extractLanguageCode] returns: a string, or the inherited
    property found under the name. *)
Inductive Code := Str (code : string) | Inherited (name : string).

(** [map[key]] on the own properties. *)
Fixpoint property (map : list (string * string)) (key : string) : option string :=
  match map with
  | [] => None
  | (k, v) :: rest => if String.eqb k key then Some v else property rest key
  end.

(** [language.split('-')[0]]. *)
Fixpoint beforeHyphen (s : string) : string :=
  match s with
  | EmptyString => EmptyString
  | String c rest =>
      if Ascii.eqb c "-"%char then EmptyString else String c (beforeHyphen rest)
  end.

(** [languageMap[language] || language.split('-')[0] || 'id']. *)
Definition extractLanguageCode (language : string) : Code :=
  match property languageMap language with
  | Some code => Str code
  | None =>
      if bool_decide (language ∈ inheritedNames) then Inherited language
      else match beforeHyphen language with
           | EmptyString => Str "id"
           | String c rest => Str (String c rest)
           end
  end.

(** [supportedLanguages] of [getCapabilities()]. *)
Definition supportedLanguages : list string :=
  ["id"; "en"; "ms"; "zh"; "ja"; "ko"; "th"; "vi"].

(** The string has a hyphen. *)
Fixpoint hasHyphen (s : string) : bool :=
  match s with
  | EmptyString => false
  | String c rest => Ascii.eqb c "-"%char || hasHyphen rest
  end.

End WhisperMore.

(** ** More of [SpeakerDiarizationService]: the labelling of the segments,
       the speaker confidence and the speaker profiles *)

Module DiarizationMore.
Import Js WhisperService SpeakerDiarizationService TranscriptionReport WhisperMore.

#[local] Open Scope Q_scope.

(** The state of the loop of [findNearestCentroid] after the centroids
    [seen]: the index and the distance of the nearest of them, the first
    one among equals, and the count. *)
Definition nearestOf (feature : Vector) (seen : list Vector)
    (state : nat * Q * nat) : Prop :=
  let '(nearestIndex, minDistance, i) := state in
  i = length seen
  ∧ (∃ c, seen !! nearestIndex = Some c ∧ minDistance = calculateDistance feature c)
  ∧ (∀ j c, seen !! j = Some c → minDistance <= calculateDistance feature c)
  ∧ (∀ j c, (j < nearestIndex)%nat → seen !! j = Some c →
            minDistance < calculateDistance feature c).

(** The assignments [kMeansClustering] makes from the centroids [cs]. *)
Definition nearestTo (features : list Feature) (cs : list Vector)
    : list (option nat) :=
  (λ f, Some (findNearestCentroid (values f) cs)) <$> features.

(** [Math.max] on numbers. *)
Definition Math_max (a b : Q) : Q := if Qlt_bool a b then b else a.

(** [calculateSpeakerConfidence(feature, cluster)].  [None] is the
    [TypeError] of reading a key of an undefined centroid.  A division by
    zero gives [Infinity], [-Infinity] or [NaN]; [Math.max] and [Math.min]
    pass [NaN] on and cut the infinities. *)
Definition calculateSpeakerConfidence (feature : Feature) (cluster : Cluster)
    : option Number :=
  centroid ← c_centroid cluster;
  let distanceToCentroid := calculateDistance (values feature) centroid in
  let total :=
    foldl (λ sum f, sum + calculateDistance (values f) centroid) 0
      (c_features cluster) in
  Some
    match js_div total (inject_Z (Z.of_nat (length (c_features cluster)))) with
    | None => NaN
    | Some avgDistance =>
        match js_div distanceToCentroid (avgDistance * 2) with
        | Some ratio => Finite (Math_min 1 (Math_max 0 (1 - ratio)))
        | None =>
            if Qlt_bool 0 distanceToCentroid then Finite 0
            else if Qlt_bool distanceToCentroid 0 then Finite 1
            else NaN
        end
    end.

(** The number of places where the speaker changes from one segment to
    the next. *)
Fixpoint changes (segments : list DiarizedSegment) : nat :=
  match segments with
  | a :: (b :: _) as rest =>
      ((if decide (speaker a = speaker b) then 0 else 1) + changes rest)%nat
  | _ => 0%nat
  end.

(** A segment of [assignSpeakersToSegments] before the smoothing pass:
    [l_speaker = None] is [null], the confidence may be [NaN]. *)
Record Labelled := mkLabelled {
  l_segment : Segment;
  l_speaker : option string;
  l_confidence : Number;
}.

(** [`speaker_${clusterIdx + 1}`]. *)
Definition speakerLabel (clusterIdx : nat) : string :=
  "speaker_" +:+ pretty (clusterIdx + 1)%nat.

(** [segments.map(segment => ({...segment, speaker: null, speakerConfidence: 0}))]. *)
Definition unlabelled (segments : list Segment) : list Labelled :=
  (λ s, mkLabelled s None (Finite 0)) <$> segments.

(** The body of [cluster.features.forEach]: the first segment with the id
    of the feature gets the label of the cluster.  [None] is an exception. *)
Definition labelFeature (clusterIdx : nat) (cluster : Cluster)
    (diarized : list Labelled) (feature : Feature) : option (list Labelled) :=
  match list_find (λ s, id (l_segment s) = segmentId feature) diarized with
  | Some (i, s) =>
      confidence ← calculateSpeakerConfidence feature cluster;
      Some (<[i := mkLabelled (l_segment s) (Some (speakerLabel clusterIdx))
                     confidence]> diarized)
  | None => Some diarized
  end.

(** The body of [clusters.forEach]. *)
Definition labelCluster (diarized : list Labelled) (clusterIdx : nat)
    (cluster : Cluster) : option (list Labelled) :=
  foldl (λ acc feature, acc ≫= λ d, labelFeature clusterIdx cluster d feature)
        (Some diarized) (c_features cluster).

(** [assignSpeakersToSegments(segments, clusters)] up to the call of
    [smoothSpeakerTransitions]. *)
Definition labelSegments (segments : list Segment) (clusters : list Cluster)
    : option (list Labelled) :=
  foldl (λ acc '(clusterIdx, cluster), acc ≫= λ d, labelCluster d clusterIdx cluster)
        (Some (unlabelled segments)) (imap (λ i c, (i, c)) clusters).

(** A labelled segment as an element of the array the smoothing pass
    works on. *)
Definition diarizedOf (s : Labelled) : DiarizedSegment :=
  mkDiarized (l_segment s) (l_speaker s) (l_confidence s).

(** [assignSpeakersToSegments(segments, clusters)]: the labelling, then
    [smoothSpeakerTransitions] on the labelled array. *)
Definition assignSpeakersToSegments (segments : list Segment)
    (clusters : list Cluster) : option (list DiarizedSegment) :=
  d ← labelSegments segments clusters;
  Some (smoothSpeakerTransitions (diarizedOf <$> d)).

(** Three turns, the one in the middle a second long, and two clusters:
    the first holds the features of the outer turns, the second the
    feature of the middle turn alone, its centroid being that feature. *)
Definition threeTurns : list Segment :=
  [mkSegment 0 0 10 "selamat pagi semuanya" (9 # 10) (Some []);
   mkSegment 1 10 11 "ya" (9 # 10) (Some []);
   mkSegment 2 11 23 "terima kasih atas waktunya" (9 # 10) (Some [])].

Definition twoClusters : list Cluster :=
  [mkCluster 0 (Some (mkVector 11 2 150 50 1000))
     [mkFeature 0 (mkVector 10 2 150 50 1000);
      mkFeature 2 (mkVector 12 2 150 50 1000)];
   mkCluster 1 (Some (mkVector 1 2 150 50 1000))
     [mkFeature 1 (mkVector 1 2 150 50 1000)]].

(** The label of a segment, if it has one, is that of a cluster that holds
    a feature of the segment. *)
Definition labelledBy (clusters : list Cluster) (s : Labelled) : Prop :=
  ∃ clusterIdx cluster feature,
    clusters !! clusterIdx = Some cluster
    ∧ feature ∈ c_features cluster
    ∧ segmentId feature = id (l_segment s)
    ∧ l_speaker s = Some (speakerLabel clusterIdx).

(** The array is the given segments, labelled by the clusters or not yet. *)
Definition sound (segments : list Segment) (clusters : list Cluster)
    (diarized : list Labelled) : Prop :=
  l_segment <$> diarized = segments
  ∧ ∀ s, s ∈ diarized → l_speaker s = None ∨ labelledBy clusters s.

(** Every segment with the id [x] has a label. *)
Definition settled (diarized : list Labelled) (x : nat) : Prop :=
  ∀ s, s ∈ diarized → id (l_segment s) = x → is_Some (l_speaker s).

(** A speaker profile; [avgConfidence] and [characteristics] are left out. *)
Record Profile := mkProfile {
  p_id : string;
  p_name : string;
  p_color : option string;
  p_segments : nat;
  p_speakingTime : Q;
}.

Definition colors : list string :=
  ["#1976D2"; "#388E3C"; "#F57C00"; "#7B1FA2"; "#C62828"; "#00796B"; "#5D4037";
   "#455A64"].

(** [generateSpeakerColor(index)]: [None] would be [undefined]. *)
Definition generateSpeakerColor (index : nat) : option string :=
  colors !! (index mod length colors)%nat.

(** The profile [generateSpeakerProfiles] makes for the cluster [index]. *)
Definition profileOf (diarizedSegments : list DiarizedSegment) (index : nat)
    : Profile :=
  let speakerId := speakerLabel index in
  let speakerSegments :=
    filter (λ s, speaker s = Some speakerId) diarizedSegments in
  let totalSpeakingTime :=
    foldl (λ sum seg, sum + lengthOf seg) 0 speakerSegments in
  mkProfile speakerId ("Speaker " +:+ pretty (index + 1)%nat)
    (generateSpeakerColor index) (length speakerSegments) totalSpeakingTime.

(** [generateSpeakerProfiles(clusters, diarizedSegments)]. *)
Definition generateSpeakerProfiles (clusters : list Cluster)
    (diarizedSegments : list DiarizedSegment) : list Profile :=
  imap (λ index _, profileOf diarizedSegments index) clusters.

End DiarizationMore.

(** ** [GoogleSpeechService]: the words of a response grouped into segments *)

Module GoogleSpeechService.
Import Js WhisperService.

#[local] Open Scope Q_scope.

(** A duration of the API: [seconds] and [nanos], as integers. *)
Record Time := mkTime { seconds : Z; nanos : Z }.

(** [timeToSeconds(timeObj)]; [None] is a missing time. *)
Definition timeToSeconds (timeObj : option Time) : Q :=
  match timeObj with
  | None => 0
  | Some t => inject_Z (seconds t) + inject_Z (nanos t) / 1000000000
  end.

(** A word of an alternative; [None] is a missing field. *)
Record GoogleWord := mkGoogleWord {
  g_word : string;
  g_speakerTag : option nat;
  g_startTime : option Time;
  g_endTime : option Time;
  g_confidence : option Q;
}.

(** [result.alternatives[0]], as far as it is read. *)
Record Alternative := mkAlternative {
  a_words : list GoogleWord;
  a_confidence : option Q;
}.

(** A segment of the response; its [text], which goes through
    [formatIndonesianText], is left out. *)
Record GoogleSegment := mkGoogleSegment {
  gs_id : nat;
  gs_start : Q;
  gs_end : Q;
  gs_speaker : string;
  gs_confidence : Q;
  gs_words : list Word;
}.

(** [currentSegment], which has no id yet. *)
Record OpenSegment := mkOpen {
  o_start : Q;
  o_end : Q;
  o_words : list Word;
  o_speaker : string;
  o_confidence : Q;
}.

(** The variables of [formatGoogleResponse]. *)
Record Grouping := mkGrouping {
  segments : list GoogleSegment;
  allWords : list Word;
  segmentId : nat;
  currentSegment : option OpenSegment;
  currentSpeaker : option nat;
}.

(** [word.speakerTag || 1]. *)
Definition speakerOf (word : GoogleWord) : nat :=
  match g_speakerTag word with
  | Some (S n) => S n
  | _ => 1%nat
  end.

(** [x || fallback] on a number that may be missing. *)
Definition orElse (x : option Q) (fallback : Q) : Q :=
  match x with
  | Some c => if Qeq_bool c 0 then fallback else c
  | None => fallback
  end.

(** [finalizeSegment(segment, id)]. *)
Definition finalizeSegment (segment : OpenSegment) (id : nat) : GoogleSegment :=
  mkGoogleSegment id (o_start segment) (o_end segment) (o_speaker segment)
    (o_confidence segment) (o_words segment).

(** [`speaker_${speaker}`]. *)
Definition speakerName (speaker : nat) : string := "speaker_" +:+ pretty speaker.

(** The test that starts a new segment. *)
Definition startsSegment (g : Grouping) (speaker : nat) (startTime : Q) : bool :=
  match currentSegment g with
  | None => true
  | Some current =>
      bool_decide (Some speaker ≠ currentSpeaker g)
      || match list.last (o_words current) with
         | Some lastWord => Qlt_bool 2 (startTime - w_end lastWord)
         | None => false
         end
  end.

(** One turn of the loop over the words of an alternative. *)
Definition addWord (confidence : Q) (g : Grouping) (word : GoogleWord) : Grouping :=
  let speaker := speakerOf word in
  let startTime := timeToSeconds (g_startTime word) in
  let endTime := timeToSeconds (g_endTime word) in
  let g1 :=
    if startsSegment g speaker startTime
    then
      let closed :=
        match currentSegment g with
        | Some current =>
            mkGrouping (segments g ++ [finalizeSegment current (segmentId g)])
              (allWords g) (S (segmentId g)) (currentSegment g) (currentSpeaker g)
        | None => g
        end in
      mkGrouping (segments closed) (allWords closed) (segmentId closed)
        (Some (mkOpen startTime endTime [] (speakerName speaker) confidence))
        (Some speaker)
    else g in
  let formattedWord :=
    mkWord (length (allWords g1)) (g_word word) startTime endTime
      (orElse (g_confidence word) confidence) in
  mkGrouping (segments g1) (allWords g1 ++ [formattedWord]) (segmentId g1)
    ((λ current,
        mkOpen (o_start current) endTime (o_words current ++ [formattedWord])
          (o_speaker current) (o_confidence current)) <$> currentSegment g1)
    (currentSpeaker g1).

(** One turn of the loop over the results: [None] is a result without an
    alternative.  [currentSegment] and [currentSpeaker] are variables of
    the loop body and start from [null] in every turn. *)
Definition addResult (g : Grouping) (alternative : option Alternative) : Grouping :=
  match alternative with
  | None => g
  | Some a =>
      let confidence := or0 (a_confidence a) in
      let g0 :=
        mkGrouping (segments g) (allWords g) (segmentId g) None None in
      let g1 := foldl (addWord confidence) g0 (a_words a) in
      match currentSegment g1 with
      | Some current =>
          mkGrouping (segments g1 ++ [finalizeSegment current (segmentId g1)])
            (allWords g1) (S (segmentId g1)) None None
      | None => mkGrouping (segments g1) (allWords g1) (segmentId g1) None None
      end
  end.

(** A response: the segments, all words, and the duration. *)
Record GoogleResult := mkGoogleResult {
  res_segments : list GoogleSegment;
  res_words : list Word;
  res_duration : Q;
}.

(** [formatGoogleResponse(response, options)]. *)
Definition formatGoogleResponse (results : list (option Alternative)) : GoogleResult :=
  let g := foldl addResult (mkGrouping [] [] 0 None None) results in
  mkGoogleResult (segments g) (allWords g)
    (match segments g with
     | [] => 0
     | _ :: _ => SpeakerDiarizationService.maximum (gs_end <$> segments g)
     end).

(** The words of all alternatives in order, each with the confidence of
    its alternative. *)
Definition sourcesOf (results : list (option Alternative))
    : list (Q * GoogleWord) :=
  results ≫= λ alternative,
    match alternative with
    | None => []
    | Some a => (λ word, (or0 (a_confidence a), word)) <$> a_words a
    end.

(** The formatted word of the source at position [i]. *)
Definition formatted (i : nat) (source : Q * GoogleWord) : Word :=
  mkWord i (g_word source.2) (timeToSeconds (g_startTime source.2))
    (timeToSeconds (g_endTime source.2))
    (orElse (g_confidence source.2) source.1).

(** A segment is made of words: it is not empty, starts with its first
    word and ends with its last, every word of it was spoken by the
    speaker it names, and no word starts more than two seconds after the
    one before it has ended. *)
Definition madeOf (sources : list (Q * GoogleWord)) (start_ finish : Q)
    (speaker : string) (ws : list Word) : Prop :=
  ws ≠ []
  ∧ w_start <$> head ws = Some start_
  ∧ w_end <$> list.last ws = Some finish
  ∧ (∀ w, w ∈ ws →
       ∃ source, sources !! w_id w = Some source
                 ∧ speaker = speakerName (speakerOf source.2))
  ∧ ∀ i a b, ws !! i = Some a → ws !! S i = Some b → w_start b - w_end a <= 2.

(** What holds of the variables between two words. *)
Record grouped (sources : list (Q * GoogleWord)) (g : Grouping) : Prop := {
  gres_words : allWords g = imap formatted sources;
  gr_parts :
    mjoin (gs_words <$> segments g) ++ from_option o_words [] (currentSegment g)
    = allWords g;
  gr_ids : gs_id <$> segments g = seq 0 (length (segments g));
  gr_next : segmentId g = length (segments g);
  gr_closed :
    ∀ s, s ∈ segments g →
      madeOf sources (gs_start s) (gs_end s) (gs_speaker s) (gs_words s);
  gr_open :
    ∀ c, currentSegment g = Some c →
      madeOf sources (o_start c) (o_end c) (o_speaker c) (o_words c)
      ∧ ∃ speaker, currentSpeaker g = Some speaker
                   ∧ o_speaker c = speakerName speaker;
}.

End GoogleSpeechService.

(** ** The progress reports of the services and of a job that succeeds *)

Module ProgressReports.
Import Js StageTracker TranscriptionQueue WhisperMore.

#[local] Open Scope Q_scope.

(** [GoogleSpeechService.transcribe]. *)
Definition googleReports : list Q := [5; 15; 25; 80; 100].

(** [WhisperService.transcribe] on a file of at most 25 MB. *)
Definition whisperReports : list Q := [5; 10; 20; 30; 80; 100].

(** [i / n], the fraction of the loop done before turn [i]. *)
Definition fraction (i n : nat) : Q :=
  inject_Z (Z.of_nat i) / inject_Z (Z.of_nat n).

(** [WhisperService.transcribe] on a larger file, which goes through
    [transcribeLargeFile]: one report for each chunk cut and one for each
    chunk transcribed ([chunks.length] is [numChunks]). *)
Definition whisperLargeReports (numChunks : nat) : list Q :=
  [5; 10; 10]
  ++ ((λ i, 20 + fraction i numChunks * 20) <$> seq 0 numChunks)
  ++ ((λ i, 40 + fraction i numChunks * 50) <$> seq 0 numChunks)
  ++ [95; 100].

(** The events of the Azure recognizer before the session stops:
    [recognizing], and [recognized] with or without a text. *)
Inductive AzureEvent := Recognizing | Recognized (withText : bool).

(** The reports of [performRecognition], with [segments.length] so far. *)
Fixpoint recognitionReports (segments : nat) (events : list AzureEvent) : list Q :=
  match events with
  | [] => []
  | Recognizing :: rest =>
      Math_min (30 + inject_Z (Z.of_nat segments) * 5) 80
        :: recognitionReports segments rest
  | Recognized true :: rest => recognitionReports (S segments) rest
  | Recognized false :: rest => recognitionReports segments rest
  end.

(** [AzureSpeechService.transcribe]. *)
Definition azureReports (events : list AzureEvent) : list Q :=
  [5; 15; 25] ++ recognitionReports 0 events ++ [100].

(** [SpeakerDiarizationService.process] on a transcription of [n] segments. *)
Definition diarizationReports (n : nat) : list Q :=
  [5; 20] ++ ((λ i, 20 + fraction i n * 40) <$> seq 0 n) ++ [60; 80; 90; 100].

(** The reports a provider may make on a call that succeeds. *)
Inductive reportsOf : Provider → list Q → Prop :=
| reports_google : reportsOf google googleReports
| reports_whisper : reportsOf whisper whisperReports
| reports_whisper_large numChunks : reportsOf whisper (whisperLargeReports numChunks)
| reports_azure events : reportsOf azure (azureReports events).

(** The percentages never go down, starting from [q], and stay at most 100. *)
Fixpoint climbingFrom (q : Q) (l : list Q) : Prop :=
  match l with
  | [] => True
  | x :: rest => q <= x ∧ x <= 100 ∧ climbingFrom x rest
  end.

(** The last percentage, [q] for an empty list. *)
Definition lastOr (q : Q) (l : list Q) : Q := default q (list.last l).

(** The signals of a job whose calls all succeed: ffmpeg reports, the audio
    is ready, the provider reports and returns, the diarization reports and
    returns, the transcription is saved. *)
Definition successfulRun (ffmpeg : list (option Q)) (transcription : list Q)
    (segments : nat) : list Signal :=
  (FfmpegProgress <$> ffmpeg) ++ [Resolved]
  ++ (Callback <$> transcription) ++ [Resolved]
  ++ (Callback <$> diarizationReports segments) ++ [Resolved]
  ++ [Resolved].

(** The percentage [processAudio] stores for an ffmpeg event. *)
Definition ffmpegPercent (percent : option Q) : Q :=
  inject_Z (Math_round (or0 percent)).

(** The suspension point waits for reports of this kind. *)
Definition accepted (a : Await) (sig : Signal) : Prop :=
  match sig, a with
  | FfmpegProgress _, AwaitAudio => True
  | Callback _, (AwaitPrimary _ | AwaitFallback | AwaitDiarization) => True
  | _, _ => False
  end.

(** The percentage of a report, 0 for a signal that is none. *)
Definition percentOf (sig : Signal) : Q := default 0 (reportedPercent sig).

End ProgressReports.
(** ** Facts about the number model *)

Module JsFacts.
Import Js.

#[local] Open Scope Q_scope.

Lemma Math_round_mono (x y : Q) : x <= y → (Math_round x ≤ Math_round y)%Z.
Proof. intros H. apply Qfloor_resp_le. lra. Qed.

Lemma Math_round_Z (z : Z) : Math_round (inject_Z z) = z.
Proof.
  unfold Math_round.
  assert (Hlo : (z ≤ Qfloor (inject_Z z + (1 # 2)))%Z).
  { etransitivity; [|apply (Qfloor_resp_le (inject_Z z))].
    - by rewrite Qfloor_Z.
    - lra. }
  assert (Hhi : (Qfloor (inject_Z z + (1 # 2)) < z + 1)%Z).
  { pose proof (Qfloor_le (inject_Z z + (1 # 2))) as Hf.
    rewrite Zlt_Qlt. rewrite inject_Z_plus. change (inject_Z 1) with 1. lra. }
  lia.
Qed.

Lemma Math_round_range (x : Q) (lo hi : Z) :
  inject_Z lo <= x → x <= inject_Z hi → (lo ≤ Math_round x ≤ hi)%Z.
Proof.
  intros Hlo Hhi. split.
  - rewrite <- (Math_round_Z lo). by apply Math_round_mono.
  - rewrite <- (Math_round_Z hi). by apply Math_round_mono.
Qed.

(** [Math_sqrt] is exact on the square of a rational. *)
Lemma Math_sqrt_square (q : Q) : Math_sqrt (q * q) == Qabs q.
Proof.
  destruct q as [a b]. unfold Math_sqrt, Qabs, Qeq. cbn [Qnum Qden Qmult].
  set (S := sqrt_scale).
  assert (HS : (0 < S)%Z) by (by vm_compute).
  replace (a * a * Z.pos (b * b) * (S * S))%Z
    with ((Z.abs a * Z.pos b * S) * (Z.abs a * Z.pos b * S))%Z
    by (rewrite Pos2Z.inj_mul, <- (Z.abs_square a); ring).
  rewrite Z.sqrt_square by nia.
  rewrite Z2Pos.id by nia. rewrite Pos2Z.inj_mul. ring.
Qed.


Lemma Qlt_bool_iff x y : Qlt_bool x y = true ↔ x < y.
Proof.
  unfold Qlt_bool. rewrite negb_true_iff. split.
  - intros H. apply Qnot_le_lt. intros Hle. apply Qle_bool_iff in Hle. congruence.
  - intros H. destruct (Qle_bool y x) eqn:E; [|done].
    apply Qle_bool_iff in E. lra.
Qed.

Lemma Qlt_bool_false x y : Qlt_bool x y = false ↔ y <= x.
Proof.
  unfold Qlt_bool. rewrite negb_false_iff. apply Qle_bool_iff.
Qed.

Lemma Qle_bool_false x y : Qle_bool x y = false ↔ y < x.
Proof.
  split.
  - intros H. apply Qnot_le_lt. intros Hle. apply Qle_bool_iff in Hle. congruence.
  - intros H. destruct (Qle_bool x y) eqn:E; [|done].
    apply Qle_bool_iff in E. lra.
Qed.

(** ** Doubles: rounding is monotone and leaves a double where it is *)

Lemma pow2_pos e : 0 < 2 ^ e.
Proof. by apply Qpower_0_lt. Qed.

Lemma pow2_plus a b : 2 ^ (a + b) == 2 ^ a * 2 ^ b.
Proof. by apply Qpower_plus. Qed.

Lemma pow2_le a b : (a ≤ b)%Z → 2 ^ a <= 2 ^ b.
Proof. intros H. by apply Qpower_le_compat_l. Qed.

Lemma pow2_lt a b : (a < b)%Z → 2 ^ a < 2 ^ b.
Proof. intros H. by apply Qpower_lt_compat_l. Qed.

Lemma pow2_lt_inv a b : 2 ^ a < 2 ^ b → (a < b)%Z.
Proof. intros H. by apply (Qpower_lt_compat_l_inv 2). Qed.

Lemma pow2_Z n : (0 ≤ n)%Z → inject_Z (2 ^ n) == 2 ^ n.
Proof. intros H. by rewrite Zpower_Qpower. Qed.

Lemma pow2_div x e : x / 2 ^ e == x * 2 ^ (- e).
Proof. unfold Qdiv. by rewrite Qpower_opp. Qed.

Lemma pow2_cancel e : 2 ^ (- e) * 2 ^ e == 1.
Proof. rewrite <- pow2_plus. by replace (- e + e)%Z with 0%Z by lia. Qed.

Lemma Q_num_den x : x == inject_Z (Qnum x) / inject_Z (Zpos (Qden x)).
Proof. destruct x as [p q]. simpl. rewrite Qmake_Qdiv. reflexivity. Qed.

Lemma ilog2_spec x : 0 < x → 2 ^ ilog2 x <= x ∧ x < 2 ^ (ilog2 x + 1).
Proof.
  intros Hx. unfold ilog2.
  set (p := Qnum x). set (q := Z.pos (Qden x)).
  assert (Hp : (0 < p)%Z).
  { destruct x as [n d]. unfold Qlt in Hx. simpl in *. unfold p. simpl. lia. }
  assert (Hq : (0 < q)%Z) by done.
  destruct (Z.log2_spec p Hp) as [Hp1 Hp2].
  destruct (Z.log2_spec q Hq) as [Hq1 Hq2].
  pose proof (Z.log2_nonneg p) as Hlp. pose proof (Z.log2_nonneg q) as Hlq.
  set (lp := Z.log2 p) in *. set (lq := Z.log2 q) in *.
  assert (Ex : x == inject_Z p / inject_Z q) by apply Q_num_den.
  assert (Hq0 : 0 < inject_Z q) by (change 0 with (inject_Z 0); by rewrite <- Zlt_Qlt).
  assert (Hxq : x * inject_Z q == inject_Z p).
  { rewrite Ex. field. lra. }
  (* bounds on p and q as rationals *)
  assert (Bp1 : 2 ^ lp <= inject_Z p) by (rewrite <- pow2_Z by done; by rewrite <- Zle_Qle).
  assert (Bp2 : inject_Z p < 2 ^ (lp + 1)).
  { rewrite <- pow2_Z by lia. rewrite <- Zlt_Qlt. by rewrite <- Z.add_1_r in Hp2. }
  assert (Bq1 : 2 ^ lq <= inject_Z q) by (rewrite <- pow2_Z by done; by rewrite <- Zle_Qle).
  assert (Bq2 : inject_Z q < 2 ^ (lq + 1)).
  { rewrite <- pow2_Z by lia. rewrite <- Zlt_Qlt. by rewrite <- Z.add_1_r in Hq2. }
  (* x < 2 ^ (l + 1) and 2 ^ (l - 1) < x *)
  assert (Hup : x < 2 ^ (lp - lq + 1)).
  { apply Qnot_le_lt. intros Hle.
    assert (2 ^ (lp - lq + 1) * 2 ^ lq <= x * inject_Z q).
    { pose proof (pow2_pos (lp - lq + 1)). pose proof (pow2_pos lq). nra. }
    rewrite <- pow2_plus in H. replace (lp - lq + 1 + lq)%Z with (lp + 1)%Z in H by lia.
    lra. }
  assert (Hlo : 2 ^ (lp - lq - 1) < x).
  { apply Qnot_le_lt. intros Hle.
    assert (x * inject_Z q < 2 ^ (lp - lq - 1) * 2 ^ (lq + 1)).
    { pose proof (pow2_pos (lp - lq - 1)). pose proof (pow2_pos (lq + 1)). nra. }
    rewrite <- pow2_plus in H. replace (lp - lq - 1 + (lq + 1))%Z with lp in H by lia.
    lra. }
  destruct (Qle_bool (2 ^ (lp - lq)) x) eqn:E.
  - apply Qle_bool_iff in E. done.
  - assert (x < 2 ^ (lp - lq)).
    { apply Qnot_le_lt. intros H. apply Qle_bool_iff in H. congruence. }
    replace (lp - lq - 1 + 1)%Z with (lp - lq)%Z by lia. split; [lra|done].
Qed.

Lemma ilog2_unique x k : 2 ^ k <= x → x < 2 ^ (k + 1) → ilog2 x = k.
Proof.
  intros H1 H2. assert (Hx : 0 < x) by (pose proof (pow2_pos k); lra).
  destruct (ilog2_spec x Hx) as [S1 S2].
  assert (2 ^ k < 2 ^ (ilog2 x + 1)) as A by lra.
  assert (2 ^ ilog2 x < 2 ^ (k + 1)) as B by lra.
  apply pow2_lt_inv in A, B. lia.
Qed.

Lemma ilog2_mono x y : 0 < x → x <= y → (ilog2 x ≤ ilog2 y)%Z.
Proof.
  intros Hx Hxy. assert (Hy : 0 < y) by lra.
  destruct (ilog2_spec x Hx) as [X1 X2]. destruct (ilog2_spec y Hy) as [Y1 Y2].
  assert (2 ^ ilog2 x < 2 ^ (ilog2 y + 1)) as A by lra.
  apply pow2_lt_inv in A. lia.
Qed.

Lemma ilog2_comp x y : 0 < x → x == y → ilog2 x = ilog2 y.
Proof.
  intros Hx E. destruct (ilog2_spec x Hx) as [X1 X2].
  symmetry. apply ilog2_unique; by rewrite <- E.
Qed.

Lemma roundHalfEven_floor t :
  (Qfloor t ≤ roundHalfEven t ≤ Qfloor t + 1)%Z.
Proof. unfold roundHalfEven. repeat case_match; lia. Qed.

Lemma roundHalfEven_comp t u : t == u → roundHalfEven t = roundHalfEven u.
Proof.
  intros E. unfold roundHalfEven.
  assert (Qfloor t = Qfloor u) as -> by (by rewrite E).
  assert (Qcompare (t - inject_Z (Qfloor u)) (1 # 2)
          = Qcompare (u - inject_Z (Qfloor u)) (1 # 2)) as ->; [|done].
  by rewrite E.
Qed.

Lemma roundHalfEven_Z n : roundHalfEven (inject_Z n) = n.
Proof.
  unfold roundHalfEven. rewrite Qfloor_Z.
  destruct (Qcompare_spec (inject_Z n - inject_Z n) (1 # 2)) as [H|H|H]; [lra|done|lra].
Qed.

Lemma roundHalfEven_ge t n : inject_Z n <= t → (n ≤ roundHalfEven t)%Z.
Proof.
  intros H. apply Qfloor_resp_le in H. rewrite Qfloor_Z in H.
  pose proof (roundHalfEven_floor t). lia.
Qed.

Lemma roundHalfEven_le t n : t <= inject_Z n → (roundHalfEven t ≤ n)%Z.
Proof.
  intros H. pose proof (Qfloor_resp_le _ _ H) as Hf. rewrite Qfloor_Z in Hf.
  destruct (decide (Qfloor t = n)) as [E|Hne].
  - unfold roundHalfEven. rewrite E.
    destruct (Qcompare_spec (t - inject_Z n) (1 # 2)) as [H1|H1|H1]; [lra|lia|lra].
  - pose proof (roundHalfEven_floor t). lia.
Qed.

Lemma roundHalfEven_mono t u : t <= u → (roundHalfEven t ≤ roundHalfEven u)%Z.
Proof.
  intros H. pose proof (Qfloor_resp_le _ _ H) as Hf.
  destruct (decide (Qfloor t = Qfloor u)) as [E|Hne].
  - unfold roundHalfEven. rewrite E.
    destruct (Qcompare_spec (t - inject_Z (Qfloor u)) (1 # 2)) as [H1|H1|H1];
    destruct (Qcompare_spec (u - inject_Z (Qfloor u)) (1 # 2)) as [H2|H2|H2];
      try lra; try lia; destruct (Z.even (Qfloor u)); lia.
  - pose proof (roundHalfEven_floor t). pose proof (roundHalfEven_floor u). lia.
Qed.

Lemma pow2_split k e : 2 ^ k == 2 ^ (k - e) * 2 ^ e.
Proof. rewrite <- pow2_plus. by replace (k - e + e)%Z with k by lia. Qed.

Lemma ulpExponent_comp x y : 0 < x → x == y → ulpExponent x = ulpExponent y.
Proof. intros Hx E. unfold ulpExponent. by rewrite (ilog2_comp x y). Qed.

Lemma nearest_comp x y : 0 < x → x == y → nearest x == nearest y.
Proof.
  intros Hx E. unfold nearest. rewrite (ulpExponent_comp x y) by done.
  rewrite (roundHalfEven_comp (x / _) (y / 2 ^ ulpExponent y)); [done|].
  by rewrite E.
Qed.

Lemma scaled_nonneg x e : 0 < x → 0 <= x / 2 ^ e.
Proof.
  intros Hx. rewrite pow2_div. pose proof (pow2_pos (- e)). nra.
Qed.

Lemma scaled_lt x e k : x < 2 ^ k → x / 2 ^ e < 2 ^ (k - e).
Proof.
  intros H. rewrite pow2_div.
  replace (k - e)%Z with (k + - e)%Z by lia. rewrite pow2_plus.
  pose proof (pow2_pos (- e)). nra.
Qed.

Lemma scaled_ge x e k : 2 ^ k <= x → 2 ^ (k - e) <= x / 2 ^ e.
Proof.
  intros H. rewrite pow2_div.
  replace (k - e)%Z with (k + - e)%Z by lia. rewrite pow2_plus.
  pose proof (pow2_pos (- e)). nra.
Qed.

Lemma nearest_nonneg x : 0 < x → 0 <= nearest x.
Proof.
  intros Hx. unfold nearest.
  pose proof (roundHalfEven_ge _ 0 (scaled_nonneg x (ulpExponent x) Hx)) as H.
  rewrite Zle_Qle in H. change (inject_Z 0) with 0 in H. apply Qmult_le_0_compat; [done|]. apply Qlt_le_weak, pow2_pos.
Qed.

(** The rounded value is at most the next power of two (or one unit in
    the last place, for a tiny [x]). *)
Lemma nearest_upper x k :
  0 < x → (ilog2 x + 1 ≤ k)%Z → (ulpExponent x ≤ k)%Z → nearest x <= 2 ^ k.
Proof.
  intros Hx Hl He. destruct (ilog2_spec x Hx) as [_ Hup].
  unfold nearest. set (e := ulpExponent x) in *.
  assert (x / 2 ^ e <= inject_Z (2 ^ (k - e))) as Ht.
  { rewrite pow2_Z by lia.
    pose proof (scaled_lt x e _ Hup).
    pose proof (pow2_le (ilog2 x + 1 - e) (k - e) ltac:(lia)). lra. }
  apply roundHalfEven_le in Ht. rewrite Zle_Qle in Ht. rewrite pow2_Z in Ht by lia.
  rewrite (pow2_split k e).
  apply Qmult_le_compat_r; [done|]. apply Qlt_le_weak, pow2_pos.
Qed.

(** A normal [x] is rounded to at least the power of two below it. *)
Lemma nearest_lower x :
  0 < x → ulpExponent x = (ilog2 x - 52)%Z → 2 ^ ilog2 x <= nearest x.
Proof.
  intros Hx He. destruct (ilog2_spec x Hx) as [Hlo _].
  unfold nearest. rewrite He.
  assert (inject_Z (2 ^ 52) <= x / 2 ^ (ilog2 x - 52)) as Ht.
  { rewrite pow2_Z by lia.
    pose proof (scaled_ge x (ilog2 x - 52) _ Hlo) as H.
    by replace (ilog2 x - (ilog2 x - 52))%Z with 52%Z in H by lia. }
  apply roundHalfEven_ge in Ht. rewrite Zle_Qle in Ht. rewrite pow2_Z in Ht by lia.
  rewrite (pow2_split (ilog2 x) (ilog2 x - 52)).
  replace (ilog2 x - (ilog2 x - 52))%Z with 52%Z by lia.
  apply Qmult_le_compat_r; [done|]. apply Qlt_le_weak, pow2_pos.
Qed.

Lemma nearest_mono x y : 0 < x → x <= y → nearest x <= nearest y.
Proof.
  intros Hx Hxy. assert (Hy : 0 < y) by lra.
  pose proof (ilog2_mono x y Hx Hxy) as Hl.
  destruct (decide (ulpExponent x = ulpExponent y)) as [E|Hne].
  - unfold nearest. rewrite E. set (e := ulpExponent y).
    assert (x / 2 ^ e <= y / 2 ^ e) as Ht.
    { rewrite !pow2_div. pose proof (pow2_pos (- e)). nra. }
    apply roundHalfEven_mono in Ht. rewrite Zle_Qle in Ht.
    apply Qmult_le_compat_r; [done|]. apply Qlt_le_weak, pow2_pos.
  - assert (ulpExponent y = (ilog2 y - 52)%Z ∧ (ilog2 x < ilog2 y)%Z
            ∧ (ulpExponent x ≤ ilog2 y)%Z) as (Ey & Hlt & Hex).
    { unfold ulpExponent in *. lia. }
    pose proof (nearest_upper x (ilog2 y) Hx ltac:(lia) Hex).
    pose proof (nearest_lower y Hy Ey). lra.
Qed.

(** The numbers [m * 2 ^ e] whose last place is [e] are not moved. *)
Lemma nearest_grid m e :
  (1 ≤ m)%Z → ulpExponent (inject_Z m * 2 ^ e) = e →
  nearest (inject_Z m * 2 ^ e) == inject_Z m * 2 ^ e.
Proof.
  intros Hm He. unfold nearest. rewrite He.
  rewrite (roundHalfEven_comp _ (inject_Z m)), roundHalfEven_Z; [done|].
  field. pose proof (pow2_pos e). lra.
Qed.

Lemma ilog2_grid m e :
  (1 ≤ m)%Z → ilog2 (inject_Z m * 2 ^ e) = (Z.log2 m + e)%Z.
Proof.
  intros Hm. destruct (Z.log2_spec m ltac:(lia)) as [H1 H2].
  pose proof (Z.log2_nonneg m) as Hn.
  rewrite Zle_Qle in H1. rewrite pow2_Z in H1 by done.
  rewrite <- Z.add_1_r in H2. rewrite Zlt_Qlt in H2. rewrite pow2_Z in H2 by lia.
  pose proof (pow2_pos e).
  apply ilog2_unique.
  - rewrite pow2_plus. nra.
  - replace (Z.log2 m + e + 1)%Z with (Z.log2 m + 1 + e)%Z by lia.
    rewrite pow2_plus. nra.
Qed.

Lemma nearest_fixed x : 0 < x → 0 < nearest x → nearest (nearest x) == nearest x.
Proof.
  intros Hx Hd. destruct (ilog2_spec x Hx) as [Hlo Hup].
  set (e := ulpExponent x). set (m := roundHalfEven (x / 2 ^ e)).
  assert (Ed : nearest x = inject_Z m * 2 ^ e) by done.
  pose proof (pow2_pos e) as Hpe.
  assert (Hm1 : (1 ≤ m)%Z).
  { rewrite Ed in Hd. destruct (decide (1 ≤ m)%Z) as [|Hn]; [done|].
    assert (m ≤ 0)%Z as Hm0 by lia. rewrite Zle_Qle in Hm0.
    change (inject_Z 0) with 0 in Hm0.
    assert (inject_Z m * 2 ^ e <= 0 * 2 ^ e)
      by (apply Qmult_le_compat_r; [done|by apply Qlt_le_weak]).
    lra. }
  assert (Hm53 : (m ≤ 2 ^ 53)%Z).
  { apply roundHalfEven_le. rewrite pow2_Z by lia.
    pose proof (scaled_lt x e _ Hup).
    pose proof (pow2_le (ilog2 x + 1 - e) 53 ltac:(unfold e, ulpExponent; lia)). lra. }
  destruct (decide (m = 2 ^ 53)%Z) as [E53|N53].
  - (* rounded up to the next power of two *)
    assert (Hnormal : e = (ilog2 x - 52)%Z).
    { destruct (decide (e = (ilog2 x - 52)%Z)) as [|Hsub]; [done|exfalso].
      assert (m ≤ 2 ^ 52)%Z; [|lia].
      apply roundHalfEven_le. rewrite pow2_Z by lia.
      pose proof (scaled_lt x e _ Hup).
      pose proof (pow2_le (ilog2 x + 1 - e) 52 ltac:(unfold e, ulpExponent in *; lia)).
      lra. }
    assert (Eg : nearest x == inject_Z (2 ^ 52) * 2 ^ (e + 1)).
    { rewrite Ed, E53, !pow2_Z by lia.
      rewrite <- !pow2_plus. by replace (53 + e)%Z with (52 + (e + 1))%Z by lia. }
    rewrite (nearest_comp _ _ Hd Eg), Eg. apply nearest_grid; [lia|].
    unfold ulpExponent. rewrite ilog2_grid by lia.
    change (Z.log2 (2 ^ 52)) with 52%Z. unfold e, ulpExponent in *. lia.
  - rewrite Ed. apply nearest_grid; [done|].
    unfold ulpExponent. rewrite ilog2_grid by done.
    assert (Z.log2 m < 53)%Z as Hlm by (apply Z.log2_lt_pow2; lia).
    destruct (decide (e = (ilog2 x - 52)%Z)) as [Hnormal|Hsub].
    + assert (2 ^ 52 ≤ m)%Z as Hm52.
      { apply roundHalfEven_ge. rewrite pow2_Z by lia.
        pose proof (scaled_ge x e _ Hlo) as H.
        by replace (ilog2 x - e)%Z with 52%Z in H by lia. }
      assert (52 ≤ Z.log2 m)%Z by (apply Z.log2_le_pow2; lia).
      unfold e, ulpExponent in *. lia.
    + unfold e, ulpExponent in *. lia.
Qed.

Lemma double_comp x y : x == y → double x == double y.
Proof.
  intros E. unfold double. rewrite <- E.
  destruct (Qcompare_spec x 0) as [H|H|H]; [done| |].
  - apply Qopp_comp, nearest_comp; [lra|by rewrite E].
  - by apply nearest_comp.
Qed.

#[global] Instance double_proper : Proper (Qeq ==> Qeq) double.
Proof. intros x y E. by apply double_comp. Qed.

Lemma double_nonneg x : 0 <= x → 0 <= double x.
Proof.
  intros Hx. unfold double. destruct (Qcompare_spec x 0) as [H|H|H]; [lra|lra|].
  by apply nearest_nonneg.
Qed.

Lemma double_nonpos x : x <= 0 → double x <= 0.
Proof.
  intros Hx. unfold double. destruct (Qcompare_spec x 0) as [H|H|H]; [lra| |lra].
  pose proof (nearest_nonneg (- x) ltac:(lra)). lra.
Qed.

(** Rounding is monotone. *)
Lemma double_mono x y : x <= y → double x <= double y.
Proof.
  intros Hxy. destruct (Qlt_le_dec 0 x) as [Hx|Hx].
  - unfold double.
    destruct (Qcompare_spec x 0) as [H|H|H]; [lra|lra|].
    destruct (Qcompare_spec y 0) as [H'|H'|H']; [lra|lra|].
    by apply nearest_mono.
  - destruct (Qlt_le_dec 0 y) as [Hy|Hy].
    + pose proof (double_nonpos x Hx). pose proof (double_nonneg y ltac:(lra)). lra.
    + destruct (Qeq_dec y 0) as [E|N].
      * rewrite (double_comp y 0 E). pose proof (double_nonpos x Hx).
        by change (double 0) with 0.
      * unfold double.
        destruct (Qcompare_spec x 0) as [H|H|H]; [lra| |lra].
        destruct (Qcompare_spec y 0) as [H'|H'|H']; [lra| |lra].
        pose proof (nearest_mono (- y) (- x) ltac:(lra) ltac:(lra)). lra.
Qed.

(** A double is not moved. *)
Lemma double_idem x : double (double x) == double x.
Proof.
  unfold double at 2 3. destruct (Qcompare_spec x 0) as [H|H|H].
  - done.
  - pose proof (nearest_nonneg (- x) ltac:(lra)) as Hn.
    destruct (Qeq_dec (nearest (- x)) 0) as [E|N].
    + rewrite E. done.
    + unfold double. destruct (Qcompare_spec (- nearest (- x)) 0) as [H'|H'|H']; [lra| |lra].
      assert (0 < nearest (- x)) as Hp by lra.
      rewrite (nearest_comp (- - nearest (- x)) (nearest (- x))) by (lra || ring).
      by rewrite nearest_fixed by (lra || done).
  - pose proof (nearest_nonneg x H) as Hn.
    destruct (Qeq_dec (nearest x) 0) as [E|N].
    + rewrite E. done.
    + unfold double. destruct (Qcompare_spec (nearest x) 0) as [H'|H'|H']; [lra|lra|].
      by apply nearest_fixed.
Qed.

(** The integers up to [2 ^ 53] are doubles. *)
Lemma double_Z z : (Z.abs z ≤ 2 ^ 53)%Z → double (inject_Z z) == inject_Z z.
Proof.
  assert (Hpos : ∀ n, (1 ≤ n ≤ 2 ^ 53)%Z → nearest (inject_Z n) == inject_Z n).
  { intros n Hn. set (e := ulpExponent (inject_Z n)).
    assert (Hl : ilog2 (inject_Z n) = Z.log2 n).
    { rewrite <- (Z.add_0_r (Z.log2 n)), <- ilog2_grid by lia.
      apply ilog2_comp; [change 0 with (inject_Z 0); rewrite <- Zlt_Qlt; lia|]. simpl. ring. }
    assert (Z.log2 n ≤ 53)%Z as Hlog.
    { change 53%Z with (Z.log2 (2 ^ 53)). apply Z.log2_le_mono. lia. }
    pose proof (Z.log2_nonneg n) as Hnn.
    assert (He : (e ≤ 1)%Z) by (unfold e, ulpExponent; lia).
    unfold nearest. fold e.
    destruct (decide (e = 1%Z)) as [E1|N1].
    - (* n = 2 ^ 53 *)
      assert (Z.log2 n = 53)%Z as L53 by (unfold e, ulpExponent in E1; lia).
      assert (n = 2 ^ 53)%Z as ->.
      { destruct (Z.log2_spec n ltac:(lia)) as [H1 _]. rewrite L53 in H1. lia. }
      rewrite E1. by vm_compute.
    - assert (x_int : inject_Z n / 2 ^ e == inject_Z (n * 2 ^ (- e))).
      { rewrite pow2_div, inject_Z_mult, pow2_Z by lia. done. }
      rewrite (roundHalfEven_comp _ _ x_int), roundHalfEven_Z.
      rewrite inject_Z_mult, pow2_Z by lia.
      rewrite <- Qmult_assoc, pow2_cancel. ring. }
  intros Hz. unfold double.
  destruct (Qcompare_spec (inject_Z z) 0) as [H|H|H].
  - by rewrite H.
  - assert (z < 0)%Z as Hz0 by (by rewrite Zlt_Qlt).
    rewrite (nearest_comp _ (inject_Z (- z))).
    + rewrite Hpos by lia. rewrite inject_Z_opp. ring.
    + lra.
    + by rewrite inject_Z_opp.
  - assert (0 < z)%Z as Hz0 by (by rewrite Zlt_Qlt). apply Hpos. lia.
Qed.

(** A difference that is at most a double is at most that double after
    rounding, and one that is at least a double stays at least that. *)
Lemma js_sub_le x y g : double x - double y <= double g → js_sub x y <= double g.
Proof.
  intros H. unfold js_sub. rewrite <- (double_idem g). by apply double_mono.
Qed.

Lemma js_sub_ge x y g : double g <= double x - double y → double g <= js_sub x y.
Proof.
  intros H. unfold js_sub. rewrite <- (double_idem g). by apply double_mono.
Qed.

(** On integers up to [2 ^ 53] the subtraction is exact. *)
Lemma js_sub_Z a b :
  (Z.abs a ≤ 2 ^ 53)%Z → (Z.abs b ≤ 2 ^ 53)%Z → (Z.abs (a - b) ≤ 2 ^ 53)%Z →
  js_sub (inject_Z a) (inject_Z b) == inject_Z (a - b).
Proof.
  intros Ha Hb Hab. unfold js_sub.
  rewrite (double_comp (double (inject_Z a) - double (inject_Z b)) (inject_Z (a - b))).
  - by apply double_Z.
  - rewrite !double_Z by done. unfold Z.sub. rewrite inject_Z_plus, inject_Z_opp. ring.
Qed.

(** ** The rounding is that of binary64 *)

(** On the sample numbers, [double] is the correctly rounded quotient of
    the Standard Library's binary64, and [js_sub] its subtraction. *)
Lemma double_is_binary64_on_samples :
  Forall (λ x, valueOf (binary64 x) = Some (Qred (double x))) samples.
Proof. unfold samples. repeat (constructor; [by vm_compute|]). constructor. Qed.

Lemma js_sub_is_binary64_on_samples :
  Forall (λ x, Forall (λ y,
     valueOf (SpecFloat.SFsub 53 1024 (binary64 x) (binary64 y))
     = Some (Qred (js_sub x y))) samples) samples.
Proof.
  unfold samples.
  repeat (constructor; [repeat (constructor; [by vm_compute|]); constructor|]).
  constructor.
Qed.

End JsFacts.

(** ** Facts about the stage tracker *)

Module StageTrackerFacts.
Import Js JsFacts StageTracker.

#[local] Open Scope Q_scope.

Lemma totalProgress_unfold stages :
  totalProgress stages ==
    (st_progress (stages upload) * 10 + st_progress (stages processing) * 10
     + st_progress (stages transcription) * 60
     + st_progress (stages diarization) * 15
     + st_progress (stages finalization) * 5) * (1 # 100).
Proof.
  unfold totalProgress, stageNames, stageWeights, Qdiv. simpl.
  change (/ 100) with (1 # 100). lra.
Qed.

Lemma totalProgress_range stages :
  stagesInRange stages → 0 <= totalProgress stages ∧ totalProgress stages <= 100.
Proof.
  intros H. rewrite totalProgress_unfold.
  pose proof (H upload) as [? ?]. pose proof (H processing) as [? ?].
  pose proof (H transcription) as [? ?]. pose proof (H diarization) as [? ?].
  pose proof (H finalization) as [? ?]. split; lra.
Qed.

Lemma overallProgress_range stages :
  stagesInRange stages → (0 ≤ overallProgress stages ≤ 100)%Z.
Proof.
  intros H. destruct (totalProgress_range stages H).
  apply Math_round_range; unfold inject_Z; lra.
Qed.

Lemma setStage_same stages stage status p :
  setStage stages stage status p stage = mkStage status p.
Proof. apply fn_lookup_insert. Qed.

Lemma setStage_other stages stage status p s :
  s ≠ stage → setStage stages stage status p s = stages s.
Proof. intros. by apply fn_lookup_insert_ne. Qed.

Lemma setStage_inRange stages stage status p :
  stagesInRange stages → 0 <= p → p <= 100 →
  stagesInRange (setStage stages stage status p).
Proof.
  intros H ? ? s. destruct (decide (s = stage)) as [->|Hne].
  - by rewrite setStage_same.
  - rewrite setStage_other by done. apply H.
Qed.

(** Raising one stage's percentage never lowers the weighted sum. *)
Lemma totalProgress_setStage_mono stages stage status p :
  st_progress (stages stage) <= p →
  totalProgress stages <= totalProgress (setStage stages stage status p).
Proof.
  intros H. rewrite !totalProgress_unfold.
  destruct stage;
    repeat match goal with
    | |- context [setStage ?f ?a ?st ?q ?b] =>
        first [ rewrite (setStage_same f a st q)
              | rewrite (setStage_other f a st q b) by discriminate ]
    end; simpl; lra.
Qed.

End StageTrackerFacts.

(** ** Facts about the pipeline of one job *)

Module PipelineFacts.
Import Js JsFacts StageTracker StageTrackerFacts TranscriptionQueue QueueMore.

#[local] Open Scope Q_scope.

Lemma reported_app out1 out2 : reported (out1 ++ out2) = reported out1 ++ reported out2.
Proof. unfold reported. apply omap_app. Qed.

Lemma run_app s sigs1 sigs2 :
  run s (sigs1 ++ sigs2) =
    (s1 <~ run s sigs1 ;; run s1 sigs2).
Proof.
  revert s. induction sigs1 as [|sig sigs1 IH]; intros s; simpl.
  - unfold emit_bind, emit_ret. simpl. by destruct (run s sigs2).
  - unfold emit_bind in *. destruct (stepState s sig) as [s1 o1].
    rewrite IH. destruct (run s1 sigs1) as [s2 o2].
    destruct (run s2 sigs2) as [s3 o3]. by rewrite app_assoc.
Qed.

Lemma run_settled j log sigs : run (Settled j log) sigs = (Settled j log, []).
Proof. induction sigs as [|sig sigs IH]; simpl; [done|]. by rewrite IH. Qed.

Lemma updateJobProgress_inRange j stage st p :
  stagesInRange (stages j) → 0 <= p → p <= 100 →
  jobInRange (updateJobProgress j stage st p).1
  ∧ Forall inRange (reported (updateJobProgress j stage st p).2).
Proof.
  intros Hs H0 H1.
  pose proof (setStage_inRange _ stage st p Hs H0 H1) as Hs'.
  pose proof (overallProgress_range _ Hs') as Ho.
  split; [split|]; simpl.
  - exact Hs'.
  - exact Ho.
  - constructor; [exact Ho | constructor].
Qed.

Lemma initialStages_inRange : stagesInRange initialStages.
Proof. intros []; simpl; split; lra. Qed.

Ltac stages_range Hj :=
  repeat (apply setStage_inRange; [ | lra | lra ]); apply Hj.

Ltac range_solve Hj :=
  repeat match goal with
  | |- _ ∧ _ => split
  | |- jobInRange _ => split; simpl
  | |- Forall _ [] => constructor
  | |- Forall _ (_ :: _) => constructor
  | |- inRange (overallProgress _) => apply overallProgress_range
  | |- (0 ≤ overallProgress _ ≤ 100)%Z => apply overallProgress_range
  | |- stagesInRange _ => stages_range Hj
  | |- inRange (progress _) => apply Hj
  end.

Lemma step_inRange t sig :
  jobInRange (job t) → signalInRange sig →
  jobInRange (jobOf (step t sig).1) ∧ Forall inRange (reported (step t sig).2).
Proof.
  intros Hj Hsig. destruct t as [j a log]. simpl in Hj.
  destruct sig as [percent|p| |e|], a as [|prov| | |];
    unfold step, signalInRange, reportedPercent in *; simpl in *;
    unfold enterTranscription; simpl;
    try (destruct (primaryProvider _)); simpl;
    try (match goal with H : _ ∧ _ |- _ => destruct H end);
    range_solve Hj.
Qed.

Lemma run_inRange s sigs :
  jobInRange (jobOf s) → Forall signalInRange sigs →
  jobInRange (jobOf (run s sigs).1) ∧ Forall inRange (reported (run s sigs).2).
Proof.
  revert s. induction sigs as [|sig sigs IH]; intros s Hj Hs; simpl.
  - split; [done | constructor].
  - inversion Hs as [|? ? Hsig Hrest]; subst.
    assert (Hstep : jobInRange (jobOf (stepState s sig).1)
                    ∧ Forall inRange (reported (stepState s sig).2)).
    { destruct s as [t|j log]; simpl; [by apply step_inRange|].
      split; [done | constructor]. }
    destruct (stepState s sig) as [s1 o1]. destruct Hstep as [Hj1 Ho1].
    specialize (IH s1 Hj1 Hrest). unfold emit_bind.
    destruct (run s1 sigs) as [s2 o2]. destruct IH as [Hj2 Ho2].
    simpl in *. split; [done|]. rewrite reported_app. by apply Forall_app.
Qed.

Lemma sameControl_refl t : sameControl t t.
Proof. by constructor. Qed.

Lemma sameControl_trans t1 t2 t3 :
  sameControl t1 t2 → sameControl t2 t3 → sameControl t1 t3.
Proof.
  intros [] []. constructor; try congruence.
  intros H. rewrite same_final1; [by apply same_final0|]. by rewrite same_at0.
Qed.

Lemma step_passive t sig :
  passive sig → ∃ t' out, step t sig = (Running t', out) ∧ sameControl t t'.
Proof.
  intros Hp. destruct t as [j a log].
  destruct sig, a; try done; simpl;
    (eexists _, _; split; [reflexivity|]); constructor; simpl; try done;
    intros Hne; by rewrite ?setStage_other.
Qed.

Lemma run_passive t sigs :
  Forall passive sigs → ∃ t' out, run (Running t) sigs = (Running t', out) ∧ sameControl t t'.
Proof.
  revert t. induction sigs as [|sig sigs IH]; intros t Hs.
  - eexists _, _. split; [reflexivity|]. apply sameControl_refl.
  - inversion Hs as [|? ? Hsig Hrest]; subst.
    destruct (step_passive t sig Hsig) as (t1 & o1 & E1 & S1).
    destruct (IH t1 Hrest) as (t2 & o2 & E2 & S2).
    exists t2, (o1 ++ o2). split; [|by eapply sameControl_trans].
    simpl. unfold emit_bind. by rewrite E1, E2.
Qed.

Lemma run_cons s sig sigs :
  run s (sig :: sigs) = (s1 <~ stepState s sig ;; run s1 sigs).
Proof. done. Qed.

(** A job with a supported service, from its start to the provider call. *)
Lemma run_to_primary jobId d p pre mid :
  primaryProvider (selectService (newJob jobId d)) = Some p →
  Forall passive pre → Forall passive mid →
  ∃ t out,
    run (Running (startJob (newJob jobId d)).1) (pre ++ [Resolved] ++ mid) = (Running t, out)
    ∧ at_ t = AwaitPrimary p ∧ calls t = [p]
    ∧ id (job t) = jobId ∧ result (job t) = None
    ∧ st_status (stages (job t) finalization) = pending.
Proof.
  intros Hp Hpre Hmid.
  destruct (run_passive (startJob (newJob jobId d)).1 pre Hpre) as (t1 & o1 & E1 & S1).
  destruct S1 as [Hat Hcalls Hid Hdata Hres Herr Hfin]. simpl in *.
  assert (Hsel : primaryProvider (selectService (updateJobProgress
            (updateJobProgress (job t1) processing completed 100).1
            transcription in_progress 0).1) = Some p).
  { unfold selectService in *. simpl in *. by rewrite Hdata. }
  set (t2 := mkTask (updateJobProgress
            (updateJobProgress (job t1) processing completed 100).1
            transcription in_progress 0).1 (AwaitPrimary p) (calls t1 ++ [p])).
  destruct (run_passive t2 mid Hmid) as (t3 & o3 & E3 & S3).
  destruct S3 as [Hat3 Hcalls3 Hid3 Hdata3 Hres3 Herr3 Hfin3]. simpl in *.
  exists t3. eexists. split.
  - rewrite run_app, E1. unfold emit_bind at 1.
    rewrite run_cons. simpl stepState. unfold step. rewrite Hat.
    unfold enterTranscription. simpl in Hsel. simpl. rewrite Hsel. simpl.
    fold t2. rewrite E3. reflexivity.
  - rewrite Hat3, Hcalls3, Hid3, Hres3, Hcalls, Hfin3 by done. simpl.
    rewrite !setStage_other by done. rewrite Hfin by done. rewrite Hid, Hres. done.
Qed.

(** C3.  A job whose primary provider call rejects is retried exactly once,
    against Whisper: the call log is [[p; whisper]] from the rejection on.
    When that call rejects too the task settles with the same log (no third
    provider), [job.status = 'failed'] and [job.error] the message of the
    second rejection.  Progress reports and cancellation marks may arrive
    at any point in between ([pre], [mid1], [mid2]). *)
Theorem fallback_once_then_failed_C3 (jobId : string) (d : JobData)
    (p : Provider) (e1 e2 : string) (pre mid1 mid2 : list Signal) :
  primaryProvider (selectService (newJob jobId d)) = Some p →
  Forall passive pre → Forall passive mid1 → Forall passive mid2 →
  let start := Running (startJob (newJob jobId d)).1 in
  let upToRetry := pre ++ [Resolved] ++ mid1 ++ [Rejected e1] in
  (∃ t out, run start upToRetry = (Running t, out)
            ∧ at_ t = AwaitFallback ∧ calls t = [p; whisper])
  ∧ ∃ j out, run start (upToRetry ++ mid2 ++ [Rejected e2])
               = (Settled j [p; whisper], out)
             ∧ status j = failed ∧ error j = Some e2.
Proof.
  intros Hp Hpre Hmid1 Hmid2 start upToRetry.
  destruct (run_to_primary jobId d p pre mid1 Hp Hpre Hmid1)
    as (t1 & o1 & E1 & Hat1 & Hcalls1 & Hid1 & _).
  set (t2 := mkTask (job t1) AwaitFallback (calls t1 ++ [whisper])).
  assert (E2 : run start upToRetry = (Running t2, o1 ++ [])).
  { unfold upToRetry, start.
    replace (pre ++ [Resolved] ++ mid1 ++ [Rejected e1])
      with ((pre ++ [Resolved] ++ mid1) ++ [Rejected e1])
      by (by rewrite <- !app_assoc).
    rewrite run_app, E1. unfold emit_bind at 1. simpl. unfold step.
    rewrite Hat1. reflexivity. }
  split.
  { exists t2, (o1 ++ []). split; [done|]. simpl. by rewrite Hcalls1. }
  destruct (run_passive t2 mid2 Hmid2) as (t3 & o3 & E3 & S3).
  destruct S3 as [Hat3 Hcalls3 Hid3 Hdata3 Hres3 Herr3 Hfin3]. simpl in *.
  eexists _, _. split; [|split].
  - rewrite run_app, E2. unfold emit_bind at 1.
    rewrite run_app, E3. unfold emit_bind at 1. simpl. unfold step.
    rewrite Hat3. unfold failJob, handleJobError. simpl.
    rewrite Hcalls3, Hcalls1. reflexivity.
  - done.
  - done.
Qed.

Lemma fallback_once_then_failed_C3_witness :
  ∃ j out,
    run (Running (startJob (newJob "job-1" (mkJobData "a.wav" (Some "google") None))).1)
        (([FfmpegProgress (Some 50)] ++ [Resolved] ++ [Callback 5; Callback 15; Callback 25]
          ++ [Rejected "Google Speech transcription failed: quota"])
         ++ [Callback 5; MarkCancelled] ++ [Rejected "Whisper transcription failed: 401"])
      = (Settled j [google; whisper], out)
    ∧ status j = failed ∧ error j = Some "Whisper transcription failed: 401".
Proof.
  apply (fallback_once_then_failed_C3 "job-1" (mkJobData "a.wav" (Some "google") None)
           google "Google Speech transcription failed: quota"
           "Whisper transcription failed: 401"
           [FfmpegProgress (Some 50)] [Callback 5; Callback 15; Callback 25]
           [Callback 5; MarkCancelled]).
  - reflexivity.
  - repeat constructor.
  - repeat constructor.
  - repeat constructor.
Defined.

Lemma getCurrentStage_tidy t :
  tidy t → getCurrentStage (stages (job t)) = Some (reportingStage (at_ t)).
Proof.
  intros (_ & _ & H). unfold getCurrentStage, stageNames.
  pose proof (H upload) as (U1 & U2 & U3).
  pose proof (H processing) as (P1 & P2 & P3).
  pose proof (H transcription) as (T1 & T2 & T3).
  pose proof (H diarization) as (D1 & D2 & D3).
  pose proof (H finalization) as (F1 & F2 & F3).
  destruct (at_ t); simpl in *;
    repeat match goal with
    | Hx : (?a < ?b)%nat → _ |- _ =>
        first [ specialize (Hx ltac:(lia)) | clear Hx ]
    | Hx : ?a = ?a → _ |- _ => specialize (Hx eq_refl)
    | Hx : ?a = ?b → _ |- _ => clear Hx
    end;
    rewrite ?filter_cons;
    repeat match goal with
    | Hx : stages _ _ = _ |- _ => rewrite !Hx in *; clear Hx
    end;
    repeat case_decide; simpl in *; try done; congruence.
Qed.

Lemma overallProgress_all_done stages :
  (∀ s, stages s = mkStage completed 100) → overallProgress stages = 100%Z.
Proof.
  intros H. unfold overallProgress, totalProgress, stageNames. simpl.
  rewrite !H. by vm_compute.
Qed.

Ltac tidy_facts H :=
  pose proof (H upload) as (?U1 & ?U2 & ?U3);
  pose proof (H processing) as (?P1 & ?P2 & ?P3);
  pose proof (H transcription) as (?T1 & ?T2 & ?T3);
  pose proof (H diarization) as (?D1 & ?D2 & ?D3);
  pose proof (H finalization) as (?F1 & ?F2 & ?F3);
  clear H.

Ltac tidy_simplify :=
  repeat match goal with
  | Hx : (?a < ?b)%nat → _ |- _ =>
      first [ specialize (Hx ltac:(simpl; lia)) | clear Hx ]
  | Hx : ?a = ?a → _ |- _ => specialize (Hx eq_refl)
  | Hx : ?a = ?b → _ |- _ => clear Hx
  end.

Ltac tidy_goal :=
  let s := fresh "s" in
  intros s; destruct s; simpl;
  repeat split; intros;
  repeat first [ rewrite setStage_same | rewrite setStage_other by discriminate ];
  simpl; try done; try lia; try congruence.

Lemma step_tidy t sig :
  tidy t →
  match (step t sig).1 with
  | Running t' => tidy t' ∧ id (job t') = id (job t) ∧ quiet (step t sig).2
  | Settled j _ => settledWell (id (job t)) j (step t sig).2
  end.
Proof.
  intros Ht. pose proof (getCurrentStage_tidy t Ht) as Hcur.
  destruct Ht as (He & Hr & H).
  pose proof (proj1 (proj2 (H (reportingStage (at_ t)))) eq_refl) as Hin.
  destruct t as [j a log]. simpl in He, Hr, H, Hcur, Hin.
  tidy_facts H.
  destruct sig as [percent|p| |e|], a as [|prov| | |]; simpl in *; tidy_simplify;
    unfold enterTranscription; simpl;
    try (destruct (primaryProvider _); simpl);
    try (split; [split; [done|split; [done|tidy_goal]] | split; [done|done]]).
  all: try (right; split; [done|]; split; [done|];
            eexists _, _; split; [reflexivity|]; simpl; rewrite Hcur;
            split; [exact Hin|done]).
  left. simpl.
  assert (Hall : ∀ s, setStage (stages j) finalization completed 100 s
                      = mkStage completed 100).
  { intros s. destruct s;
      repeat first [ rewrite setStage_same | rewrite setStage_other by discriminate ];
      done. }
  split; [done|]. split; [by apply overallProgress_all_done|].
  split; [done|]. done.
Qed.

Lemma quiet_app out1 out2 : quiet out1 → quiet out2 → quiet (out1 ++ out2).
Proof. unfold quiet. intros H1 H2. by rewrite list.filter_app, H1, H2. Qed.

Lemma settledWell_after jobId j out1 out2 :
  quiet out1 → settledWell jobId j out2 → settledWell jobId j (out1 ++ out2).
Proof.
  unfold quiet, settledWell. intros Hq Hs. rewrite !list.filter_app, !Hq. exact Hs.
Qed.

Lemma run_tidy t sigs :
  tidy t →
  match (run (Running t) sigs).1 with
  | Running t' =>
      tidy t' ∧ id (job t') = id (job t) ∧ quiet (run (Running t) sigs).2
  | Settled j _ => settledWell (id (job t)) j (run (Running t) sigs).2
  end.
Proof.
  revert t. induction sigs as [|sig sigs IH]; intros t Ht.
  - simpl. done.
  - rewrite run_cons. simpl stepState.
    pose proof (step_tidy t sig Ht) as Hstep.
    destruct (step t sig) as [[t1|j1 log1] o1]; simpl in Hstep.
    + destruct Hstep as (Ht1 & Hid1 & Hq1).
      specialize (IH t1 Ht1). unfold emit_bind.
      destruct (run (Running t1) sigs) as [[t2|j2 log2] o2]; simpl in *.
      * destruct IH as (Ht2 & Hid2 & Hq2).
        split; [done|]. split; [congruence|]. by apply quiet_app.
      * rewrite <- Hid1. by apply settledWell_after.
    + unfold emit_bind. rewrite run_settled. simpl. by rewrite app_nil_r.
Qed.

Lemma startJob_tidy jobId d : tidy (startJob (newJob jobId d)).1.
Proof.
  split; [done|]. split; [done|]. intros s. destruct s; simpl;
    repeat split; intros; try done; try lia.
Qed.

(** C2, as the code has it.  Whenever the diarization stage rejects, by
    whatever way the job has come to it (the provider it asked for, the
    Whisper fallback after a failed or an unsupported one, progress reports
    and a cancel mark on the way), the error reaches the [catch] of
    [processQueue]: the job settles with [status = 'failed'] and the message
    [process] wrapped, [job-failed] names the diarization stage, the
    finalization stage is still pending and no result is stored. *)
Theorem diarization_failure_fails_job_C2 (jobId : string) (d : JobData)
    (e : string) (sigs : list Signal) (t : Task) (out : list Notification) :
  run (Running (startJob (newJob jobId d)).1) sigs = (Running t, out) →
  at_ t = AwaitDiarization →
  ∃ j,
    run (Running (startJob (newJob jobId d)).1) (sigs ++ [Rejected e])
      = (Settled j (calls t),
         out ++ [job_failed jobId ("Speaker diarization failed: " +:+ e)
                   (Some diarization)])
    ∧ status j = failed
    ∧ error j = Some ("Speaker diarization failed: " +:+ e)
    ∧ stages j finalization = mkStage pending 0
    ∧ result j = None.
Proof.
  intros Hrun Hat.
  pose proof (run_tidy _ sigs (startJob_tidy jobId d)) as Ht.
  rewrite Hrun in Ht. destruct Ht as (Ht & Hid & _).
  pose proof (getCurrentStage_tidy t Ht) as Hcur. rewrite Hat in Hcur.
  destruct Ht as (_ & Hres & Hstages).
  destruct (Hstages finalization) as (_ & _ & Hfin). rewrite Hat in Hfin.
  specialize (Hfin ltac:(simpl; lia)).
  eexists. split; [|split; [|split; [|split]]].
  - rewrite run_app, Hrun. unfold emit_bind at 1. simpl. unfold step.
    rewrite Hat. unfold failJob, handleJobError. simpl.
    rewrite Hcur. simpl in Hid. rewrite Hid. reflexivity.
  - done.
  - done.
  - done.
  - done.
Qed.

Lemma overallProgress_setStage_mono stages stage st p :
  st_progress (stages stage) <= p →
  (overallProgress stages ≤ overallProgress (setStage stages stage st p))%Z.
Proof. intros H. apply Math_round_mono. by apply totalProgress_setStage_mono. Qed.

Lemma lastFrom_cons a x l : lastFrom a (x :: l) = lastFrom x l.
Proof.
  unfold lastFrom. destruct l as [|y l]; [done|].
  change (list.last (x :: y :: l)) with (list.last (y :: l)).
  destruct (list.last (y :: l)) eqn:E; [done|].
  by apply last_None in E.
Qed.

Lemma ascendingFrom_app a l1 l2 :
  ascendingFrom a l1 → ascendingFrom (lastFrom a l1) l2 → ascendingFrom a (l1 ++ l2).
Proof.
  revert a. induction l1 as [|x l1 IH]; intros a; simpl; [done|].
  intros [Hax H1] H2. split; [done|]. apply IH; [done|].
  by rewrite <- (lastFrom_cons a).
Qed.

Lemma lastFrom_app a l1 l2 : lastFrom a (l1 ++ l2) = lastFrom (lastFrom a l1) l2.
Proof.
  unfold lastFrom. destruct l2 as [|y l2 _] using rev_ind.
  - by rewrite app_nil_r.
  - by rewrite app_assoc, !last_snoc.
Qed.

Lemma step_ascending t sig :
  orderly t → notLowering t sig →
  ascendingFrom (progress (job t)) (reported (step t sig).2)
  ∧ progress (jobOf (step t sig).1)
    = lastFrom (progress (job t)) (reported (step t sig).2)
  ∧ match (step t sig).1 with Running t' => orderly t' | Settled _ _ => True end.
Proof.
  intros (Hcur & Hlater & Hprog) Hsig. destruct t as [j a log].
  simpl in Hcur, Hlater, Hprog.
  destruct sig as [percent|p| |e|], a as [|prov| | |];
    unfold notLowering, reportedPercent, orderly, lastFrom in *; simpl in *;
    unfold enterTranscription; simpl;
    try (destruct (primaryProvider _)); simpl;
    try (match goal with H : _ ∧ _ |- _ => destruct H end);
    rewrite ?Hprog;
    repeat match goal with
    | |- _ ∧ _ => split
    | |- True => exact I
    | |- _ = _ => done
    | |- (overallProgress _ ≤ overallProgress (setStage _ _ _ _))%Z =>
        apply overallProgress_setStage_mono
    | |- ∀ s, _ → _ => let s := fresh "s" in let H := fresh "H" in
                       intros s H; destruct s; try done
    | |- _ <= _ => rewrite ?setStage_same, ?setStage_other by done; simpl
    end;
    try lra; try (by apply Hlater).
  all: try (rewrite ?setStage_same, ?setStage_other by done; simpl; first [lra | by apply Hlater]).
Qed.

Lemma run_ascending s sigs :
  orderlyState s → steady s sigs →
  ascendingFrom (progress (jobOf s)) (reported (run s sigs).2)
  ∧ progress (jobOf (run s sigs).1)
    = lastFrom (progress (jobOf s)) (reported (run s sigs).2).
Proof.
  revert s. induction sigs as [|sig sigs IH]; intros s Ho Hs.
  - simpl. done.
  - destruct Hs as [Hsig Hrest].
    assert (Hstep : ascendingFrom (progress (jobOf s)) (reported (stepState s sig).2)
              ∧ progress (jobOf (stepState s sig).1)
                = lastFrom (progress (jobOf s)) (reported (stepState s sig).2)
              ∧ orderlyState (stepState s sig).1).
    { destruct s as [t|j log]; [by apply step_ascending|done]. }
    rewrite run_cons. destruct (stepState s sig) as [s1 o1].
    destruct Hstep as (Ha1 & Hl1 & Ho1). simpl in Ha1, Hl1, Ho1, Hrest.
    destruct (IH s1 Ho1 Hrest) as [Ha2 Hl2].
    unfold emit_bind. destruct (run s1 sigs) as [s2 o2]. simpl in *.
    rewrite reported_app, lastFrom_app, <- Hl1. split; [|done].
    apply ascendingFrom_app; [done|]. by rewrite <- Hl1.
Qed.

Lemma startJob_orderly jobId d : orderly (startJob (newJob jobId d)).1.
Proof.
  split; [|split]; simpl.
  - by vm_compute.
  - intros s Hs. destruct s; try done; by vm_compute.
  - done.
Qed.

Lemma diarization_failure_fails_job_C2_witness :
  ∃ j,
    run (Running (startJob (newJob "job-1" job1)).1)
        ([FfmpegProgress (Some 100); Resolved; Callback 25;
          Rejected "Google Speech transcription failed: quota";
          Callback 30; Resolved; Callback 5; Callback 20]
         ++ [Rejected "k is not a number"])
      = (Settled j [google; whisper],
         (run (Running (startJob (newJob "job-1" job1)).1)
            [FfmpegProgress (Some 100); Resolved; Callback 25;
             Rejected "Google Speech transcription failed: quota";
             Callback 30; Resolved; Callback 5; Callback 20]).2
         ++ [job_failed "job-1" ("Speaker diarization failed: " +:+ "k is not a number")
               (Some diarization)])
    ∧ status j = failed
    ∧ error j = Some ("Speaker diarization failed: " +:+ "k is not a number")
    ∧ stages j finalization = mkStage pending 0
    ∧ result j = None.
Proof.
  apply (diarization_failure_fails_job_C2 "job-1" job1 "k is not a number"
           [FfmpegProgress (Some 100); Resolved; Callback 25;
            Rejected "Google Speech transcription failed: quota";
            Callback 30; Resolved; Callback 5; Callback 20]
           (mkTask
              (jobOf (run (Running (startJob (newJob "job-1" job1)).1)
                 [FfmpegProgress (Some 100); Resolved; Callback 25;
                  Rejected "Google Speech transcription failed: quota";
                  Callback 30; Resolved; Callback 5; Callback 20]).1)
              AwaitDiarization [google; whisper])).
  - by vm_compute.
  - reflexivity.
Defined.

(** The same for a job that names a service the [switch] does not know:
    the [default] branch throws, Whisper transcribes, the diarization
    rejects, the job fails. *)
Lemma unsupported_service_then_diarization_failure :
  let finish :=
    (run (Running (startJob (newJob "job-2"
                     (mkJobData "uploads/b.wav" (Some "deepgram") None))).1)
         [Resolved; Callback 30; Resolved; Callback 5; Rejected "k is not a number"]).1 in
  finish = Settled (jobOf finish) [whisper]
  ∧ status (jobOf finish) = failed
  ∧ error (jobOf finish) = Some "Speaker diarization failed: k is not a number"
  ∧ result (jobOf finish) = None.
Proof. by vm_compute. Qed.

(** C2 fails whenever the diarization throws: here the audio and the
    transcription stages succeed, [process] rejects, and the job is left
    ['failed'], with finalization never started. *)
Lemma diarization_failure_C2_counterexample :
  let finish :=
    (run (Running (startJob (newJob "job-1" job1)).1)
         [Resolved; Resolved; Callback 5; Rejected "k is not a number"]).1 in
  finish = Settled (jobOf finish) [google]
  ∧ status (jobOf finish) = failed
  ∧ error (jobOf finish) = Some "Speaker diarization failed: k is not a number"
  ∧ st_status (stages (jobOf finish) finalization) = pending.
Proof. by vm_compute. Qed.

(** C4, as the code has it.  [updateJobProgress] stores whatever percentage
    it is handed and recomputes [job.progress] from the stored values.  Over
    a run in which no report takes progress back (each stored percentage is
    at most 100 and at least the one stored for its stage so far), the
    overall percentages reported never go down, from the job's initial
    [progress = 0] on. *)
Theorem progress_monotone_when_steady_C4 (jobId : string) (d : JobData)
    (sigs : list Signal) :
  let start := startJob (newJob jobId d) in
  steady (Running start.1) sigs →
  ascendingFrom (progress (newJob jobId d))
    (reported (start.2 ++ (run (Running start.1) sigs).2)).
Proof.
  intros start Hs.
  destruct (run_ascending (Running start.1) sigs (startJob_orderly jobId d) Hs)
    as [Ha _].
  rewrite reported_app. apply ascendingFrom_app.
  - simpl. split; [|done]. by vm_compute.
  - exact Ha.
Qed.

Lemma progress_monotone_when_steady_C4_witness :
  ascendingFrom 0
    (reported ((startJob (newJob "job-1" job1)).2
       ++ (run (Running (startJob (newJob "job-1" job1)).1)
             [FfmpegProgress (Some 40); Resolved; Callback 5; Callback 15;
              Callback 25; Callback 80; Callback 100; Resolved; Callback 5;
              Callback 100; Resolved; Resolved]).2)).
Proof.
  apply (progress_monotone_when_steady_C4 "job-1" job1).
  vm_compute. repeat split; discriminate.
Defined.

(** C4 fails on the fallback path: Google reports 5, 15, 25 and rejects, the
    Whisper retry starts reporting at 5 again, and the overall percentage
    drops from 35 to 23. *)
Lemma progress_drops_on_fallback_C4_counterexample :
  reported ((startJob (newJob "job-1" job1)).2
     ++ (run (Running (startJob (newJob "job-1" job1)).1)
           ([Resolved] ++ (Callback <$> googleReportsBeforeCall)
            ++ [Rejected "Google Speech transcription failed: quota"]
            ++ (Callback <$> whisperReportsBeforeCall))).2)
  = [10; 20; 20; 23; 29; 35; 23; 26; 32; 38]%Z
  ∧ (23 < 35)%Z.
Proof. split; [by vm_compute | lia]. Qed.

(** C5, as the code has it.  The five stage weights sum to 100, and over
    every run in which each percentage the collaborators report lies in
    [0, 100], the overall progress lies in [0, 100]: for the queued job, in
    every progress notification, and on the job object at the end. *)
Theorem progress_within_bounds_C5 :
  foldr Qplus 0 (stageWeights <$> stageNames) = 100
  ∧ ∀ (jobId : string) (d : JobData) (sigs : list Signal),
      Forall signalInRange sigs →
      let start := startJob (newJob jobId d) in
      let finish := run (Running start.1) sigs in
      inRange (progress (newJob jobId d))
      ∧ Forall inRange (reported (start.2 ++ finish.2))
      ∧ inRange (progress (jobOf finish.1)).
Proof.
  split; [reflexivity|]. intros jobId d sigs Hs start finish.
  assert (Hstart : jobInRange (job start.1) ∧ Forall inRange (reported start.2)).
  { apply updateJobProgress_inRange; [apply initialStages_inRange | lra | lra]. }
  destruct Hstart as [Hj0 Ho0].
  destruct (run_inRange (Running start.1) sigs Hj0 Hs) as [Hj1 Ho1].
  split; [|split].
  - by vm_compute.
  - rewrite reported_app. by apply Forall_app.
  - apply Hj1.
Qed.

Lemma progress_within_bounds_C5_witness :
  Forall inRange
    (reported ((startJob (newJob "job-1" job1)).2
       ++ (run (Running (startJob (newJob "job-1" job1)).1)
             [FfmpegProgress (Some 40); Resolved; Callback 5; Callback 100;
              Resolved; Callback 90; Resolved; Resolved]).2)).
Proof.
  apply (proj2 progress_within_bounds_C5 "job-1" job1
           [FfmpegProgress (Some 40); Resolved; Callback 5; Callback 100;
            Resolved; Callback 90; Resolved; Resolved]).
  repeat constructor; by vm_compute.
Defined.

(** C5 fails when ffmpeg reports a percentage far above 100, which the
    handler rounds and stores unclamped: [percent = 1000] gives an overall
    progress of 110. *)
Lemma progress_above_100_C5_counterexample :
  reported (run (Running (startJob (newJob "job-1" job1)).1)
              [FfmpegProgress (Some 1000)]).2 = [110%Z]
  ∧ (100 < 110)%Z.
Proof. split; [by vm_compute | lia]. Qed.

End PipelineFacts.

(** ** Facts about the scheduler *)

Module SchedulerFacts.
Import Js JsFacts StageTracker StageTrackerFacts TranscriptionQueue PipelineFacts.

Lemma step_id t sig : id (jobOf (step t sig).1) = id (job t).
Proof.
  destruct t as [j a log], sig, a; simpl; try done;
    unfold enterTranscription; simpl; by destruct (primaryProvider _).
Qed.

Lemma startJob_id j : id (job (startJob j).1) = id j.
Proof. done. Qed.

Lemma invariant_construct env : invariant env (construct env).
Proof.
  constructor; simpl; try done.
  all: try (intros i Hi; by apply elem_of_nil in Hi).
  - rewrite map_size_empty. lia.
  - constructor.
  - intros i [t Ht]. by rewrite lookup_empty in Ht.
Qed.

Lemma invariant_addJob env s jobId d :
  invariant env s → jobId ∉ issued s → invariant env (addJob s jobId d).1.1.
Proof.
  intros [] Hfresh. constructor; simpl; try done.
  - unfold queueIds. simpl. rewrite fmap_app. simpl.
    apply list.NoDup_app. split; [done|]. split; [|apply NoDup_singleton].
    intros i Hi Hi'. apply list_elem_of_singleton in Hi'. subst.
    by apply Hfresh, inv_queue_issued0.
  - unfold queueIds. simpl. intros i. rewrite fmap_app, elem_of_app. simpl.
    rewrite list_elem_of_singleton. intros [Hi | ->]; [|set_solver].
    apply elem_of_union_r. by apply inv_queue_issued0.
  - intros i Hi. apply elem_of_union_r. by apply inv_processing_issued0.
  - unfold queueIds. simpl. intros i. rewrite fmap_app, elem_of_app. simpl.
    rewrite list_elem_of_singleton. intros [Hi | ->]; [by apply inv_disjoint0|].
    destruct (sch_processing s !! jobId) eqn:E; [|done].
    exfalso. apply Hfresh, inv_processing_issued0. by rewrite E.
Qed.

Lemma invariant_processQueue env s :
  invariant env s → invariant env (processQueue s).1.
Proof.
  intros Hinv. unfold processQueue.
  destruct (mayAdmit s) eqn:Hadm; [|done].
  destruct (sch_queue s) as [|j rest] eqn:Hq; [done|].
  destruct Hinv. unfold queueIds in *. rewrite Hq in *. simpl in *.
  apply list.NoDup_cons in inv_nodup0 as [Hj Hrest].
  unfold mayAdmit in Hadm. rewrite Hq in Hadm.
  apply negb_true_iff, orb_false_iff in Hadm as [Hsize _].
  apply bool_decide_eq_false in Hsize.
  assert (Hnone : sch_processing s !! id j = None).
  { apply inv_disjoint0. left. }
  constructor; simpl; try done.
  - rewrite map_size_insert_None by done. lia.
  - intros i Hi. apply inv_queue_issued0. by right.
  - intros i [t Ht]. destruct (decide (id j = i)) as [<-|Hne].
    + apply inv_queue_issued0. left.
    + rewrite lookup_insert_ne in Ht by done. by apply inv_processing_issued0.
  - intros i Hi. rewrite lookup_insert_ne; [apply inv_disjoint0; by right|].
    intros <-. done.
  - intros i t. destruct (decide (id j = i)) as [<-|Hne].
    + rewrite lookup_insert_eq. by intros [= <-].
    + rewrite lookup_insert_ne by done. apply inv_keys0.
Qed.

Lemma invariant_cancelJob env s jobId :
  invariant env s → invariant env (cancelJob s jobId).1.
Proof.
  intros Hinv. unfold cancelJob.
  destruct (list_find _ (sch_queue s)) as [[i j]|] eqn:Hfind.
  - destruct Hinv. unfold queueIds in *.
    constructor; unfold queueIds; simpl; try done; rewrite ?list_fmap_delete.
    + eapply sublist_NoDup; [done|apply sublist_delete].
    + intros k Hk. apply inv_queue_issued0.
      eapply elem_of_sublist; [done|apply sublist_delete].
    + intros k Hk. apply inv_disjoint0.
      eapply elem_of_sublist; [done|apply sublist_delete].
  - destruct (sch_processing s !! jobId) as [t|] eqn:Hrun; [|done].
    destruct Hinv. constructor; simpl; try done.
    + by erewrite map_size_insert_Some.
    + intros k [t' Ht']. destruct (decide (jobId = k)) as [<-|Hne].
      * apply inv_processing_issued0. by rewrite Hrun.
      * rewrite lookup_insert_ne in Ht' by done. by apply inv_processing_issued0.
    + intros k Hk. destruct (decide (jobId = k)) as [<-|Hne].
      * by rewrite inv_disjoint0 in Hrun.
      * rewrite lookup_insert_ne by done. by apply inv_disjoint0.
    + intros k t'. destruct (decide (jobId = k)) as [<-|Hne].
      * rewrite lookup_insert_eq. intros [= <-]. simpl. by apply inv_keys0.
      * rewrite lookup_insert_ne by done. apply inv_keys0.
Qed.

Lemma invariant_deliver env s jobId sig :
  invariant env s → invariant env (deliver s jobId sig).1.
Proof.
  intros Hinv. unfold deliver.
  destruct (sch_processing s !! jobId) as [t|] eqn:Hrun; [|done].
  pose proof (step_id t sig) as Hid.
  destruct (step t sig) as [[t'|j log] out]; simpl in *;
    destruct Hinv; pose proof (inv_keys0 _ _ Hrun) as Hkey;
    constructor; simpl; try done.
  - by erewrite map_size_insert_Some.
  - intros k [t'' Ht'']. destruct (decide (jobId = k)) as [<-|Hne].
    + apply inv_processing_issued0. by rewrite Hrun.
    + rewrite lookup_insert_ne in Ht'' by done. by apply inv_processing_issued0.
  - intros k Hk. destruct (decide (jobId = k)) as [<-|Hne].
    + by rewrite inv_disjoint0 in Hrun.
    + rewrite lookup_insert_ne by done. by apply inv_disjoint0.
  - intros k t''. destruct (decide (jobId = k)) as [<-|Hne].
    + rewrite lookup_insert_eq. intros [= <-]. congruence.
    + rewrite lookup_insert_ne by done. apply inv_keys0.
  - pose proof (map_size_delete (id j) (sch_processing s)) as Hsz.
    rewrite Hid, Hkey, Hrun in Hsz. rewrite Hid, Hkey. lia.
  - intros k [t'' Ht'']. apply lookup_delete_Some in Ht'' as [_ Ht''].
    apply inv_processing_issued0. by rewrite Ht''.
  - intros k Hk. apply lookup_delete_None. right. by apply inv_disjoint0.
  - intros k t'' Ht''. apply lookup_delete_Some in Ht'' as [_ Ht''].
    by apply inv_keys0.
Qed.

Lemma reachable_invariant env s : reachable env s → invariant env s.
Proof.
  induction 1 as [|s ev Hr IH Hadm].
  - apply invariant_construct.
  - destruct ev as [jobId d| |jobId|jobId sig]; simpl.
    + by apply (invariant_addJob env s jobId d).
    + by apply invariant_processQueue.
    + by apply invariant_cancelJob.
    + by apply invariant_deliver.
Qed.

Lemma processQueue_cases s :
  ((maxConcurrent s ≤ Z.of_nat (size (sch_processing s)))%Z ∨ sch_queue s = [])
    ∧ processQueue s = (s, [])
  ∨ (Z.of_nat (size (sch_processing s)) < maxConcurrent s)%Z
    ∧ ∃ j rest, sch_queue s = j :: rest
        ∧ sch_queue (processQueue s).1 = rest
        ∧ sch_processing (processQueue s).1
          = <[id j := (startJob j).1]> (sch_processing s).
Proof.
  unfold processQueue, mayAdmit.
  destruct (bool_decide _) eqn:Hsize; simpl.
  { left. apply bool_decide_eq_true in Hsize. split; [by left|done]. }
  apply bool_decide_eq_false in Hsize.
  destruct (sch_queue s) as [|j rest] eqn:Hq; simpl.
  { left. split; [by right|done]. }
  right. split; [lia|]. by exists j, rest.
Qed.

(** C6.  In every state a scheduler can reach, at most [maxConcurrent] jobs
    are in [processing] (none when the configured bound is negative) and no
    id of the queue is a key of [processing].  A tick either leaves the scheduler as it is
    (the bound is reached or the queue is empty) or, with [processing] below
    the bound, moves the head of the queue into [processing]; [addJob]
    appends at the tail, so jobs are admitted first in, first out.
    Ids are those of [uuidv4], never issued twice. *)
Theorem scheduler_bound_and_fifo_C6 (env : option Z) (s : Scheduler) :
  reachable env s →
  (size (sch_processing s) ≤ Z.to_nat (maxConcurrent s))%nat
  ∧ ((0 ≤ maxConcurrent s)%Z →
     (Z.of_nat (size (sch_processing s)) ≤ maxConcurrent s)%Z)
  ∧ (∀ jobId, jobId ∈ queueIds s → sch_processing s !! jobId = None)
  ∧ (((maxConcurrent s ≤ Z.of_nat (size (sch_processing s)))%Z ∨ sch_queue s = [])
       ∧ processQueue s = (s, [])
     ∨ (Z.of_nat (size (sch_processing s)) < maxConcurrent s)%Z
       ∧ ∃ j rest, sch_queue s = j :: rest
           ∧ sch_queue (processQueue s).1 = rest
           ∧ sch_processing (processQueue s).1
             = <[id j := (startJob j).1]> (sch_processing s))
  ∧ (∀ jobId d, sch_queue (addJob s jobId d).1.1 = sch_queue s ++ [newJob jobId d]).
Proof.
  intros Hr. destruct (reachable_invariant env s Hr).
  split; [done|]. split; [lia|]. split; [done|].
  split; [apply processQueue_cases|done].
Qed.

Lemma scheduler_bound_and_fifo_C6_witness :
  (size (sch_processing twoJobsOneSlot) ≤ Z.to_nat (maxConcurrent twoJobsOneSlot))%nat
  ∧ ((0 ≤ maxConcurrent twoJobsOneSlot)%Z →
     (Z.of_nat (size (sch_processing twoJobsOneSlot))
        ≤ maxConcurrent twoJobsOneSlot)%Z)
  ∧ (∀ jobId, jobId ∈ queueIds twoJobsOneSlot
              → sch_processing twoJobsOneSlot !! jobId = None)
  ∧ (((maxConcurrent twoJobsOneSlot
         ≤ Z.of_nat (size (sch_processing twoJobsOneSlot)))%Z
        ∨ sch_queue twoJobsOneSlot = [])
       ∧ processQueue twoJobsOneSlot = (twoJobsOneSlot, [])
     ∨ (Z.of_nat (size (sch_processing twoJobsOneSlot))
          < maxConcurrent twoJobsOneSlot)%Z
       ∧ ∃ j rest, sch_queue twoJobsOneSlot = j :: rest
           ∧ sch_queue (processQueue twoJobsOneSlot).1 = rest
           ∧ sch_processing (processQueue twoJobsOneSlot).1
             = <[id j := (startJob j).1]> (sch_processing twoJobsOneSlot))
  ∧ (∀ jobId d, sch_queue (addJob twoJobsOneSlot jobId d).1.1
                = sch_queue twoJobsOneSlot ++ [newJob jobId d]).
Proof.
  apply (scheduler_bound_and_fifo_C6 (Some 1%Z) twoJobsOneSlot).
  unfold twoJobsOneSlot.
  apply reachable_handle; [|exact I].
  apply reachable_handle; [|by vm_compute].
  apply reachable_handle; [|by vm_compute].
  apply reachable_construct.
Defined.

(** The parts of [cancelJob] that hold: a queued job leaves the queue and
    the call returns [true]; a job in neither container (a settled one,
    say) gets [false] and nothing changes. *)
Lemma cancelJob_queued s jobId :
  NoDup (queueIds s) → jobId ∈ queueIds s →
  (cancelJob s jobId).2 = true
  ∧ (jobId ∉ queueIds (cancelJob s jobId).1)
  ∧ sch_processing (cancelJob s jobId).1 = sch_processing s.
Proof.
  intros Hnd Hin. unfold cancelJob.
  destruct (list_find _ (sch_queue s)) as [[i j]|] eqn:Hfind.
  - apply list_find_Some in Hfind as (Hi & Hj & _). simpl.
    split; [done|]. split; [|done].
    unfold queueIds in *. simpl. rewrite list_fmap_delete.
    assert (Hi' : (id <$> sch_queue s) !! i = Some jobId).
    { by rewrite list_lookup_fmap, Hi, <- Hj. }
    intros Hk. apply list_elem_of_lookup in Hk as [k Hk].
    destruct (decide (k < i)) as [Hlt|Hge].
    + rewrite list_lookup_delete_lt in Hk by done.
      pose proof (NoDup_lookup _ _ _ _ Hnd Hk Hi'). lia.
    + rewrite list_lookup_delete_ge in Hk by lia.
      pose proof (NoDup_lookup _ _ _ _ Hnd Hk Hi'). lia.
  - apply list_find_None in Hfind. exfalso.
    unfold queueIds in Hin. apply list_elem_of_fmap in Hin as (j & Hid & Hj).
    rewrite list.Forall_forall in Hfind. by apply (Hfind j).
Qed.

Lemma cancelJob_unknown s jobId :
  jobId ∉ queueIds s → sch_processing s !! jobId = None →
  cancelJob s jobId = (s, false).
Proof.
  intros Hq Hp. unfold cancelJob.
  destruct (list_find _ (sch_queue s)) as [[i j]|] eqn:Hfind.
  - apply list_find_Some in Hfind as (Hi & Hj & _). exfalso. apply Hq.
    unfold queueIds. apply list_elem_of_fmap. exists j. split; [done|].
    by eapply list_elem_of_lookup_2.
  - by rewrite Hp.
Qed.

(** C1 at its failing inputs.  [cancelJob] on a job whose provider call is in
    flight returns [true] and sets [status = 'cancelled'], but nothing in
    [processJob] reads the mark: when the provider, the diarization and the
    save fulfil, the job ends ['completed'].  [cancelJob] on a queued job
    returns [true] and empties the queue, and the job object keeps
    [status = 'queued']. *)
Theorem cancel_does_not_stop_the_job_C1 :
  let s := handleAll (construct None)
             [EvAddJob "job-1" job1; EvTick; EvSignal "job-1" Resolved] in
  let q := handleAll (construct None) [EvAddJob "job-1" job1] in
  ((cancelJob s "job-1").2 = true
   ∧ (status ∘ job <$> sch_processing (cancelJob s "job-1").1 !! "job-1")
     = Some cancelled
   ∧ finalStatus (handleAll (cancelJob s "job-1").1
                    [EvSignal "job-1" Resolved; EvSignal "job-1" Resolved;
                     EvSignal "job-1" Resolved]) "job-1"
     = Some job_completed)
  ∧ ((cancelJob q "job-1").2 = true
     ∧ sch_queue (cancelJob q "job-1").1 = []
     ∧ finalStatus (cancelJob q "job-1").1 "job-1" = Some queued).
Proof. by vm_compute. Qed.

End SchedulerFacts.

(** ** Facts about [mergeCloseSegments] *)

Module WhisperFacts.
Import Js JsFacts WhisperService.

#[local] Open Scope Q_scope.

Lemma mergeTurn_snoc maxGap acc previous current :
  mergeTurn maxGap (acc ++ [previous]) current =
    if withinGap maxGap previous current
    then acc ++ [absorb previous current]
    else acc ++ [previous; current].
Proof.
  unfold mergeTurn. rewrite last_snoc.
  destruct (withinGap _ _ _); [|by rewrite <- app_assoc].
  rewrite length_app. simpl.
  replace (length acc + 1 - 1)%nat with (length acc + 0)%nat by lia.
  by rewrite insert_app_r.
Qed.

Lemma mergeLoop_runs_from maxGap acc current rest :
  foldl (mergeTurn maxGap) (acc ++ [current]) rest
  = acc ++ mergeRuns maxGap current rest.
Proof.
  revert acc current. induction rest as [|next rest IH]; intros acc current.
  - done.
  - simpl. rewrite mergeTurn_snoc.
    destruct (withinGap _ _ _).
    + apply IH.
    + replace (acc ++ [current; next]) with ((acc ++ [current]) ++ [next])
        by (by rewrite <- app_assoc).
      rewrite IH. by rewrite <- app_assoc.
Qed.

Lemma mergeLoop_runs maxGap first rest :
  mergeLoop maxGap (first :: rest) = mergeRuns maxGap first rest.
Proof. apply (mergeLoop_runs_from maxGap [] first rest). Qed.

Lemma reindex_ids merged : id <$> reindex merged = seq 0 (length merged).
Proof.
  apply list_eq. intros i. unfold reindex.
  rewrite list_lookup_fmap, list_lookup_imap.
  destruct (merged !! i) as [s|] eqn:E; simpl.
  - symmetry. apply lookup_seq. split; [done|]. by eapply lookup_lt_Some.
  - symmetry. apply lookup_seq_ge. by apply lookup_ge_None.
Qed.

Lemma reindex_length merged : length (reindex merged) = length merged.
Proof. apply length_imap. Qed.

Lemma mergeLoop_pairs maxGap a b rest :
  mergeLoop maxGap (a :: b :: rest) =
    if withinGap maxGap a b
    then mergeLoop maxGap (absorb a b :: rest)
    else a :: mergeLoop maxGap (b :: rest).
Proof.
  rewrite !mergeLoop_runs. simpl.
  destruct (withinGap _ _ _); by rewrite ?mergeLoop_runs.
Qed.

(** A pair whose gap, on the values the code holds, is at most the
    threshold is within the gap, whatever the rounding of the difference. *)
Lemma withinGap_exact maxGap a b :
  double (start b) - double (end_ a) <= double maxGap → withinGap maxGap a b = true.
Proof. intros H. apply Qle_bool_iff. by apply js_sub_le. Qed.

(** Two segments the code keeps apart are more than the threshold apart. *)
Lemma withinGap_false maxGap a b :
  withinGap maxGap a b = false → double maxGap < double (start b) - double (end_ a).
Proof.
  intros H. apply Qnot_le_lt. intros Hle.
  rewrite withinGap_exact in H by done. done.
Qed.

(** On integer times, milliseconds for one, the computed gap is the gap. *)
Lemma withinGap_Z maxGap a b (s e g : Z) :
  start b = inject_Z s → end_ a = inject_Z e → maxGap = inject_Z g →
  (Z.abs s ≤ 2 ^ 53)%Z → (Z.abs e ≤ 2 ^ 53)%Z → (Z.abs (s - e) ≤ 2 ^ 53)%Z →
  (Z.abs g ≤ 2 ^ 53)%Z →
  withinGap maxGap a b = bool_decide (s - e ≤ g)%Z.
Proof.
  intros Hs He Hg Bs Be Bse Bg. unfold withinGap. rewrite Hs, He, Hg.
  assert (Qle_bool (js_sub (inject_Z s) (inject_Z e)) (double (inject_Z g)) = true
          ↔ (s - e ≤ g)%Z) as Hiff.
  { rewrite Qle_bool_iff, js_sub_Z, double_Z by done. by rewrite <- Zle_Qle. }
  destruct (Qle_bool _ _); case_bool_decide as H; try done.
  - exfalso. apply H. by apply Hiff.
  - apply Hiff in H. done.
Qed.

(** C7, as the code has it.  The loop of [mergeCloseSegments] decides pair
    by pair: when [b.start - a.end], computed in double precision, is at
    most [maxGap] the first absorbs the second (same start, the second's
    end, the texts joined by one space, the word lists concatenated, the
    mean of the two confidences), otherwise the first is closed and the walk
    goes on from the second ([mergeRuns]); the ids of the result are 0, 1,
    2, ...  For two segments this gives one merged segment or the two of
    them unchanged.  A pair whose gap is at most the threshold is always
    merged, the rounding of the difference cannot undo that; on integer
    times the computed gap is the gap, so with the threshold 1000,
    [{0, 5000}] and [{5500, 9000}] merge into [{0, 9000}] and a gap of 1500
    leaves the two apart. *)
Theorem merge_close_segments_C7 :
  (∀ maxGap a b rest,
     mergeLoop maxGap (a :: b :: rest) =
       if withinGap maxGap a b
       then mergeLoop maxGap (absorb a b :: rest)
       else a :: mergeLoop maxGap (b :: rest))
  ∧ (∀ maxGap first rest,
       mergeCloseSegments (first :: rest) maxGap
       = reindex (mergeRuns maxGap first rest))
  ∧ (∀ maxGap segments,
       id <$> mergeCloseSegments segments maxGap
       = seq 0 (length (mergeCloseSegments segments maxGap)))
  ∧ (∀ maxGap a b ws ws',
       words a = Some ws → words b = Some ws' →
       js_sub (start b) (end_ a) <= double maxGap →
       mergeCloseSegments [a; b] maxGap
       = [mkSegment 0 (start a) (end_ b) (text a +:+ " " +:+ text b)
            ((confidence a + confidence b) / 2) (Some (ws ++ ws'))])
  ∧ (∀ maxGap a b,
       double maxGap < js_sub (start b) (end_ a) →
       mergeCloseSegments [a; b] maxGap
       = [mkSegment 0 (start a) (end_ a) (text a) (confidence a) (words a);
          mkSegment 1 (start b) (end_ b) (text b) (confidence b) (words b)])
  ∧ (∀ maxGap a b,
       double (start b) - double (end_ a) <= double maxGap →
       withinGap maxGap a b = true)
  ∧ (∀ maxGap a b (s e g : Z),
       start b = inject_Z s → end_ a = inject_Z e → maxGap = inject_Z g →
       (Z.abs s ≤ 2 ^ 53)%Z → (Z.abs e ≤ 2 ^ 53)%Z →
       (Z.abs (s - e) ≤ 2 ^ 53)%Z → (Z.abs g ≤ 2 ^ 53)%Z →
       withinGap maxGap a b = bool_decide (s - e ≤ g)%Z)
  ∧ (∀ a b,
       start a = 0 → end_ a = 5000 → start b = 5500 → end_ b = 9000 →
       ∃ m, mergeCloseSegments [a; b] 1000 = [m]
            ∧ start m = 0 ∧ end_ m = 9000)
  ∧ (∀ a b,
       end_ a = 5000 → start b = 6500 →
       ∃ a' b', mergeCloseSegments [a; b] 1000 = [a'; b']
                ∧ start a' = start a ∧ end_ a' = end_ a
                ∧ start b' = start b ∧ end_ b' = end_ b).
Proof.
  split; [apply mergeLoop_pairs|].
  split; [intros; unfold mergeCloseSegments; by rewrite mergeLoop_runs|].
  split.
  { intros maxGap [|first rest]; [done|].
    unfold mergeCloseSegments. by rewrite reindex_ids, reindex_length. }
  split.
  { intros maxGap a b ws ws' Ha Hb Hgap.
    unfold mergeCloseSegments, mergeLoop. simpl. unfold mergeTurn. simpl.
    unfold withinGap. apply Qle_bool_iff in Hgap. rewrite Hgap. simpl.
    unfold reindex, absorb. simpl. by rewrite Ha, Hb. }
  split.
  { intros maxGap a b Hgap.
    unfold mergeCloseSegments, mergeLoop. simpl. unfold mergeTurn. simpl.
    unfold withinGap. apply Qle_bool_false in Hgap. by rewrite Hgap. }
  split; [apply withinGap_exact|].
  split; [apply withinGap_Z|].
  split.
  { intros a b Ha0 Ha1 Hb0 Hb1.
    unfold mergeCloseSegments, mergeLoop. simpl. unfold mergeTurn. simpl.
    rewrite (withinGap_Z 1000 a b 5500 5000 1000) by (done || lia). simpl.
    eexists. split; [reflexivity|]. simpl. by rewrite Ha0, Hb1. }
  intros a b Ha1 Hb0.
  unfold mergeCloseSegments, mergeLoop. simpl. unfold mergeTurn. simpl.
  rewrite (withinGap_Z 1000 a b 6500 5000 1000) by (done || lia). simpl.
  eexists _, _. split; [reflexivity|]. simpl. done.
Qed.

Lemma merge_close_segments_C7_witness :
  mergeCloseSegments [firstSegment; closeSegment] 1000
  = [mkSegment 0 0 9000 "selamat pagi semuanya" (((8 # 10) + (6 # 10)) / 2)
       (Some [mkWord 0 "selamat" 0 2000 (9 # 10);
              mkWord 0 "semuanya" 5500 9000 (7 # 10)])].
Proof.
  apply (proj1 (proj2 (proj2 (proj2 merge_close_segments_C7)))
           1000 firstSegment closeSegment
           [mkWord 0 "selamat" 0 2000 (9 # 10)]
           [mkWord 0 "semuanya" 5500 9000 (7 # 10)]).
  - reflexivity.
  - reflexivity.
  - by vm_compute.
Defined.

(** C7 fails for a gap just above the threshold.  A segment ends at 0.1 and
    the next one starts at 1.1: the two doubles lie
    1.000000000000000083... apart, more than the threshold 1.0, and their
    difference in double precision is 1.0, so the two are merged. *)
Lemma merge_joins_a_larger_gap_C7_counterexample :
  defaultMaxGap < double (start lateSegment) - double (end_ earlySegment)
  ∧ js_sub (start lateSegment) (end_ earlySegment) == defaultMaxGap
  ∧ mergeCloseSegments [earlySegment; lateSegment] defaultMaxGap
    = [mkSegment 0 0 2 "apa kabar" (((8 # 10) + (6 # 10)) / 2) (Some [])].
Proof. by vm_compute. Qed.

(** At the same threshold a segment that ends at 1.14 and one that starts
    at 2.14 stay apart: the doubles are 1.0000000000000002 apart. *)
Lemma merge_keeps_apart_one_ulp_above :
  let a := mkSegment 0 0 (114 # 100) "apa" (8 # 10) (Some []) in
  let b := mkSegment 1 (214 # 100) 3 "kabar" (6 # 10) (Some []) in
  js_sub (start b) (end_ a) == 1 + 2 ^ (-52)
  ∧ mergeCloseSegments [a; b] defaultMaxGap = [a; b].
Proof. by vm_compute. Qed.

End WhisperFacts.

(** ** Facts about the diarization engine *)

Module DiarizationFacts.
Import Js JsFacts WhisperService SpeakerDiarizationService.

#[local] Open Scope Q_scope.

(** [split(' ')] gives one piece more than there are spaces, no piece has
    a space, and the pieces joined by spaces are the string again. *)
Lemma splitSpaces_length s : length (splitSpaces s) = S (countSpaces s).
Proof.
  induction s as [|c rest IH]; [done|]. simpl.
  destruct (splitSpaces rest) as [|piece pieces]; [done|].
  destruct (Ascii.eqb c " "); simpl in *; lia.
Qed.

Lemma splitSpaces_free s : Forall (λ piece, countSpaces piece = 0%nat) (splitSpaces s).
Proof.
  induction s as [|c rest IH]; [by repeat constructor|]. simpl.
  destruct (splitSpaces rest) as [|piece pieces] eqn:Er.
  { pose proof (splitSpaces_length rest) as H. by rewrite Er in H. }
  inversion IH as [|? ? Hp Hps]; subst.
  destruct (Ascii.eqb c " ") eqn:E.
  - by repeat constructor.
  - constructor; [|done]. simpl. by rewrite E.
Qed.

Lemma splitSpaces_join s : String.concat " " (splitSpaces s) = s.
Proof.
  induction s as [|c rest IH]; [done|]. simpl.
  destruct (splitSpaces rest) as [|piece pieces] eqn:E.
  { pose proof (splitSpaces_length rest) as H. by rewrite E in H. }
  destruct (Ascii.eqb_spec c " ") as [->|Hne].
  - change (String.concat " " (EmptyString :: piece :: pieces))
      with (String " " (String.concat " " (piece :: pieces))).
    by rewrite IH.
  - rewrite <- IH. by destruct pieces.
Qed.

(** C10.  [calculateSpeechRate] always returns a finite number: 0 when the
    duration [end - start] is not positive (no division takes place), and
    the word count divided by the duration when it is positive; the word
    count is the length of the word list when the segment has one, the
    number of pieces of the space-split text otherwise: one more than the
    text has spaces, the pieces being the stretches between the spaces. *)
Theorem speech_rate_total_C10 (seg : Segment) :
  (end_ seg - start seg <= 0 → calculateSpeechRate seg = Some 0)
  ∧ (0 < end_ seg - start seg →
     calculateSpeechRate seg
     = Some (inject_Z (Z.of_nat (wordCount seg)) / (end_ seg - start seg)))
  ∧ (∃ rate, calculateSpeechRate seg = Some rate)
  ∧ (∀ ws, words seg = Some ws → wordCount seg = length ws)
  ∧ (words seg = None →
     wordCount seg = length (splitSpaces (text seg))
     ∧ wordCount seg = S (countSpaces (text seg)))
  ∧ String.concat " " (splitSpaces (text seg)) = text seg
  ∧ Forall (λ piece, countSpaces piece = 0%nat) (splitSpaces (text seg)).
Proof.
  assert (Hpos : 0 < end_ seg - start seg →
     calculateSpeechRate seg
     = Some (inject_Z (Z.of_nat (wordCount seg)) / (end_ seg - start seg))).
  { intros Hd. unfold calculateSpeechRate, js_div.
    rewrite (proj2 (Qlt_bool_iff _ _) Hd).
    destruct (Qeq_bool _ 0) eqn:E; [|done].
    apply Qeq_bool_iff in E. lra. }
  assert (Hnon : end_ seg - start seg <= 0 → calculateSpeechRate seg = Some 0).
  { intros Hd. unfold calculateSpeechRate.
    by rewrite (proj2 (Qlt_bool_false _ _) Hd). }
  split; [done|]. split; [done|]. split.
  { destruct (Qlt_le_dec 0 (end_ seg - start seg)) as [H|H].
    - eexists. by apply Hpos.
    - eexists. by apply Hnon. }
  split; [|split; [|split]].
  - intros ws Hws. unfold wordCount. by rewrite Hws.
  - intros Hws. unfold wordCount. rewrite Hws.
    split; [done|apply splitSpaces_length].
  - apply splitSpaces_join.
  - apply splitSpaces_free.
Qed.

Lemma speech_rate_total_C10_witness :
  calculateSpeechRate
    (mkSegment 0 (3 # 2) (7 # 2) "selamat pagi semuanya hadirin" (8 # 10) None)
  = Some (inject_Z (Z.of_nat 4) / ((7 # 2) - (3 # 2))).
Proof.
  apply (proj1 (proj2 (speech_rate_total_C10
           (mkSegment 0 (3 # 2) (7 # 2) "selamat pagi semuanya hadirin"
              (8 # 10) None)))).
  by vm_compute.
Defined.

Lemma smoothAt_length l i : length (smoothAt l i) = length l.
Proof.
  unfold smoothAt. repeat case_match; try done. apply length_insert.
Qed.

Lemma smoothAt_other l i j : j ≠ i → smoothAt l i !! j = l !! j.
Proof.
  intros Hne. unfold smoothAt. repeat case_match; try done.
  by apply list_lookup_insert_ne.
Qed.

Lemma smoothAt_at l i previous current next :
  l !! (i - 1)%nat = Some previous → l !! i = Some current →
  l !! (i + 1)%nat = Some next →
  smoothAt l i !! i
  = Some (if flickers previous current next then reassign previous current
          else current).
Proof.
  intros Hp Hc Hn. unfold smoothAt. rewrite Hp, Hc, Hn.
  destruct (flickers _ _ _); [|done].
  apply list_lookup_insert_eq. by eapply lookup_lt_Some.
Qed.

Lemma smoothedUpTo_S segments m :
  smoothedUpTo segments (S m) = smoothAt (smoothedUpTo segments m) (S m).
Proof. unfold smoothedUpTo. by rewrite seq_S, foldl_app. Qed.

Lemma smoothedUpTo_length segments m :
  length (smoothedUpTo segments m) = length segments.
Proof.
  induction m as [|m IH]; [done|].
  by rewrite smoothedUpTo_S, smoothAt_length.
Qed.

Lemma smoothedUpTo_ahead segments m j :
  (m < j)%nat → smoothedUpTo segments m !! j = segments !! j.
Proof.
  induction m as [|m IH]; intros Hj; [done|].
  rewrite smoothedUpTo_S, smoothAt_other by lia. apply IH. lia.
Qed.

Lemma smoothedUpTo_behind segments m m' j :
  (j ≤ m)%nat → (m ≤ m')%nat →
  smoothedUpTo segments m' !! j = smoothedUpTo segments m !! j.
Proof.
  intros Hj Hm. induction Hm as [|m' Hm IH]; [done|].
  rewrite smoothedUpTo_S, smoothAt_other by lia. done.
Qed.

Lemma smooth_at_index segments i previous current next :
  (1 ≤ i)%nat → (i + 1 < length segments)%nat →
  smoothSpeakerTransitions segments !! (i - 1)%nat = Some previous →
  segments !! i = Some current →
  segments !! (i + 1)%nat = Some next →
  smoothSpeakerTransitions segments !! i
  = Some (if flickers previous current next then reassign previous current
          else current).
Proof.
  intros Hi Hn Hp Hc Hnx.
  change (smoothSpeakerTransitions segments)
    with (smoothedUpTo segments (length segments - 2)) in *.
  rewrite (smoothedUpTo_behind segments i) by lia.
  rewrite (smoothedUpTo_behind segments (i - 1)) in Hp by lia.
  destruct i as [|i]; [lia|]. rewrite smoothedUpTo_S.
  replace (S i - 1)%nat with i in * by lia.
  apply smoothAt_at.
  - by replace (S i - 1)%nat with i by lia.
  - by rewrite smoothedUpTo_ahead by lia.
  - by rewrite smoothedUpTo_ahead by lia.
Qed.

Lemma flickers_true previous current next :
  flickers previous current next = true ↔
    speaker previous = speaker next
    ∧ speaker current ≠ speaker previous
    ∧ js_sub (end_ (segment current)) (start (segment current)) < 2
    ∧ lessThan (speakerConfidence current) (8 # 10) = true.
Proof.
  unfold flickers. rewrite !andb_true_iff, !bool_decide_eq_true, !Qlt_bool_iff.
  tauto.
Qed.

Lemma lessThan_true x y :
  lessThan x y = true ↔ ∃ q, x = Finite q ∧ double q < double y.
Proof.
  destruct x as [q|]; simpl; unfold js_lt; rewrite ?Qlt_bool_iff.
  - split; [intros H; by exists q|]. by intros (q' & [= <-] & H).
  - split; [done|]. by intros (q' & ? & _).
Qed.

(** A confidence of 0.8 or more is not below 0.8 for the code either. *)
Lemma lessThan_above q y : y <= q → lessThan (Finite q) y = false.
Proof.
  intros H. simpl. unfold js_lt. apply Qlt_bool_false. by apply double_mono.
Qed.

(** A segment of two seconds or more is not short for the code either. *)
Lemma flickers_long previous current next :
  2 <= double (end_ (segment current)) - double (start (segment current)) →
  flickers previous current next = false.
Proof.
  intros H. destruct (flickers previous current next) eqn:E; [|done].
  apply flickers_true in E as (_ & _ & E & _).
  pose proof (js_sub_ge (end_ (segment current)) (start (segment current)) 2) as Hge.
  assert (double 2 == 2) as E2 by (by vm_compute).
  rewrite E2 in Hge. specialize (Hge H). lra.
Qed.

Lemma smooth_ends segments i :
  (i = 0 ∨ length segments ≤ i + 1)%nat →
  smoothSpeakerTransitions segments !! i = segments !! i.
Proof.
  change (smoothSpeakerTransitions segments)
    with (smoothedUpTo segments (length segments - 2)).
  intros [-> | Hi].
  - by rewrite (smoothedUpTo_behind segments 0) by lia.
  - destruct (decide (i = 0%nat)) as [->|Hne].
    + by rewrite (smoothedUpTo_behind segments 0) by lia.
    + apply smoothedUpTo_ahead. lia.
Qed.

(** A segment the condition of the [if] fails for, whatever its
    neighbours, is left as it is. *)
Lemma smooth_keeps segments i current :
  segments !! i = Some current →
  (∀ previous next, flickers previous current next = false) →
  smoothSpeakerTransitions segments !! i = Some current.
Proof.
  intros Hc Hno.
  destruct (decide (i = 0 ∨ length segments ≤ i + 1)%nat) as [Hend|Hmid].
  { by rewrite smooth_ends. }
  assert (length (smoothSpeakerTransitions segments) = length segments) as Hlen
    by apply smoothedUpTo_length.
  destruct (lookup_lt_is_Some_2 (smoothSpeakerTransitions segments) (i - 1))
    as [previous Hp]; [lia|].
  destruct (lookup_lt_is_Some_2 segments (i + 1)) as [next Hn]; [lia|].
  rewrite (smooth_at_index segments i previous current next) by (done || lia).
  by rewrite Hno.
Qed.

(** C8, as the code has it.  The pass keeps the length and never touches
    the first and the last segment.  Segment [i] in between is compared with
    its left neighbour as the pass has left it and with its right neighbour
    as given: when those two have the same speaker, the segment another,
    its duration [end - start], computed in double precision, is under 2
    and its confidence is a number under 0.8, it gets the neighbours'
    speaker and confidence 0.6; otherwise it stays as it is.  So a segment
    with confidence 0.8 or more, or [NaN], and a segment of two seconds or
    more always keep their speaker, and a segment that meets the conditions
    on the given labels is reassigned whenever its left neighbour has not
    been reassigned itself. *)
Theorem smoothing_pass_C8 (segments : list DiarizedSegment) :
  let smoothed := smoothSpeakerTransitions segments in
  length smoothed = length segments
  ∧ (∀ i, (i = 0 ∨ length segments ≤ i + 1)%nat → smoothed !! i = segments !! i)
  ∧ (∀ i previous current next,
       (1 ≤ i)%nat →
       smoothed !! (i - 1)%nat = Some previous →
       segments !! i = Some current →
       segments !! (i + 1)%nat = Some next →
       smoothed !! i
       = Some (if flickers previous current next
               then mkDiarized (segment current) (speaker previous) (Finite (6 # 10))
               else current))
  ∧ (∀ i current q,
       segments !! i = Some current →
       speakerConfidence current = Finite q → 8 # 10 <= q →
       smoothed !! i = Some current)
  ∧ (∀ i current,
       segments !! i = Some current →
       speakerConfidence current = NaN →
       smoothed !! i = Some current)
  ∧ (∀ i current,
       segments !! i = Some current →
       2 <= double (end_ (segment current)) - double (start (segment current)) →
       smoothed !! i = Some current)
  ∧ (∀ i previous current next q,
       (1 ≤ i)%nat →
       segments !! (i - 1)%nat = Some previous →
       smoothed !! (i - 1)%nat = Some previous →
       segments !! i = Some current →
       segments !! (i + 1)%nat = Some next →
       speaker previous = speaker next →
       speaker current ≠ speaker previous →
       js_sub (end_ (segment current)) (start (segment current)) < 2 →
       speakerConfidence current = Finite q → double q < double (8 # 10) →
       smoothed !! i
       = Some (mkDiarized (segment current) (speaker next) (Finite (6 # 10)))).
Proof.
  intros smoothed.
  assert (Hlen : length smoothed = length segments)
    by apply smoothedUpTo_length.
  assert (Hat : ∀ i previous current next,
       (1 ≤ i)%nat →
       smoothed !! (i - 1)%nat = Some previous →
       segments !! i = Some current →
       segments !! (i + 1)%nat = Some next →
       smoothed !! i
       = Some (if flickers previous current next
               then mkDiarized (segment current) (speaker previous) (Finite (6 # 10))
               else current)).
  { intros i previous current next Hi Hp Hc Hn.
    apply smooth_at_index; try done.
    apply lookup_lt_Some in Hn. lia. }
  split; [done|]. split; [apply smooth_ends|]. split; [done|].
  split; [|split; [|split]].
  - intros i current q Hc Hq Hconf. apply smooth_keeps; [done|].
    intros previous next. unfold flickers.
    rewrite Hq, lessThan_above by done. apply andb_false_r.
  - intros i current Hc Hq. apply smooth_keeps; [done|].
    intros previous next. unfold flickers. rewrite Hq. apply andb_false_r.
  - intros i current Hc Hlong. apply smooth_keeps; [done|].
    intros previous next. by apply flickers_long.
  - intros i previous current next q Hi _ Hp Hc Hn H1 H2 H3 H4 H5.
    rewrite (Hat i previous current next) by done.
    rewrite (proj2 (flickers_true previous current next)).
    + by rewrite H1.
    + repeat split; try done. apply lessThan_true. by exists q.
Qed.

Lemma smoothing_pass_C8_witness :
  smoothSpeakerTransitions (oneFlicker (5 # 10)) !! 1%nat
  = Some (mkDiarized (mkSegment 1 10 (23 # 2) "ya" (8 # 10) (Some []))
            speakerA (Finite (6 # 10))).
Proof.
  apply (proj2 (proj2 (proj2 (proj2 (proj2 (proj2
           (smoothing_pass_C8 (oneFlicker (5 # 10))))))))
           1%nat (labelled 0 0 10 speakerA (9 # 10))
           (labelled 1 10 (23 # 2) speakerB (5 # 10))
           (labelled 2 (23 # 2) (43 # 2) speakerA (9 # 10)) (5 # 10)).
  - lia.
  - reflexivity.
  - reflexivity.
  - reflexivity.
  - reflexivity.
  - reflexivity.
  - by vm_compute.
  - by vm_compute.
  - reflexivity.
  - by vm_compute.
Defined.

(** The other half of the specification's example: with confidence 0.9 the
    segment stays with speaker B. *)
Lemma smoothing_keeps_confident_flicker :
  speaker <$> smoothSpeakerTransitions (oneFlicker (9 # 10))
  = [speakerA; speakerB; speakerA].
Proof. by vm_compute. Qed.

(** The duration is the one the code computes: from 0.3 to 2.3 it is
    1.9999999999999998, and the segment is reassigned; from 0.13 to 2.13
    it is 2, though the two doubles are less than two seconds apart, and
    the segment is kept. *)
Lemma smoothing_follows_the_computed_duration :
  speaker <$> smoothSpeakerTransitions nearlyTwoSeconds
  = [speakerA; speakerA; speakerA]
  ∧ double (213 # 100) - double (13 # 100) < 2
  ∧ js_sub (213 # 100) (13 # 100) == 2
  ∧ speaker <$> smoothSpeakerTransitions
                  [labelled 0 0 (13 # 100) speakerA (9 # 10);
                   labelled 1 (13 # 100) (213 # 100) speakerB (5 # 10);
                   labelled 2 (213 # 100) 12 speakerA (9 # 10)]
    = [speakerA; speakerB; speakerA].
Proof. by vm_compute. Qed.

(** A segment whose confidence is [NaN] is kept. *)
Lemma smoothing_keeps_nan_flicker :
  smoothSpeakerTransitions unsureFlicker = unsureFlicker.
Proof. by vm_compute. Qed.

(** C8 fails on two flickers in a row (A B A B, both middle segments 1 s
    long with confidence 0.5): the third segment has the speaker A between
    two segments of speaker B, yet the pass, which has just relabelled the
    second segment to A, leaves it with A and confidence 0.5. *)
Lemma smoothing_skips_second_flicker_C8_counterexample :
  (∃ previous current next,
     twoFlickers !! 1%nat = Some previous
     ∧ twoFlickers !! 2%nat = Some current
     ∧ twoFlickers !! 3%nat = Some next
     ∧ speaker previous = speakerB ∧ speaker next = speakerB
     ∧ speaker current = speakerA
     ∧ end_ (segment current) - start (segment current) < 2
     ∧ js_sub (end_ (segment current)) (start (segment current)) < 2
     ∧ speakerConfidence current = Finite (5 # 10)
     ∧ lessThan (speakerConfidence current) (8 # 10) = true)
  ∧ (λ s, (speaker s, speakerConfidence s))
      <$> smoothSpeakerTransitions twoFlickers
    = [(speakerA, Finite (9 # 10)); (speakerA, Finite (6 # 10));
       (speakerA, Finite (5 # 10)); (speakerB, Finite (9 # 10))].
Proof.
  split; [|by vm_compute].
  eexists _, _, _. repeat split; by vm_compute.
Qed.

Lemma tryK_unfold features s k :
  tryK features s k =
    let run := kMeansClustering features k (rngOf s) in
    let score := evaluateClusterQuality run.1 features in
    if match bestScore s with None => true | Some best => Qlt_bool best score end
    then mkSearch (Some run.1) (Some score) (tried s ++ [k]) run.2
    else mkSearch (bestClusters s) (bestScore s) (tried s ++ [k]) run.2.
Proof. unfold tryK. by destruct (kMeansClustering features k (rngOf s)). Qed.

Lemma candidates_S features k n rng :
  candidates features k (S n) rng =
    (k, (kMeansClustering features k rng).1,
     evaluateClusterQuality (kMeansClustering features k rng).1 features)
    :: candidates features (S k) n (kMeansClustering features k rng).2.
Proof. simpl. by destruct (kMeansClustering features k rng). Qed.

Lemma candidates_ks features k n rng :
  (λ c, c.1.1) <$> candidates features k n rng = seq k n.
Proof.
  revert k rng. induction n as [|n IH]; intros k rng; [done|].
  rewrite candidates_S. simpl. by rewrite IH.
Qed.

Lemma candidates_k_ge features k n rng c :
  c ∈ candidates features k n rng → (k ≤ c.1.1)%nat.
Proof.
  intros Hc. apply (list_elem_of_fmap_2 (λ c, c.1.1)) in Hc.
  rewrite candidates_ks in Hc. apply elem_of_seq in Hc. lia.
Qed.

(** What the loop has found after the candidates [k, k + 1, ...]. *)
Lemma search_from features n : ∀ k s,
  let s' := foldl (tryK features) s (seq k n) in
  let cands := candidates features k n (rngOf s) in
  tried s' = tried s ++ seq k n
  ∧ ((bestClusters s' = bestClusters s ∧ bestScore s' = bestScore s
      ∧ ∀ c, c ∈ cands → ¬ beats (bestScore s) c.2)
     ∨ ∃ c, c ∈ cands
         ∧ bestClusters s' = Some c.1.2 ∧ bestScore s' = Some c.2
         ∧ beats (bestScore s) c.2
         ∧ ∀ c', c' ∈ cands →
             c'.2 <= c.2 ∧ ((c'.1.1 < c.1.1)%nat → c'.2 < c.2)).
Proof.
  induction n as [|n IH]; intros k s s' cands; subst s' cands.
  { simpl. split; [by rewrite app_nil_r|]. left. repeat split; try done.
    intros c Hc. by apply elem_of_nil in Hc. }
  cbn [seq foldl]. rewrite candidates_S, tryK_unfold. cbn zeta.
  set (run := kMeansClustering features k (rngOf s)).
  set (score := evaluateClusterQuality run.1 features).
  set (c0 := (k, run.1, score)).
  destruct (match bestScore s with
            | Some best => Qlt_bool best score | None => true end) eqn:Hb.
  - (* the candidate [k] becomes the best so far *)
    assert (Hbeats : beats (bestScore s) score).
    { unfold beats. destruct (bestScore s); [by apply Qlt_bool_iff|done]. }
    destruct (IH (S k) (mkSearch (Some run.1) (Some score) (tried s ++ [k]) run.2))
      as [Ht Hcases]. simpl in Ht, Hcases.
    split; [by rewrite Ht, <- app_assoc|]. right.
    destruct Hcases as [(Hc & Hs & Hnone) | (c & Hin & Hc & Hs & Hbt & Hall)].
    + exists c0. split; [left|]. split; [done|]. split; [done|].
      split; [done|]. intros c' Hc'. apply elem_of_cons in Hc' as [->|Hc'].
      * simpl. split; [lra|lia].
      * pose proof (Hnone c' Hc') as Hn. simpl in Hn.
        pose proof (candidates_k_ge _ _ _ _ _ Hc'). simpl.
        split; [lra|lia].
    + exists c. split; [by right|]. split; [done|]. split; [done|].
      simpl in Hbt. split.
      { unfold beats in *. destruct (bestScore s); [lra|done]. }
      intros c' Hc'. apply elem_of_cons in Hc' as [->|Hc'].
      * simpl. split; [lra|]. intros _. lra.
      * by apply Hall.
  - (* the best so far stays *)
    assert (Hnot : ¬ beats (bestScore s) score).
    { unfold beats. destruct (bestScore s) as [b|]; [|done].
      apply Qlt_bool_false in Hb. lra. }
    destruct (IH (S k) (mkSearch (bestClusters s) (bestScore s) (tried s ++ [k]) run.2))
      as [Ht Hcases]. simpl in Ht, Hcases.
    split; [by rewrite Ht, <- app_assoc|].
    destruct Hcases as [(Hc & Hs & Hnone) | (c & Hin & Hc & Hs & Hbt & Hall)].
    + left. split; [done|]. split; [done|].
      intros c' Hc'. apply elem_of_cons in Hc' as [->|Hc']; [done|by apply Hnone].
    + right. exists c. split; [by right|]. split; [done|]. split; [done|].
      split; [done|]. intros c' Hc'. apply elem_of_cons in Hc' as [->|Hc'].
      * simpl. unfold beats in *. destruct (bestScore s) as [b|]; [|done].
        apply Qlt_bool_false in Hb. split; [lra|]. intros _. lra.
      * by apply Hall.
Qed.

Lemma candidates_scores features k n rng c :
  c ∈ candidates features k n rng → c.2 = evaluateClusterQuality c.1.2 features.
Proof.
  revert k rng. induction n as [|n IH]; intros k rng Hc.
  - by apply elem_of_nil in Hc.
  - rewrite candidates_S in Hc. apply elem_of_cons in Hc as [->|Hc]; [done|].
    by eapply IH.
Qed.

(** A feature alone in its cluster has silhouette 1 as soon as another
    cluster has a feature at a positive distance. *)
Lemma silhouette_alone feature clusters clusterIdx cluster :
  (length (c_features cluster) ≤ 1)%nat →
  0 < nearestClusterDistance feature clusters clusterIdx →
  silhouette feature clusters clusterIdx cluster == 1.
Proof.
  intros Hone Hb. unfold silhouette, averageIntraClusterDistance.
  rewrite bool_decide_eq_true_2 by done.
  destruct (Qeq_bool _ 0) eqn:E.
  { apply Qeq_bool_iff in E. lra. }
  rewrite (proj2 (Qlt_bool_iff _ _) Hb). field. lra.
Qed.




End DiarizationFacts.

(** ** More facts about the pipeline and the scheduler *)

Module QueueMoreFacts.
Import Js JsFacts StageTracker StageTrackerFacts TranscriptionQueue PipelineFacts
  SchedulerFacts QueueMore.

#[local] Open Scope Q_scope.

(** X1. A job that ends ['completed'] is done in every respect: its overall
    progress is 100, each of the five stages is completed at 100, the
    result is stored, no error is recorded, and [job-completed] was sent;
    whatever signals arrived on the way, a cancel mark among them. *)
Theorem completed_job_is_fully_done (jobId : string) (d : JobData)
    (sigs : list Signal) (j : Job) (log : list Provider) (out : list Notification) :
  run (Running (startJob (newJob jobId d)).1) sigs = (Settled j log, out) →
  status j = job_completed →
  progress j = 100%Z
  ∧ (∀ s, stages j s = mkStage completed 100)
  ∧ result j = Some jobId ∧ error j = None
  ∧ job_done jobId ∈ out.
Proof.
  intros Hrun Hst.
  pose proof (run_tidy _ sigs (startJob_tidy jobId d)) as H.
  rewrite Hrun in H. simpl in H.
  destruct H as [(_ & Hp & Hs & Hr & He & Hf) | (Hfail & _)]; [|congruence].
  repeat split; try done.
  assert (Hin : job_done jobId ∈ filter (λ n, terminal n = true) out)
    by (rewrite Hf; left).
  by apply list_elem_of_filter in Hin as [_ Hin].
Qed.

Lemma completed_job_is_fully_done_witness :
  let finish :=
    run (Running (startJob (newJob "job-1" job1)).1)
        [FfmpegProgress (Some 40); Resolved; Callback 30; MarkCancelled;
         Resolved; Callback 60; Resolved; Resolved] in
  progress (jobOf finish.1) = 100%Z
  ∧ (∀ s, stages (jobOf finish.1) s = mkStage completed 100)
  ∧ result (jobOf finish.1) = Some "job-1" ∧ error (jobOf finish.1) = None
  ∧ job_done "job-1" ∈ finish.2.
Proof.
  intros finish.
  apply (completed_job_is_fully_done "job-1" job1
           [FfmpegProgress (Some 40); Resolved; Callback 30; MarkCancelled;
            Resolved; Callback 60; Resolved; Resolved]
           (jobOf finish.1) [google] finish.2).
  - by vm_compute.
  - by vm_compute.
Defined.

(** X2. A job that ends ['failed'] has no result, keeps the message of the
    error, and its [job-failed] notification names a stage, the one that
    was in progress when the error came: [getCurrentStage] never answers
    ['unknown'] there. *)
Theorem failed_job_names_its_stage (jobId : string) (d : JobData)
    (sigs : list Signal) (j : Job) (log : list Provider) (out : list Notification) :
  run (Running (startJob (newJob jobId d)).1) sigs = (Settled j log, out) →
  status j = failed →
  result j = None
  ∧ ∃ message stage,
      error j = Some message
      ∧ st_status (stages j stage) = in_progress
      ∧ job_failed jobId message (Some stage) ∈ out.
Proof.
  intros Hrun Hst.
  pose proof (run_tidy _ sigs (startJob_tidy jobId d)) as H.
  rewrite Hrun in H. simpl in H.
  destruct H as [(Hc & _) | (_ & Hr & e & stage & He & Hin & _ & Hf)];
    [congruence|].
  split; [done|]. exists e, stage. split; [done|]. split; [done|].
  assert (Hm : job_failed jobId e (Some stage)
               ∈ filter (λ n, terminal n = true) out) by (rewrite Hf; left).
  by apply list_elem_of_filter in Hm as [_ Hm].
Qed.

Lemma failed_job_names_its_stage_witness :
  let finish :=
    run (Running (startJob (newJob "job-1" job1)).1)
        [Resolved; Callback 25; Rejected "quota"; Callback 5;
         Rejected "Whisper transcription failed: 401"] in
  result (jobOf finish.1) = None
  ∧ ∃ message stage,
      error (jobOf finish.1) = Some message
      ∧ st_status (stages (jobOf finish.1) stage) = in_progress
      ∧ job_failed "job-1" message (Some stage) ∈ finish.2.
Proof.
  intros finish.
  apply (failed_job_names_its_stage "job-1" job1
           [Resolved; Callback 25; Rejected "quota"; Callback 5;
            Rejected "Whisper transcription failed: 401"]
           (jobOf finish.1) [google; whisper] finish.2).
  - by vm_compute.
  - by vm_compute.
Defined.

(** X3. While a job runs, neither [job-completed] nor [job-failed] is sent;
    when it has ended exactly one of the two was sent, once, and it agrees
    with the status of the job. *)
Theorem one_terminal_notification (jobId : string) (d : JobData)
    (sigs : list Signal) :
  let finish := run (Running (startJob (newJob jobId d)).1) sigs in
  match finish.1 with
  | Running _ => filter (λ n, terminal n = true) finish.2 = []
  | Settled j _ =>
      (status j = job_completed
       ∧ filter (λ n, terminal n = true) finish.2 = [job_done jobId])
      ∨ (status j = failed
         ∧ ∃ message stage,
             filter (λ n, terminal n = true) finish.2
             = [job_failed jobId message stage])
  end.
Proof.
  intros finish. unfold finish.
  pose proof (run_tidy _ sigs (startJob_tidy jobId d)) as H.
  destruct (run _ sigs) as [[t|j log] out]; simpl in *.
  - apply H.
  - destruct H as [(Hc & _ & _ & _ & _ & Hf) | (Hc & _ & e & stage & _ & _ & _ & Hf)].
    + by left.
    + right. split; [done|]. by exists e, (Some stage).
Qed.

Lemma ledger_construct env : ledger (construct env).
Proof.
  constructor; simpl; try done.
  - intros j Hj. by apply elem_of_nil in Hj.
  - intros i Hi. by apply elem_of_nil in Hi.
  - intros i Hi. by apply elem_of_nil in Hi.
Qed.

Lemma ledger_addJob env s jobId d :
  invariant env s → ledger s → jobId ∉ issued s → ledger (addJob s jobId d).1.1.
Proof.
  intros [] [] Hfresh. constructor; simpl.
  - intros j Hj. apply elem_of_app in Hj as [Hj|Hj]; [by apply led_queue0|].
    apply list_elem_of_singleton in Hj as ->. by exists d.
  - done.
  - intros i Hi. apply elem_of_union_r. by apply led_retired_issued0.
  - intros i Hi. destruct (led_retired_gone0 i Hi) as [Hq Hp]. split; [|done].
    unfold queueIds. simpl. rewrite fmap_app, elem_of_app. simpl.
    rewrite list_elem_of_singleton. intros [H|Heq]; [done|]. subst i.
    by apply Hfresh, led_retired_issued0.
  - rewrite size_union by (by apply disjoint_singleton_l).
    rewrite size_singleton, length_app. simpl.
    rewrite led_count0. lia.
Qed.

Lemma ledger_processQueue env s :
  invariant env s → ledger s → ledger (processQueue s).1.
Proof.
  intros Hinv Hled. unfold processQueue.
  destruct (mayAdmit s) eqn:Hadm; [|done].
  destruct (sch_queue s) as [|j rest] eqn:Hq; [done|].
  destruct Hinv, Hled. unfold queueIds in *. rewrite Hq in *. simpl in *.
  assert (Hnone : sch_processing s !! id j = None).
  { apply inv_disjoint0. left. }
  constructor; simpl.
  - intros j' Hj'. apply led_queue0. by right.
  - intros k t. destruct (decide (id j = k)) as [<-|Hne].
    + rewrite lookup_insert_eq. intros [= <-].
      destruct (led_queue0 j) as [d ->]; [left|]. apply startJob_tidy.
    + rewrite lookup_insert_ne by done. apply led_tidy0.
  - done.
  - intros i Hi. destruct (led_retired_gone0 i Hi) as [Hqi Hpi].
    split.
    + intros Hin. apply Hqi. by right.
    + rewrite lookup_insert_ne; [done|]. intros <-. apply Hqi. left.
  - rewrite map_size_insert_None by done. rewrite led_count0. lia.
Qed.

Lemma ledger_cancelJob env s jobId :
  invariant env s → ledger s → ledger (cancelJob s jobId).1.
Proof.
  intros Hinv Hled. unfold cancelJob.
  destruct (list_find _ (sch_queue s)) as [[i j]|] eqn:Hfind.
  - apply list_find_Some in Hfind as (Hi & Hj & _).
    destruct Hinv, Hled. unfold queueIds, retiredIds in *.
    assert (Hi' : (id <$> sch_queue s) !! i = Some (id j)).
    { by rewrite list_lookup_fmap, Hi. }
    assert (Hgone : id j ∉ delete i (id <$> sch_queue s)).
    { intros Hk. apply list_elem_of_lookup in Hk as [k Hk].
      destruct (decide (k < i)%nat) as [Hlt|Hge].
      - rewrite list_lookup_delete_lt in Hk by done.
        pose proof (NoDup_lookup _ _ _ _ inv_nodup0 Hk Hi'). lia.
      - rewrite list_lookup_delete_ge in Hk by lia.
        pose proof (NoDup_lookup _ _ _ _ inv_nodup0 Hk Hi'). lia. }
    constructor; unfold queueIds, retiredIds; simpl; rewrite ?list_fmap_delete.
    + intros j' Hj'. apply led_queue0.
      eapply elem_of_sublist; [done|apply sublist_delete].
    + done.
    + intros k Hk. apply elem_of_cons in Hk as [->|Hk].
      * apply inv_queue_issued0. by eapply list_elem_of_lookup_2.
      * by apply led_retired_issued0.
    + intros k Hk. apply elem_of_cons in Hk as [->|Hk].
      * split; [done|]. apply inv_disjoint0. by eapply list_elem_of_lookup_2.
      * destruct (led_retired_gone0 k Hk) as [Hqk Hpk]. split; [|done].
        intros Hin. apply Hqk.
        eapply elem_of_sublist; [done|apply sublist_delete].
    + rewrite length_delete by (by rewrite Hi). rewrite led_count0.
      apply lookup_lt_Some in Hi. lia.
  - destruct (sch_processing s !! jobId) as [t|] eqn:Hrun; [|done].
    destruct Hinv, Hled. constructor; simpl.
    + done.
    + intros k t'. destruct (decide (jobId = k)) as [<-|Hne].
      * rewrite lookup_insert_eq. intros [= <-].
        destruct (led_tidy0 _ _ Hrun) as (He & Hr & Hs). by split.
      * rewrite lookup_insert_ne by done. apply led_tidy0.
    + done.
    + intros k Hk. destruct (led_retired_gone0 k Hk) as [Hqk Hpk].
      split; [done|]. rewrite lookup_insert_ne; [done|]. intros <-. congruence.
    + by erewrite map_size_insert_Some.
Qed.

Lemma ledger_deliver env s jobId sig :
  invariant env s → ledger s → ledger (deliver s jobId sig).1.
Proof.
  intros Hinv Hled. unfold deliver.
  destruct (sch_processing s !! jobId) as [t|] eqn:Hrun; [|done].
  destruct Hinv, Hled.
  pose proof (step_id t sig) as Hid.
  pose proof (step_tidy t sig (led_tidy0 _ _ Hrun)) as Htidy.
  pose proof (inv_keys0 _ _ Hrun) as Hkey.
  destruct (step t sig) as [[t'|j log] out]; simpl in *.
  - constructor; simpl.
    + done.
    + intros k t''. destruct (decide (jobId = k)) as [<-|Hne].
      * rewrite lookup_insert_eq. intros [= <-]. apply Htidy.
      * rewrite lookup_insert_ne by done. apply led_tidy0.
    + done.
    + intros k Hk. destruct (led_retired_gone0 k Hk) as [Hqk Hpk].
      split; [done|]. rewrite lookup_insert_ne; [done|]. intros <-. congruence.
    + by erewrite map_size_insert_Some.
  - unfold retiredIds in *. constructor; simpl.
    + done.
    + intros k t''. intros Ht''. apply lookup_delete_Some in Ht'' as [_ Ht''].
      by eapply led_tidy0.
    + intros k Hk. apply elem_of_cons in Hk as [->|Hk].
      * apply inv_processing_issued0. rewrite Hid, Hkey. by rewrite Hrun.
      * by apply led_retired_issued0.
    + intros k Hk. apply elem_of_cons in Hk as [->|Hk].
      * split; [|by rewrite lookup_delete_eq].
        intros Hin. apply inv_disjoint0 in Hin. rewrite Hid, Hkey in Hin. congruence.
      * destruct (led_retired_gone0 k Hk) as [Hqk Hpk]. split; [done|].
        apply lookup_delete_None. by right.
    + pose proof (map_size_delete (id j) (sch_processing s)) as Hsz.
      rewrite Hid, Hkey, Hrun in Hsz. rewrite Hid, Hkey, Hsz, led_count0.
      assert (size (sch_processing s) ≠ 0%nat).
      { intros H0. apply map_size_empty_inv in H0. rewrite H0 in Hrun.
        by rewrite lookup_empty in Hrun. }
      lia.
Qed.

Lemma reachable_ledger env s : reachable env s → ledger s.
Proof.
  induction 1 as [|s ev Hr IH Hadm].
  - apply ledger_construct.
  - pose proof (reachable_invariant env s Hr) as Hinv.
    destruct ev as [jobId d| |jobId|jobId sig]; simpl.
    + by apply (ledger_addJob env s jobId d).
    + by apply (ledger_processQueue env).
    + by apply (ledger_cancelJob env).
    + by apply (ledger_deliver env).
Qed.

Lemma reachable_handleAll env s evs :
  reachable env s → admissibleAll s evs → reachable env (handleAll s evs).
Proof.
  revert s. induction evs as [|ev evs IH]; intros s Hr Ha; [done|].
  destruct Ha as [Hev Hrest]. simpl. apply IH; [|done].
  by apply reachable_handle.
Qed.

Lemma retired_kept s ev j : j ∈ retired s → j ∈ retired (handle s ev).1.
Proof.
  intros Hj. destruct ev as [jobId d| |jobId|jobId sig]; simpl.
  - done.
  - unfold processQueue. destruct (mayAdmit s); [|done].
    by destruct (sch_queue s).
  - unfold cancelJob. destruct (list_find _ _) as [[i j']|]; simpl.
    + by right.
    + by destruct (sch_processing s !! jobId).
  - unfold deliver. destruct (sch_processing s !! jobId) as [t|]; [|done].
    destruct (step t sig) as [[t'|j' log] out]; simpl; [done|by right].
Qed.

Lemma retired_kept_all s evs j : j ∈ retired s → j ∈ retired (handleAll s evs).
Proof.
  revert s. induction evs as [|ev evs IH]; intros s Hj; [done|].
  simpl. apply IH. by apply retired_kept.
Qed.

(** X4. The scheduler loses no job and makes none up: in every state it can
    reach, the ids handed out are as many as the jobs waiting in the
    queue, running in [processing] and let go of, taken together. *)
Theorem every_job_in_one_place (env : option Z) (s : Scheduler) :
  reachable env s →
  size (issued s)
  = (length (sch_queue s) + size (sch_processing s) + length (retired s))%nat.
Proof. intros Hr. by destruct (reachable_ledger env s Hr). Qed.

Lemma every_job_in_one_place_witness :
  size (issued twoJobsOneSlot)
  = (length (sch_queue twoJobsOneSlot) + size (sch_processing twoJobsOneSlot)
     + length (retired twoJobsOneSlot))%nat.
Proof.
  apply (every_job_in_one_place (Some 1%Z) twoJobsOneSlot).
  unfold twoJobsOneSlot.
  apply reachable_handle; [|exact I].
  apply reachable_handle; [|by vm_compute].
  apply reachable_handle; [|by vm_compute].
  apply reachable_construct.
Defined.

(** X5. A job the scheduler has let go of (removed from the queue by
    [cancelJob], or through with [processJob]) never comes back: whatever
    happens afterwards, its id is neither queued nor running again. *)
Theorem retired_job_never_returns (env : option Z) (s : Scheduler) (j : Job)
    (evs : list Event) :
  reachable env s → j ∈ retired s → admissibleAll s evs →
  id j ∈ issued (handleAll s evs)
  ∧ (id j ∉ queueIds (handleAll s evs))
  ∧ sch_processing (handleAll s evs) !! id j = None
  ∧ j ∈ retired (handleAll s evs).
Proof.
  intros Hr Hj Ha.
  pose proof (retired_kept_all s evs j Hj) as Hj'.
  destruct (reachable_ledger env _ (reachable_handleAll env s evs Hr Ha)).
  assert (Hid : id j ∈ retiredIds (handleAll s evs)).
  { unfold retiredIds. by apply list_elem_of_fmap_2. }
  destruct (led_retired_gone0 _ Hid). split; [by apply led_retired_issued0|]. done.
Qed.

Lemma retired_job_never_returns_witness :
  let s' := handleAll afterQueueCancel
              [EvTick; EvCancel "job-1"; EvAddJob "job-2" job1; EvTick;
               EvSignal "job-1" Resolved] in
  id (newJob "job-1" job1) ∈ issued s'
  ∧ (id (newJob "job-1" job1) ∉ queueIds s')
  ∧ sch_processing s' !! id (newJob "job-1" job1) = None
  ∧ newJob "job-1" job1 ∈ retired s'.
Proof.
  apply (retired_job_never_returns None afterQueueCancel (newJob "job-1" job1)).
  - unfold afterQueueCancel.
    apply reachable_handle; [|exact I].
    apply reachable_handle; [|by vm_compute].
    apply reachable_construct.
  - left.
  - repeat split; by vm_compute.
Defined.

(** X6. [getQueueStatus] tells the truth: the queue length is that of the
    queue, there are at most [maxConcurrent] entries of running jobs, and
    each entry is a job of [processing] with its progress and the stage
    it is in, never ['unknown']. *)
Theorem running_jobs_report_a_stage (env : option Z) (s : Scheduler) :
  reachable env s →
  queueLength (getQueueStatus s) = length (sch_queue s)
  ∧ (length (processingEntries (getQueueStatus s))
     ≤ Z.to_nat (qs_maxConcurrent (getQueueStatus s)))%nat
  ∧ ∀ entry, entry ∈ processingEntries (getQueueStatus s) →
      ∃ t, sch_processing s !! e_id entry = Some t
           ∧ e_stage entry = Some (reportingStage (at_ t))
           ∧ e_progress entry = progress (job t).
Proof.
  intros Hr. pose proof (reachable_invariant env s Hr) as [].
  pose proof (reachable_ledger env s Hr) as [].
  split; [done|]. split.
  { simpl. rewrite length_fmap, length_map_to_list. done. }
  intros entry Hin. simpl in Hin.
  apply list_elem_of_fmap in Hin as ([k t] & -> & Hkt).
  apply elem_of_map_to_list in Hkt. exists t. simpl.
  rewrite (inv_keys0 _ _ Hkt). split; [done|]. split; [|done].
  apply getCurrentStage_tidy. by eapply led_tidy0.
Qed.

Lemma running_jobs_report_a_stage_witness :
  queueLength (getQueueStatus twoJobsOneSlot) = length (sch_queue twoJobsOneSlot)
  ∧ (length (processingEntries (getQueueStatus twoJobsOneSlot))
     ≤ Z.to_nat (qs_maxConcurrent (getQueueStatus twoJobsOneSlot)))%nat
  ∧ ∀ entry, entry ∈ processingEntries (getQueueStatus twoJobsOneSlot) →
      ∃ t, sch_processing twoJobsOneSlot !! e_id entry = Some t
           ∧ e_stage entry = Some (reportingStage (at_ t))
           ∧ e_progress entry = progress (job t).
Proof.
  apply (running_jobs_report_a_stage (Some 1%Z) twoJobsOneSlot).
  unfold twoJobsOneSlot.
  apply reachable_handle; [|exact I].
  apply reachable_handle; [|by vm_compute].
  apply reachable_handle; [|by vm_compute].
  apply reachable_construct.
Defined.

End QueueMoreFacts.

(** ** Facts about the report *)

Module ReportFacts.
Import Js JsFacts WhisperService SpeakerDiarizationService TranscriptionReport.

#[local] Open Scope Q_scope.

Lemma Math_round_le x y : x <= y → (Math_round x ≤ Math_round y)%Z.
Proof. intros H. unfold Math_round. apply Qfloor_resp_le. lra. Qed.

Lemma Math_round_nonpos x : x <= 0 → (Math_round x ≤ 0)%Z.
Proof.
  intros H. unfold Math_round.
  assert (Hf := Qfloor_le (x + (1 # 2))).
  assert (inject_Z (Qfloor (x + (1 # 2))) < 1) as Hlt by lra.
  change 1 with (inject_Z 1) in Hlt. rewrite <- Zlt_Qlt in Hlt. lia.
Qed.

Lemma remaining_formula (p e : Z) :
  (0 < p)%Z →
  (inject_Z e / inject_Z p * 100 - inject_Z e) / 1000
  == inject_Z e * (100 - inject_Z p) / (inject_Z p * 1000).
Proof.
  intros Hp. assert (0 < inject_Z p) by (change 0 with (inject_Z 0); by rewrite <- Zlt_Qlt).
  field. lra.
Qed.

(** X7. The estimate of the remaining time is [null] exactly when the job has
    no progress yet, otherwise a number of seconds that is never negative,
    0 from 100 percent on, and not larger for a job that has come further
    in the same time. *)
Theorem time_remaining_is_sound (progress elapsedTime : Z) :
  (0 ≤ elapsedTime)%Z →
  (estimateTimeRemaining progress elapsedTime = None ↔ progress = 0%Z)
  ∧ (∀ r, estimateTimeRemaining progress elapsedTime = Some r → (0 ≤ r)%Z)
  ∧ ((100 ≤ progress)%Z → estimateTimeRemaining progress elapsedTime = Some 0%Z)
  ∧ (∀ later r r',
       (0 < progress ≤ later)%Z →
       estimateTimeRemaining progress elapsedTime = Some r →
       estimateTimeRemaining later elapsedTime = Some r' →
       (r' ≤ r)%Z).
Proof.
  intros He.
  assert (0 <= inject_Z elapsedTime) as HeQ
    by (change 0 with (inject_Z 0); by rewrite <- Zle_Qle).
  unfold estimateTimeRemaining. repeat split.
  - destruct (Z.eqb_spec progress 0); [done|discriminate].
  - intros ->. done.
  - intros r. destruct (Z.eqb_spec progress 0); [done|]. intros [= <-]. lia.
  - intros Hp. destruct (Z.eqb_spec progress 0); [lia|]. f_equal.
    apply Z.max_l, Math_round_nonpos.
    rewrite remaining_formula by lia.
    assert (100 <= inject_Z progress) as HpQ
      by (change 100 with (inject_Z 100); by rewrite <- Zle_Qle).
    assert (0 < / (inject_Z progress * 1000)) by (apply Qinv_lt_0_compat; lra).
    unfold Qdiv. set (i := / (inject_Z progress * 1000)) in *.
    assert (inject_Z elapsedTime * (100 - inject_Z progress) <= 0) by nra.
    nra.
  - intros later r r' [Hp Hl].
    destruct (Z.eqb_spec progress 0); [lia|].
    destruct (Z.eqb_spec later 0); [lia|].
    intros [= <-] [= <-]. apply Z.max_le_compat_l, Math_round_le.
    rewrite !remaining_formula by lia.
    assert (0 < inject_Z progress) as HpQ
      by (change 0 with (inject_Z 0); by rewrite <- Zlt_Qlt).
    assert (inject_Z progress <= inject_Z later) as HlQ by (by rewrite <- Zle_Qle).
    set (a := inject_Z elapsedTime) in *. set (p := inject_Z progress) in *.
    set (q := inject_Z later) in *.
    apply Qle_shift_div_l; [lra|].
    assert (a * (100 - q) / (q * 1000) * (p * 1000) == a * ((100 - q) * p / q)) as E
      by (field; lra).
    rewrite E. clear E.
    assert ((100 - q) * p / q <= 100 - p).
    { apply Qle_shift_div_r; [lra|]. nra. }
    nra.
Qed.

Lemma Qfloor_unique (y : Q) (k : Z) :
  inject_Z k <= y → y < inject_Z (k + 1) → Qfloor y = k.
Proof.
  intros Hlo Hhi.
  assert (H1 := Qfloor_resp_le _ _ Hlo). rewrite Qfloor_Z in H1.
  assert (H2 := Qfloor_le y).
  assert (inject_Z (Qfloor y) < inject_Z (k + 1)) as H3 by lra.
  rewrite <- Zlt_Qlt in H3. lia.
Qed.

Lemma Qfloor_bounds (x : Q) :
  inject_Z (Qfloor x) <= x ∧ x < inject_Z (Qfloor x + 1).
Proof. split; [apply Qfloor_le|apply Qlt_floor]. Qed.

Lemma Qfloor_div_pos (x : Q) (n : positive) :
  Qfloor (x / (Z.pos n # 1)) = (Qfloor x / Z.pos n)%Z.
Proof.
  change (Z.pos n # 1) with (inject_Z (Z.pos n)).
  destruct (Qfloor_bounds x) as [Hlo Hhi].
  set (t := Qfloor x) in *. set (m := Z.pos n).
  assert (0 < inject_Z m) as Hm by done.
  pose proof (Z.div_mod t m ltac:(done)) as Hdm.
  pose proof (Z.mod_pos_bound t m ltac:(done)) as Hmod.
  apply Qfloor_unique.
  - apply Qle_shift_div_l; [done|].
    rewrite <- inject_Z_mult. 
    assert (inject_Z (t / m * m) <= inject_Z t) by (rewrite <- Zle_Qle; lia). lra.
  - apply Qlt_shift_div_r; [done|].
    rewrite <- inject_Z_mult.
    assert (inject_Z (t + 1) <= inject_Z ((t / m + 1) * m)) by (rewrite <- Zle_Qle; lia).
    rewrite inject_Z_plus in *. simpl in *. lra.
Qed.

Lemma Qfloor_minus_Z (x : Q) (z : Z) :
  Qfloor (x - inject_Z z) = (Qfloor x - z)%Z.
Proof.
  destruct (Qfloor_bounds x) as [Hlo Hhi].
  apply Qfloor_unique.
  - unfold Z.sub. rewrite inject_Z_plus, inject_Z_opp. lra.
  - replace (Qfloor x - z + 1)%Z with ((Qfloor x + 1) + - z)%Z by lia.
    rewrite inject_Z_plus, inject_Z_opp. lra.
Qed.

Lemma truncate_nonneg (x : Q) : 0 <= x → truncate x = Qfloor x.
Proof.
  intros Hx. unfold truncate, Qfloor. destruct x as [n d]. simpl.
  assert (0 ≤ n)%Z.
  { unfold Qle in Hx. simpl in Hx. lia. }
  by rewrite Z.quot_div_nonneg by lia.
Qed.

Lemma js_rem_nonneg (x : Q) (m : positive) :
  0 <= x → js_rem x m == x - inject_Z (Z.pos m * (Qfloor x / Z.pos m)).
Proof.
  intros Hx. unfold js_rem.
  change (inject_Z (Z.pos m)) with (Z.pos m # 1) at 2.
  rewrite truncate_nonneg, Qfloor_div_pos, inject_Z_mult; [done|].
  apply Qle_shift_div_l; [done|]. lra.
Qed.

#[local] Instance Qfloor_proper : Proper (Qeq ==> eq) Qfloor.
Proof. intros x y E. by apply Qfloor_comp. Qed.

Lemma string_length_app (s1 s2 : string) :
  String.length (s1 +:+ s2) = (String.length s1 + String.length s2)%nat.
Proof. induction s1 as [|c s1 IH]; simpl; [done|]. by rewrite IH. Qed.

Lemma twoDigits_length (n : Z) :
  (0 ≤ n < 100)%Z → String.length (twoDigits n) = 2%nat.
Proof.
  intros Hn.
  assert (Forall (λ k, String.length (twoDigits (Z.of_nat k)) = 2%nat) (seq 0 100)) as Hall.
  { apply list.Forall_forall. intros k Hk.
    assert (forallb (λ k, Nat.eqb (String.length (twoDigits (Z.of_nat k))) 2) (seq 0 100) = true)
      as Hb by (by vm_compute).
    rewrite forallb_forall in Hb. apply Nat.eqb_eq, Hb.
    by apply list_elem_of_In. }
  rewrite list.Forall_forall in Hall.
  specialize (Hall (Z.to_nat n)). rewrite Z2Nat.id in Hall by lia.
  apply Hall. apply elem_of_seq. lia.
Qed.

(** X8. The timestamp of a time that is not negative is the clock reading
    of its whole seconds: [[MM:SS]] below one hour, seven characters long,
    and [[HH:MM:SS]] from one hour on, ten characters long below a hundred
    hours, with minutes and seconds below 60. *)
Theorem timestamp_is_clock_of_whole_seconds (seconds : Q) :
  0 <= seconds →
  let t := Qfloor seconds in
  formatTimestamp seconds = clock t
  ∧ ((t < 3600)%Z → String.length (formatTimestamp seconds) = 7%nat)
  ∧ ((3600 ≤ t < 360000)%Z → String.length (formatTimestamp seconds) = 10%nat).
Proof.
  intros Hs t.
  assert (0 ≤ t)%Z as Ht.
  { pose proof (Qfloor_resp_le _ _ Hs) as H. by change (Qfloor 0) with 0%Z in H. }
  assert (formatTimestamp seconds = clock t) as Hclock.
  { unfold formatTimestamp, clock.
    rewrite !js_rem_nonneg by done.
    rewrite (Qfloor_div_pos seconds 3600).
    rewrite (Qfloor_div_pos _ 60), !Qfloor_minus_Z. fold t.
    replace (t - 3600 * (t / 3600))%Z with (t mod 3600)%Z
      by (pose proof (Z.div_mod t 3600); lia).
    replace (t - 60 * (t / 60))%Z with (t mod 60)%Z
      by (pose proof (Z.div_mod t 60); lia).
    destruct (Z.ltb_spec 0 (t / 3600)) as [Hh|Hh];
      destruct (Z.leb_spec 3600 t) as [Ht'|Ht']; try done.
    - rewrite Z.div_small in Hh by lia. lia.
    - assert (0 < t / 3600)%Z by (apply Z.div_str_pos; lia). lia.
    - by rewrite (Z.mod_small t 3600) by lia. }
  split; [done|]. rewrite Hclock. unfold clock.
  pose proof (Z.mod_pos_bound t 60 ltac:(done)).
  pose proof (Z.mod_pos_bound t 3600 ltac:(done)).
  split; intros Hr.
  - destruct (Z.leb_spec 3600 t); [lia|].
    assert (0 ≤ t / 60 < 100)%Z.
    { split; [apply Z.div_pos; lia|apply Z.div_lt_upper_bound; lia]. }
    rewrite !string_length_app, !twoDigits_length by lia. done.
  - destruct (Z.leb_spec 3600 t); [|lia].
    assert (0 ≤ t / 3600 < 100)%Z.
    { split; [apply Z.div_pos; lia|apply Z.div_lt_upper_bound; lia]. }
    assert (0 ≤ t mod 3600 / 60 < 100)%Z.
    { split; [apply Z.div_pos; lia|apply Z.div_lt_upper_bound; lia]. }
    rewrite !string_length_app, !twoDigits_length by lia. done.
Qed.

Lemma timestamp_is_clock_of_whole_seconds_witness :
  let t := Qfloor (7384 # 2) in
  formatTimestamp (7384 # 2) = clock t
  ∧ ((t < 3600)%Z → String.length (formatTimestamp (7384 # 2)) = 7%nat)
  ∧ ((3600 ≤ t < 360000)%Z → String.length (formatTimestamp (7384 # 2)) = 10%nat).
Proof. apply (timestamp_is_clock_of_whole_seconds (7384 # 2)). by vm_compute. Defined.

Lemma time_remaining_is_sound_witness :
  (estimateTimeRemaining 40 90000 = None ↔ 40%Z = 0%Z)
  ∧ (∀ r, estimateTimeRemaining 40 90000 = Some r → (0 ≤ r)%Z)
  ∧ ((100 ≤ 40)%Z → estimateTimeRemaining 40 90000 = Some 0%Z)
  ∧ (∀ later r r',
       (0 < 40 ≤ later)%Z →
       estimateTimeRemaining 40 90000 = Some r →
       estimateTimeRemaining later 90000 = Some r' →
       (r' ≤ r)%Z).
Proof. apply (time_remaining_is_sound 40 90000). lia. Defined.

Section average.
Context {X : Type} (f : X → Q).

Lemma foldl_sumQ (l : list X) (a : Q) :
  foldl (λ sum x, sum + f x) a l == a + sumQ (f <$> l).
Proof.
  revert a. induction l as [|x l IH]; intros a; simpl; [lra|].
  rewrite IH. unfold sumQ. simpl. symmetry. apply Qplus_assoc.
Qed.

Lemma sumQ_bounds (l : list X) (lo hi : Q) :
  (∀ x, x ∈ l → lo <= f x ∧ f x <= hi) →
  lo * inject_Z (Z.of_nat (length l)) <= sumQ (f <$> l)
  ∧ sumQ (f <$> l) <= hi * inject_Z (Z.of_nat (length l)).
Proof.
  induction l as [|x l IH]; intros H.
  - change (lo * 0 <= 0 ∧ 0 <= hi * 0). lra.
  - destruct IH as [IH1 IH2]; [intros y Hy; apply H; by right|].
    destruct (H x) as [H1 H2]; [by left|].
    cbn [length fmap list_fmap sumQ foldr]. fold (sumQ (f <$> l)).
    rewrite Nat2Z.inj_succ. unfold Z.succ. rewrite inject_Z_plus.
    change (inject_Z 1) with 1.
    set (n := inject_Z (Z.of_nat (length l))) in *.
    set (t := sumQ (f <$> l)) in *. split; nra.
Qed.
End average.



Section built.
Context (g : Speaker → SpeakerStat).

Let store (stats : gmap string SpeakerStat) (speaker_ : Speaker) :=
  <[sp_id speaker_ := g speaker_]> stats.

Lemma stored_elsewhere (speakers : list Speaker) stats k :
  k ∉ sp_id <$> speakers → foldl store stats speakers !! k = stats !! k.
Proof.
  revert stats. induction speakers as [|s rest IH]; intros stats Hk; [done|].
  simpl in *. apply not_elem_of_cons in Hk as [Hne Hk].
  rewrite IH by done. unfold store. by rewrite lookup_insert_ne.
Qed.

Lemma stored_speaker (speakers : list Speaker) stats sp :
  NoDup (sp_id <$> speakers) → sp ∈ speakers →
  foldl store stats speakers !! sp_id sp = Some (g sp).
Proof.
  revert stats. induction speakers as [|s rest IH]; intros stats Hnd Hsp.
  - by apply elem_of_nil in Hsp.
  - simpl in *. apply list.NoDup_cons in Hnd as [Hs Hnd].
    apply elem_of_cons in Hsp as [->|Hsp].
    + rewrite stored_elsewhere by done. unfold store. by rewrite lookup_insert_eq.
    + by apply IH.
Qed.
End built.

Section shares.
Context {X : Type} (key : X → option string).

Lemma share_none (ids : list string) k v :
  (∀ i, i ∈ ids → k ≠ Some i) → sumQ (shareOf k v <$> ids) == 0.
Proof.
  induction ids as [|i ids IH]; intros H; [done|].
  cbn [fmap list_fmap sumQ foldr]. fold (sumQ (shareOf k v <$> ids)).
  rewrite IH by (intros j Hj; apply H; by right).
  unfold shareOf. destruct (decide (k = Some i)) as [E|_]; [|lra].
  destruct (H i); [by left|done].
Qed.

Lemma share_one (ids : list string) k v i :
  NoDup ids → i ∈ ids → k = Some i → sumQ (shareOf k v <$> ids) == v.
Proof.
  intros Hnd Hi ->. induction ids as [|j ids IH]; [by apply elem_of_nil in Hi|].
  apply list.NoDup_cons in Hnd as [Hj Hnd].
  cbn [fmap list_fmap sumQ foldr]. fold (sumQ (shareOf (Some i) v <$> ids)).
  apply elem_of_cons in Hi as [->|Hi].
  - rewrite share_none by (intros i' Hi' [= ->]; done).
    unfold shareOf. rewrite decide_True by done. lra.
  - rewrite IH by done. unfold shareOf.
    rewrite decide_False; [lra|]. intros [= ->]. done.
Qed.

Lemma share_at_most (ids : list string) k v :
  NoDup ids → 0 <= v →
  0 <= sumQ (shareOf k v <$> ids) ∧ sumQ (shareOf k v <$> ids) <= v.
Proof.
  intros Hnd Hv.
  destruct k as [i|].
  - destruct (decide (i ∈ ids)) as [Hi|Hi].
    + rewrite (share_one ids (Some i) v i) by done. lra.
    + rewrite share_none; [lra|]. intros j Hj [= ->]. done.
  - rewrite share_none; [lra|]. done.
Qed.

Context (f : X → Q).

Lemma part_cons x l i :
  partOf key f (x :: l) i == shareOf (key x) (f x) i + partOf key f l i.
Proof.
  unfold partOf, shareOf. rewrite filter_cons.
  destruct (decide (key x = Some i)); simpl; [done|]. lra.
Qed.

Lemma parts_cons x l (ids : list string) :
  sumQ ((partOf key f (x :: l)) <$> ids)
  == sumQ (shareOf (key x) (f x) <$> ids) + sumQ (partOf key f l <$> ids).
Proof.
  induction ids as [|i ids IH]; [done|].
  cbn [fmap list_fmap sumQ foldr].
  fold (sumQ (partOf key f (x :: l) <$> ids)). fold (sumQ (partOf key f l <$> ids)).
  fold (sumQ (shareOf (key x) (f x) <$> ids)).
  rewrite IH, part_cons. lra.
Qed.

Lemma parts_none (ids : list string) : sumQ (partOf key f [] <$> ids) == 0.
Proof.
  induction ids as [|i ids IH]; [done|].
  cbn [fmap list_fmap sumQ foldr]. fold (sumQ (partOf key f [] <$> ids)).
  rewrite IH. unfold partOf. simpl. lra.
Qed.

(** Every element counts for exactly one id. *)
Lemma parts_make_whole (l : list X) (ids : list string) :
  NoDup ids → (∀ x, x ∈ l → ∃ i, i ∈ ids ∧ key x = Some i) →
  sumQ (partOf key f l <$> ids) == sumQ (f <$> l).
Proof.
  intros Hnd. induction l as [|x l IH]; intros Hall.
  - apply parts_none.
  - rewrite parts_cons, IH by (intros y Hy; apply Hall; by right).
    destruct (Hall x) as (i & Hi & Hk); [by left|].
    rewrite (share_one ids (key x) (f x) i) by done.
    cbn [fmap list_fmap sumQ foldr]. fold (sumQ (f <$> l)). lra.
Qed.

(** No element counts twice. *)
Lemma parts_within_whole (l : list X) (ids : list string) :
  NoDup ids → (∀ x, x ∈ l → 0 <= f x) →
  0 <= sumQ (partOf key f l <$> ids) ∧ sumQ (partOf key f l <$> ids) <= sumQ (f <$> l).
Proof.
  intros Hnd. induction l as [|x l IH]; intros Hall.
  - rewrite parts_none. simpl. lra.
  - rewrite parts_cons.
    destruct IH as [IH1 IH2]; [intros y Hy; apply Hall; by right|].
    destruct (share_at_most ids (key x) (f x) Hnd) as [H1 H2]; [apply Hall; by left|].
    cbn [fmap list_fmap sumQ foldr]. fold (sumQ (f <$> l)). lra.
Qed.

Lemma part_nonneg (l : list X) (i : string) :
  (∀ x, x ∈ l → 0 <= f x) → 0 <= partOf key f l i ∧ partOf key f l i <= sumQ (f <$> l).
Proof.
  induction l as [|x l IH]; intros Hall.
  - unfold partOf. simpl. lra.
  - rewrite part_cons.
    destruct IH as [IH1 IH2]; [intros y Hy; apply Hall; by right|].
    assert (0 <= f x) by (apply Hall; by left).
    cbn [fmap list_fmap sumQ foldr]. fold (sumQ (f <$> l)).
    unfold shareOf. destruct (decide _); lra.
Qed.
End shares.

Lemma sumQ_ext {X : Type} (a b : X → Q) (l : list X) :
  (∀ x, x ∈ l → a x == b x) → sumQ (a <$> l) == sumQ (b <$> l).
Proof.
  induction l as [|x l IH]; intros H; [done|].
  cbn [fmap list_fmap sumQ foldr]. fold (sumQ (a <$> l)). fold (sumQ (b <$> l)).
  rewrite IH by (intros y Hy; apply H; by right).
  rewrite (H x) by (by left). done.
Qed.

Lemma sumQ_nat {X : Type} (w : X → nat) (l : list X) :
  sumQ ((λ x, inject_Z (Z.of_nat (w x))) <$> l)
  == inject_Z (Z.of_nat (sum_list (w <$> l))).
Proof.
  induction l as [|x l IH]; [done|].
  change (inject_Z (Z.of_nat (w x)) + sumQ ((λ x, inject_Z (Z.of_nat (w x))) <$> l)
          == inject_Z (Z.of_nat (w x + sum_list (w <$> l)))).
  rewrite IH, Nat2Z.inj_add, inject_Z_plus. done.
Qed.

Lemma foldl_sum_list {X : Type} (w : X → nat) (l : list X) (a : nat) :
  foldl (λ sum x, (sum + w x)%nat) a l = (a + sum_list (w <$> l))%nat.
Proof.
  revert a. induction l as [|x l IH]; intros a.
  - change (a = (a + 0)%nat). lia.
  - change (foldl (λ sum x, (sum + w x)%nat) (a + w x)%nat l
            = (a + (w x + sum_list (w <$> l)))%nat).
    rewrite IH. lia.
Qed.

Lemma inOrder_total (segments : list DiarizedSegment) (t d : Q) :
  inOrderFrom t segments → t <= d →
  (∀ seg, seg ∈ segments → end_ (segment seg) <= d) →
  (∀ seg, seg ∈ segments → 0 <= lengthOf seg)
  ∧ sumQ (lengthOf <$> segments) <= d - t.
Proof.
  revert t. induction segments as [|seg rest IH]; intros t Hord Ht Hend.
  - split; [intros seg Hseg; by apply elem_of_nil in Hseg|]. simpl. lra.
  - destruct Hord as (H1 & H2 & Hrest).
    assert (end_ (segment seg) <= d) as H3 by (apply Hend; by left).
    destruct (IH _ Hrest H3) as [IH1 IH2]; [intros s Hs; apply Hend; by right|].
    split.
    + intros s Hs. apply elem_of_cons in Hs as [->|Hs]; [unfold lengthOf; lra|by apply IH1].
    + cbn [fmap list_fmap sumQ foldr]. fold (sumQ (lengthOf <$> rest)).
      unfold lengthOf at 1. lra.
Qed.


Lemma sumQ_scale {X : Type} (a : X → Q) (c : Q) (l : list X) :
  sumQ ((λ x, a x * c) <$> l) == sumQ (a <$> l) * c.
Proof.
  induction l as [|x l IH]; [done|].
  cbn [fmap list_fmap sumQ foldr].
  fold (sumQ ((λ x, a x * c) <$> l)). fold (sumQ (a <$> l)).
  rewrite IH. ring.
Qed.

Lemma js_div_nonzero (a b : Q) : ¬ b == 0 → js_div a b = Some (a / b).
Proof.
  intros Hb. unfold js_div. destruct (Qeq_bool b 0) eqn:E; [|done].
  by apply Qeq_bool_eq in E.
Qed.


Lemma conversation_speakers : NoDup (sp_id <$> r_speakers conversation).
Proof.
  simpl. apply list.NoDup_cons. split; [|apply NoDup_singleton].
  intros H%list_elem_of_singleton. discriminate.
Qed.



End ReportFacts.

(** ** More facts about [WhisperService] *)

Module WhisperMoreFacts.
Import Js JsFacts WhisperService WhisperFacts WhisperMore.

#[local] Open Scope Q_scope.

Lemma mergeRuns_head maxGap current rest :
  ∃ first others,
    mergeRuns maxGap current rest = first :: others ∧ start first = start current.
Proof.
  revert current. induction rest as [|next rest IH]; intros current; simpl.
  - by eexists _, _.
  - destruct (withinGap _ _ _).
    + destruct (IH (absorb current next)) as (f & o & -> & E). by eexists _, _.
    + by eexists _, _.
Qed.

Lemma mergeRuns_apart maxGap current rest :
  apart maxGap (mergeRuns maxGap current rest).
Proof.
  revert current. induction rest as [|next rest IH]; intros current; simpl.
  - done.
  - destruct (withinGap _ _ _) eqn:E; [apply IH|].
    specialize (IH next).
    destruct (mergeRuns_head maxGap next rest) as (f & o & Eq & Hs).
    rewrite Eq in *. simpl. unfold withinGap in *. by rewrite Hs.
Qed.

Lemma mergeRuns_fixed maxGap current rest :
  apart maxGap (current :: rest) → mergeRuns maxGap current rest = current :: rest.
Proof.
  revert current. induction rest as [|next rest IH]; intros current H; [done|].
  destruct H as [E H]. simpl. rewrite E. by rewrite IH.
Qed.

Lemma mergeRuns_length maxGap current rest :
  (length (mergeRuns maxGap current rest) ≤ S (length rest))%nat.
Proof.
  revert current. induction rest as [|next rest IH]; intros current; simpl; [done|].
  destruct (withinGap _ _ _); [specialize (IH (absorb current next))|specialize (IH next)];
    simpl; lia.
Qed.

Lemma reindex_lookup merged i s :
  reindex merged !! i = Some s →
  ∃ s0, merged !! i = Some s0
        ∧ s = mkSegment i (start s0) (end_ s0) (text s0) (confidence s0) (words s0).
Proof.
  unfold reindex. rewrite list_lookup_imap.
  destruct (merged !! i) as [s0|]; simpl; [|done].
  intros [= <-]. by exists s0.
Qed.

Lemma apart_lookup maxGap l :
  apart maxGap l ↔
  ∀ i a b, l !! i = Some a → l !! S i = Some b →
           withinGap maxGap a b = false.
Proof.
  induction l as [|a l IH]; [split; [intros _ i a b H; done|done]|].
  destruct IH as [IH1 IH2]. destruct l as [|b l].
  - split; [|done]. intros _ [|i] a' b' H1 H2; done.
  - split.
    + intros [E H] [|i] a' b' H1 H2.
      * simpl in *. by simplify_eq.
      * by apply (IH1 H i).
    + intros H. split; [by apply (H 0%nat)|].
      apply IH2. intros i a' b' H1 H2. by apply (H (S i)).
Qed.

Lemma reindex_apart maxGap l : apart maxGap l → apart maxGap (reindex l).
Proof.
  rewrite !apart_lookup. intros H i a b Ha Hb.
  apply reindex_lookup in Ha as (a0 & Ha & ->).
  apply reindex_lookup in Hb as (b0 & Hb & ->).
  change (withinGap maxGap a0 b0 = false). by eapply H.
Qed.

Lemma reindex_reindex l : reindex (reindex l) = reindex l.
Proof.
  apply list_eq. intros i. unfold reindex. rewrite !list_lookup_imap.
  by destruct (l !! i).
Qed.

(** X12. Merging leaves every two neighbours more than [maxGap] apart (on
    the doubles the code holds, which are the given numbers when these are
    doubles), so a second pass changes nothing; the result is never longer
    than the input. *)
Theorem merge_is_idempotent (segments : list Segment) (maxGap : Q) :
  let merged := mergeCloseSegments segments maxGap in
  (∀ i a b, merged !! i = Some a → merged !! S i = Some b →
            double maxGap < double (start b) - double (end_ a))
  ∧ (∀ i a b, merged !! i = Some a → merged !! S i = Some b →
       double maxGap == maxGap → double (start b) == start b →
       double (end_ a) == end_ a →
       maxGap < start b - end_ a)
  ∧ mergeCloseSegments merged maxGap = merged
  ∧ (length merged ≤ length segments)%nat
  ∧ (segments ≠ [] → merged ≠ []).
Proof.
  destruct segments as [|first rest].
  { cbn. repeat split; done. }
  intros merged.
  assert (merged = reindex (mergeRuns maxGap first rest)) as Hm.
  { unfold merged, mergeCloseSegments. by rewrite mergeLoop_runs. }
  clearbody merged. subst merged.
  pose proof (mergeRuns_apart maxGap first rest) as Hap.
  pose proof (reindex_apart _ _ Hap) as Hap'.
  destruct (mergeRuns_head maxGap first rest) as (f & o & Eq & Hs).
  assert (∀ i a b,
            reindex (mergeRuns maxGap first rest) !! i = Some a →
            reindex (mergeRuns maxGap first rest) !! S i = Some b →
            double maxGap < double (start b) - double (end_ a)) as Hgap.
  { intros i a b Ha Hb. rewrite apart_lookup in Hap'.
    specialize (Hap' i a b Ha Hb).
    by apply withinGap_false. }
  repeat split.
  - exact Hgap.
  - intros i a b Ha Hb Eg Es Ee. specialize (Hgap i a b Ha Hb).
    rewrite Eg, Es, Ee in Hgap. exact Hgap.
  - rewrite Eq in *. 
    assert (∃ f' o', reindex (f :: o) = f' :: o') as (f' & o' & Er) by (by eexists _, _).
    rewrite Er in *. unfold mergeCloseSegments.
    rewrite mergeLoop_runs, mergeRuns_fixed by done.
    rewrite <- Er. apply reindex_reindex.
  - rewrite reindex_length. simpl. apply mergeRuns_length.
  - rewrite Eq. done.
Qed.

Lemma string_app_assoc (a b c : string) : (a +:+ b) +:+ c = a +:+ (b +:+ c).
Proof.
  induction a as [|x a IH]; [done|].
  change (String x ((a +:+ b) +:+ c) = String x (a +:+ (b +:+ c))).
  by rewrite IH.
Qed.

Lemma joinTexts_absorb a b rest :
  joinTexts (absorb a b :: rest) = joinTexts (a :: b :: rest).
Proof.
  unfold joinTexts. destruct rest as [|c rest]; simpl; [done|].
  by rewrite !string_app_assoc.
Qed.

Lemma joinTexts_cons a l l' :
  joinTexts l = joinTexts l' → (l = [] ↔ l' = []) →
  joinTexts (a :: l) = joinTexts (a :: l').
Proof.
  unfold joinTexts. intros E Hn. destruct l as [|b l], l' as [|b' l']; simpl in *.
  - done.
  - destruct Hn as [Hn _]. by specialize (Hn eq_refl).
  - destruct Hn as [_ Hn]. by specialize (Hn eq_refl).
  - by rewrite E.
Qed.

Lemma mergeRuns_text maxGap current rest :
  joinTexts (mergeRuns maxGap current rest) = joinTexts (current :: rest).
Proof.
  revert current. induction rest as [|next rest IH]; intros current; [done|].
  simpl. destruct (withinGap _ _ _).
  - rewrite IH. apply joinTexts_absorb.
  - apply joinTexts_cons; [apply IH|].
    destruct (mergeRuns_head maxGap next rest) as (f & o & -> & _). done.
Qed.

Lemma reindex_text l : text <$> reindex l = text <$> l.
Proof.
  apply list_eq. intros i. unfold reindex.
  rewrite !list_lookup_fmap, list_lookup_imap. by destruct (l !! i).
Qed.

Lemma imap_words (f : nat → Segment → Segment) l :
  (∀ i s, words (f i s) = words s) → allWords (imap f l) = allWords l.
Proof.
  revert f. induction l as [|s l IH]; intros f Hf; [done|].
  unfold allWords in *. cbn. rewrite Hf. f_equal. apply IH. intros i s'. apply Hf.
Qed.

Lemma reindex_words l : allWords (reindex l) = allWords l.
Proof. by apply imap_words. Qed.

Lemma reindex_elem s l :
  s ∈ reindex l →
  ∃ s0, s0 ∈ l ∧ start s = start s0 ∧ end_ s = end_ s0 ∧ text s = text s0
        ∧ confidence s = confidence s0 ∧ words s = words s0.
Proof.
  intros (i & Hi)%list_elem_of_lookup_1.
  apply reindex_lookup in Hi as (s0 & Hs0 & ->).
  exists s0. split; [by eapply list_elem_of_lookup_2|done].
Qed.

Lemma reindex_head l : start <$> head (reindex l) = start <$> head l.
Proof. by destruct l. Qed.

Lemma reindex_last l : end_ <$> list.last (reindex l) = end_ <$> list.last l.
Proof.
  rewrite !last_lookup, reindex_length.
  destruct (reindex l !! _) as [s|] eqn:E.
  - apply reindex_lookup in E as (s0 & -> & ->). done.
  - unfold reindex in E. rewrite list_lookup_imap in E.
    by destruct (l !! _).
Qed.

Lemma mergeRuns_last maxGap current rest :
  end_ <$> list.last (mergeRuns maxGap current rest)
  = end_ <$> list.last (current :: rest).
Proof.
  revert current. induction rest as [|next rest IH]; intros current; [done|].
  simpl. destruct (withinGap _ _ _).
  - rewrite IH. by destruct rest.
  - destruct (mergeRuns_head maxGap next rest) as (f & o & Eq & _).
    specialize (IH next). rewrite Eq in *.
    rewrite !last_cons_cons. rewrite IH. by destruct rest.
Qed.

(** X13. Merging keeps the transcript: the texts joined by spaces read the same,
    and the result spans the same stretch of time. *)
Theorem merge_keeps_the_transcript (segments : list Segment) (maxGap : Q) :
  let merged := mergeCloseSegments segments maxGap in
  joinTexts merged = joinTexts segments
  ∧ start <$> head merged = start <$> head segments
  ∧ end_ <$> list.last merged = end_ <$> list.last segments.
Proof.
  destruct segments as [|first rest]; [done|].
  intros merged.
  assert (merged = reindex (mergeRuns maxGap first rest)) as Hm.
  { unfold merged, mergeCloseSegments. by rewrite mergeLoop_runs. }
  clearbody merged. subst merged.
  repeat split.
  - unfold joinTexts. rewrite reindex_text. apply mergeRuns_text.
  - rewrite reindex_head.
    destruct (mergeRuns_head maxGap first rest) as (f & o & -> & Hs).
    simpl. by rewrite Hs.
  - rewrite reindex_last. apply mergeRuns_last.
Qed.

Lemma mergeRuns_words maxGap current rest :
  (∀ s, s ∈ current :: rest → is_Some (words s)) →
  allWords (mergeRuns maxGap current rest) = allWords (current :: rest)
  ∧ ∀ s, s ∈ mergeRuns maxGap current rest → is_Some (words s).
Proof.
  revert current. induction rest as [|next rest IH]; intros current Hall.
  - split; [done|]. intros s Hs. apply Hall. done.
  - destruct (Hall current) as [ws Hws]; [by left|].
    destruct (Hall next) as [ws' Hws']; [by right; left|].
    simpl. destruct (withinGap _ _ _).
    + destruct (IH (absorb current next)) as [IH1 IH2].
      { intros s [->|Hs]%elem_of_cons.
        - unfold absorb. simpl. rewrite Hws, Hws'. by eexists.
        - apply Hall. by right; right. }
      split; [|done]. rewrite IH1. unfold allWords. cbn.
      rewrite Hws, Hws'. simpl. by rewrite <- app_assoc.
    + destruct (IH next) as [IH1 IH2].
      { intros s Hs. apply Hall. by right. }
      split.
      * unfold allWords in *. cbn. by rewrite IH1.
      * intros s [->|Hs]%elem_of_cons; [by eexists|by apply IH2].
Qed.

Lemma mergeRuns_confidence maxGap current rest lo hi :
  (∀ s, s ∈ current :: rest → lo <= confidence s ∧ confidence s <= hi) →
  ∀ s, s ∈ mergeRuns maxGap current rest → lo <= confidence s ∧ confidence s <= hi.
Proof.
  revert current. induction rest as [|next rest IH]; intros current Hall; [done|].
  simpl. destruct (withinGap _ _ _).
  - apply IH. intros s [->|Hs]%elem_of_cons.
    + destruct (Hall current); [by left|]. destruct (Hall next); [by right; left|].
      unfold absorb. simpl. split.
      * apply Qle_shift_div_l; [done|]. lra.
      * apply Qle_shift_div_r; [done|]. lra.
    + apply Hall. by right; right.
  - intros s [->|Hs]%elem_of_cons; [apply Hall; by left|].
    revert s Hs. apply IH. intros s Hs. apply Hall. by right.
Qed.

(** X14. When every segment has a word list (as [formatWhisperResponse] makes
    them) no word is lost or moved by the merge, and a merged confidence
    lies between the confidences it was made of. *)
Theorem merge_keeps_the_words (segments : list Segment) (maxGap lo hi : Q) :
  (∀ s, s ∈ segments → is_Some (words s)) →
  (∀ s, s ∈ segments → lo <= confidence s ∧ confidence s <= hi) →
  let merged := mergeCloseSegments segments maxGap in
  allWords merged = allWords segments
  ∧ ∀ s, s ∈ merged →
      is_Some (words s) ∧ lo <= confidence s ∧ confidence s <= hi.
Proof.
  intros Hw Hc. destruct segments as [|first rest].
  { split; [done|]. intros s Hs. by apply elem_of_nil in Hs. }
  intros merged.
  assert (merged = reindex (mergeRuns maxGap first rest)) as Hm.
  { unfold merged, mergeCloseSegments. by rewrite mergeLoop_runs. }
  clearbody merged. subst merged.
  destruct (mergeRuns_words maxGap first rest Hw) as [H1 H2].
  pose proof (mergeRuns_confidence maxGap first rest lo hi Hc) as H3.
  split; [by rewrite reindex_words|].
  intros s (s0 & Hs0 & _ & _ & _ & Ec & Ew)%reindex_elem.
  rewrite Ec, Ew. split; [by apply H2|by apply H3].
Qed.

Lemma merge_keeps_the_words_witness :
  let merged := mergeCloseSegments [firstSegment; closeSegment] 1000 in
  allWords merged = allWords [firstSegment; closeSegment]
  ∧ ∀ s, s ∈ merged →
      is_Some (words s) ∧ 0 <= confidence s ∧ confidence s <= 1.
Proof.
  apply (merge_keeps_the_words [firstSegment; closeSegment] 1000 0 1).
  - intros s Hs. repeat (apply elem_of_cons in Hs as [->|Hs]; [by eexists|]).
    by apply elem_of_nil in Hs.
  - intros s Hs. repeat (apply elem_of_cons in Hs as [->|Hs]; [by vm_compute|]).
    by apply elem_of_nil in Hs.
Defined.

(** *** Large files *)

Lemma Math_min_spec a b :
  (a <= b ∧ Math_min a b = a) ∨ (b < a ∧ Math_min a b = b).
Proof.
  unfold Math_min, Qlt_bool. destruct (Qle_bool a b) eqn:E; simpl.
  - left. by apply Qle_bool_iff in E.
  - right. split; [|done]. apply Qnot_le_lt. intros H.
    apply Qle_bool_iff in H. congruence.
Qed.

Lemma numChunks_bounds duration :
  0 < duration →
  (0 < numChunks duration)%Z
  ∧ inject_Z (numChunks duration - 1) * chunkDuration < duration
  ∧ duration <= inject_Z (numChunks duration) * chunkDuration.
Proof.
  intros Hd. unfold numChunks, Math_ceil.
  set (x := duration / chunkDuration).
  assert (0 < chunkDuration) as Hc by done.
  assert (0 < x) as Hx by (apply Qlt_shift_div_l; lra).
  pose proof (Qle_ceiling x) as H1. pose proof (Qceiling_lt x) as H2.
  assert (duration == x * chunkDuration) as E by (unfold x; field; lra).
  split; [|split].
  - assert (inject_Z 0 < inject_Z (Qceiling x)) as H
      by (change (inject_Z 0) with 0; lra).
    by rewrite <- Zlt_Qlt in H.
  - rewrite E. apply Qmult_lt_compat_r; done.
  - rewrite E at 1. apply Qmult_le_compat_r; [done|lra].
Qed.

(** X15. The chunks of a file of positive duration tile it: chunk [i] starts at
    [i] times twenty minutes, is not empty and not longer than twenty
    minutes, ends where the next one starts, and the last one ends with
    the audio. *)
Theorem chunks_tile_the_audio (duration : Q) :
  0 < duration →
  let chunks := makeChunks duration in
  chunks ≠ []
  ∧ ∀ i c, chunks !! i = Some c →
      startTime c == inject_Z (Z.of_nat i) * chunkDuration
      ∧ startTime c < endTime c
      ∧ endTime c - startTime c <= chunkDuration
      ∧ match chunks !! S i with
        | Some next => endTime c == startTime next
        | None => endTime c == duration
        end.
Proof.
  intros Hd chunks.
  destruct (numChunks_bounds duration Hd) as (Hn & Hlo & Hhi).
  unfold chunks, makeChunks. set (n := numChunks duration) in *.
  assert (0 < chunkDuration) as Hc by done.
  split.
  { destruct (Z.to_nat n) eqn:E; [lia|done]. }
  intros i c Hi. rewrite list_lookup_fmap in Hi.
  destruct (seq 0 (Z.to_nat n) !! i) as [k|] eqn:Hk; [|done].
  apply lookup_seq in Hk as [-> Hlt]. simpl in Hi. injection Hi as <-.
  simpl. set (s := inject_Z (Z.of_nat i) * chunkDuration).
  assert (s + chunkDuration == inject_Z (Z.of_nat (S i)) * chunkDuration) as Enext.
  { unfold s. rewrite Nat2Z.inj_succ. unfold Z.succ. rewrite inject_Z_plus.
    change (inject_Z 1) with 1. ring. }
  assert (inject_Z (Z.of_nat i) <= inject_Z (n - 1)) as Hin by (rewrite <- Zle_Qle; lia).
  assert (s < duration) as Hs.
  { eapply Qle_lt_trans; [|exact Hlo]. unfold s. by apply Qmult_le_compat_r; [|lra]. }
  split; [done|].
  rewrite list_lookup_fmap.
  destruct (Math_min_spec (s + chunkDuration) duration) as [[Hm ->]|[Hm ->]].
  - split; [lra|]. split; [lra|].
    destruct (seq 0 (Z.to_nat n) !! S i) as [k|] eqn:Hk; simpl.
    + apply lookup_seq in Hk as [-> _]. done.
    + apply lookup_ge_None in Hk. rewrite length_seq in Hk.
      assert (Z.of_nat (S i) = n) as En by lia.
      rewrite Enext, En in Hm. rewrite Enext, En. lra.
  - split; [done|]. split; [lra|].
    destruct (seq 0 (Z.to_nat n) !! S i) as [k|] eqn:Hk; simpl; [|done].
    apply lookup_seq in Hk as [-> Hlt'].
    assert (inject_Z (Z.of_nat (S i)) <= inject_Z (n - 1)) as Hin'
      by (rewrite <- Zle_Qle; lia).
    assert (inject_Z (Z.of_nat (S i)) * chunkDuration <= inject_Z (n - 1) * chunkDuration)
      by (by apply Qmult_le_compat_r; [|lra]).
    rewrite Enext in Hm. lra.
Qed.

Lemma chunks_tile_the_audio_witness :
  let chunks := makeChunks 3000 in
  chunks ≠ []
  ∧ ∀ i c, chunks !! i = Some c →
      startTime c == inject_Z (Z.of_nat i) * chunkDuration
      ∧ startTime c < endTime c
      ∧ endTime c - startTime c <= chunkDuration
      ∧ match chunks !! S i with
        | Some next => endTime c == startTime next
        | None => endTime c == 3000
        end.
Proof. apply (chunks_tile_the_audio 3000). by vm_compute. Defined.

Lemma allWords_app l l' : allWords (l ++ l') = allWords l ++ allWords l'.
Proof. unfold allWords. by rewrite bind_app. Qed.

Lemma shifted_ids startTime n ws :
  w_id <$> imap (λ i, shiftWord startTime (n + i)) ws = seq n (length ws).
Proof.
  revert n. induction ws as [|w ws IH]; intros n; [done|].
  cbn. rewrite Nat.add_0_r. f_equal.
  rewrite <- (IH (S n)). f_equal. apply imap_ext. intros i x _. simpl.
  f_equal. lia.
Qed.

Lemma addSegment_assembled startTime a seg :
  assembled a → assembled (addSegment startTime a seg).
Proof.
  intros [Hids Hw]. constructor; simpl.
  - rewrite fmap_app, Hids, length_app. simpl.
    rewrite Nat.add_1_r, seq_S. done.
  - rewrite allWords_app, fmap_app, Hw. unfold allWords at 1. simpl.
    rewrite app_nil_r. destruct (words seg) as [ws|]; simpl.
    + rewrite shifted_ids. by rewrite seq_app.
    + by rewrite Nat.add_0_r, app_nil_r.
Qed.

Lemma addChunk_assembled a result : assembled a → assembled (addChunk a result).
Proof.
  unfold addChunk. generalize (startTime result.1). intros t.
  revert a. induction (result.2) as [|seg segs IH]; intros a Ha; [done|].
  simpl. by apply IH, addSegment_assembled.
Qed.

Lemma assemble_assembled results : assembled (assemble results).
Proof.
  unfold assemble.
  assert (assembled (mkAssembly [] 0)) as H0 by (by constructor).
  revert H0. generalize (mkAssembly [] 0).
  induction results as [|r results IH]; intros a Ha; [done|].
  simpl. by apply IH, addChunk_assembled.
Qed.

Lemma addChunk_texts a result :
  text <$> allSegments (addChunk a result)
  = (text <$> allSegments a) ++ (text <$> result.2).
Proof.
  unfold addChunk. generalize (startTime result.1). intros t.
  revert a. induction (result.2) as [|seg segs IH]; intros a.
  - by rewrite app_nil_r.
  - simpl. rewrite IH. simpl. rewrite fmap_app. simpl. by rewrite <- app_assoc.
Qed.

Lemma assemble_texts_from a results :
  text <$> allSegments (foldl addChunk a results)
  = (text <$> allSegments a) ++ (text <$> chunkSegments results).
Proof.
  revert a. induction results as [|r results IH]; intros a.
  - by rewrite app_nil_r.
  - simpl. rewrite IH, addChunk_texts. unfold chunkSegments. cbn.
    rewrite fmap_app. by rewrite <- app_assoc.
Qed.

Lemma mergeCloseSegments_text segments maxGap :
  joinTexts (mergeCloseSegments segments maxGap) = joinTexts segments.
Proof.
  destruct segments as [|first rest]; [done|].
  unfold mergeCloseSegments. rewrite mergeLoop_runs.
  unfold joinTexts. rewrite reindex_text. apply mergeRuns_text.
Qed.

Lemma mergeCloseSegments_length segments maxGap :
  (length (mergeCloseSegments segments maxGap) ≤ length segments)%nat.
Proof.
  destruct segments as [|first rest]; [done|].
  unfold mergeCloseSegments. rewrite mergeLoop_runs, reindex_length.
  apply mergeRuns_length.
Qed.

Lemma mergeCloseSegments_words segments maxGap :
  (∀ s, s ∈ segments → is_Some (words s)) →
  allWords (mergeCloseSegments segments maxGap) = allWords segments.
Proof.
  intros Hw. destruct segments as [|first rest]; [done|].
  unfold mergeCloseSegments. rewrite mergeLoop_runs, reindex_words.
  by apply mergeRuns_words.
Qed.

Lemma addSegment_words_present startTime a seg :
  (∀ s, s ∈ allSegments a → is_Some (words s)) → is_Some (words seg) →
  ∀ s, s ∈ allSegments (addSegment startTime a seg) → is_Some (words s).
Proof.
  intros Ha [ws Hws] s. simpl. rewrite elem_of_app, list_elem_of_singleton.
  intros [Hs| ->]; [by apply Ha|]. simpl. rewrite Hws. by eexists.
Qed.

Lemma addChunk_words_present a result :
  (∀ s, s ∈ allSegments a → is_Some (words s)) →
  (∀ s, s ∈ result.2 → is_Some (words s)) →
  ∀ s, s ∈ allSegments (addChunk a result) → is_Some (words s).
Proof.
  unfold addChunk. generalize (startTime result.1). intros t.
  revert a. induction (result.2) as [|seg segs IH]; intros a Ha Hr; [done|].
  simpl. apply IH.
  - apply addSegment_words_present; [done|]. apply Hr. by left.
  - intros s Hs. apply Hr. by right.
Qed.

Lemma assemble_words_present_from a results :
  (∀ s, s ∈ allSegments a → is_Some (words s)) →
  (∀ s, s ∈ chunkSegments results → is_Some (words s)) →
  ∀ s, s ∈ allSegments (foldl addChunk a results) → is_Some (words s).
Proof.
  revert a. induction results as [|r results IH]; intros a Ha Hr; [done|].
  simpl. unfold chunkSegments in Hr. cbn in Hr. apply IH.
  - apply addChunk_words_present; [done|].
    intros s Hs. apply Hr. apply elem_of_app. by left.
  - intros s Hs. apply Hr. apply elem_of_app. by right.
Qed.

Lemma addChunk_wordId a result :
  wordId (addChunk a result) = (wordId a + sum_list (wordsOf <$> result.2))%nat.
Proof.
  unfold addChunk. generalize (startTime result.1). intros t.
  revert a. induction (result.2) as [|seg segs IH]; intros a.
  - change (wordId a = (wordId a + 0)%nat). lia.
  - change (wordId (foldl (addSegment t) (addSegment t a seg) segs)
            = (wordId a + (wordsOf seg + sum_list (wordsOf <$> segs)))%nat).
    rewrite IH. simpl. unfold wordsOf. lia.
Qed.

Lemma sum_list_fmap_app {X} (w : X → nat) l l' :
  sum_list (w <$> l ++ l') = (sum_list (w <$> l) + sum_list (w <$> l'))%nat.
Proof.
  induction l as [|x l IH]; [done|].
  change (w x + sum_list (w <$> l ++ l')
          = w x + sum_list (w <$> l) + sum_list (w <$> l'))%nat.
  rewrite IH. lia.
Qed.

Lemma assemble_wordId_from a results :
  wordId (foldl addChunk a results)
  = (wordId a + sum_list (wordsOf <$> chunkSegments results))%nat.
Proof.
  revert a. induction results as [|r results IH]; intros a.
  - change (wordId a = (wordId a + 0)%nat). lia.
  - change (wordId (foldl addChunk (addChunk a r) results)
            = (wordId a + sum_list (wordsOf <$> (r.2 ++ chunkSegments results)))%nat).
    rewrite IH, addChunk_wordId, sum_list_fmap_app. lia.
Qed.

(** X16. The transcript of a large file reads as the chunks in the order they
    were cut: the text is the segments' texts joined by spaces, the
    segments are numbered 0, 1, 2, ... before and after the merge, and
    when every segment of every chunk has a word list the words of the
    result are numbered through across the chunks. *)
Theorem large_file_reads_as_its_chunks (results : list (Chunk * list Segment)) :
  let assembly := assemble results in
  let result := largeFileResult results in
  result.1.1 = String.concat " " (text <$> chunkSegments results)
  ∧ id <$> allSegments assembly = seq 0 (length (chunkSegments results))
  ∧ id <$> result.1.2 = seq 0 (length result.1.2)
  ∧ (length result.1.2 ≤ length (chunkSegments results))%nat
  ∧ ((∀ s, s ∈ chunkSegments results → is_Some (words s)) →
     w_id <$> result.2 = seq 0 (length result.2)
     ∧ length result.2
       = sum_list (wordsOf <$> chunkSegments results)).
Proof.
  intros assembly result. unfold result, largeFileResult. simpl.
  pose proof (assemble_assembled results) as [Hids Hw].
  pose proof (assemble_texts_from (mkAssembly [] 0) results) as Ht.
  simpl in Ht. fold (assemble results) in Ht. fold assembly in Hids, Hw, Ht |- *.
  assert (length (allSegments assembly) = length (chunkSegments results)) as Hlen.
  { rewrite <- (length_fmap text), Ht. by rewrite length_fmap. }
  set (all := allSegments assembly) in *.
  pose proof (mergeCloseSegments_text all defaultMaxGap) as Htext.
  split; [|split; [|split; [|split]]].
  - rewrite Htext. unfold joinTexts. by rewrite Ht.
  - by rewrite Hids, Hlen.
  - destruct all as [|first rest]; [done|].
    unfold mergeCloseSegments. rewrite reindex_ids. by rewrite reindex_length.
  - rewrite <- Hlen. apply mergeCloseSegments_length.
  - intros Hall.
    assert (∀ s, s ∈ all → is_Some (words s)) as Hpresent.
    { apply (assemble_words_present_from (mkAssembly [] 0) results); [|done].
      intros s Hs. by apply elem_of_nil in Hs. }
    rewrite mergeCloseSegments_words by done.
    assert (length (allWords all) = wordId assembly) as Hcount.
    { rewrite <- (length_fmap w_id), Hw. by rewrite length_seq. }
    split; [by rewrite Hw, Hcount|].
    rewrite Hcount. apply (assemble_wordId_from (mkAssembly [] 0)).
Qed.

Lemma orderedFrom_snoc t l s :
  orderedFrom t l → lastEnd t l <= start s → start s <= end_ s →
  orderedFrom t (l ++ [s]).
Proof.
  revert t. induction l as [|x l IH]; intros t Hl Hs He.
  - simpl. unfold lastEnd in Hs. simpl in Hs. done.
  - destruct Hl as (H1 & H2 & H3). simpl. split; [done|]. split; [done|].
    apply IH; [done| |done].
    unfold lastEnd in *. rewrite last_cons in Hs.
    by destruct (list.last l).
Qed.

Lemma lastEnd_snoc t l s : lastEnd t (l ++ [s]) = end_ s.
Proof. unfold lastEnd. by rewrite last_snoc. Qed.

Lemma addSegments_ordered (st d t : Q) (a : Assembly) (segs : list Segment) :
  orderedFrom 0 (allSegments a) →
  lastEnd 0 (allSegments a) <= st + t →
  orderedFrom t segs → (∀ s, s ∈ segs → end_ s <= d) → t <= d →
  let a' := foldl (addSegment st) a segs in
  orderedFrom 0 (allSegments a') ∧ lastEnd 0 (allSegments a') <= st + d.
Proof.
  revert a t. induction segs as [|seg segs IH]; intros a t Ha Hlast Hord Hend Ht.
  - simpl. split; [done|]. lra.
  - destruct Hord as (H1 & H2 & H3). simpl.
    assert (end_ seg <= d) by (apply Hend; by left).
    apply (IH _ (end_ seg)).
    + simpl. apply orderedFrom_snoc; [done|simpl; lra|simpl; lra].
    + simpl. rewrite lastEnd_snoc. simpl. lra.
    + done.
    + intros s Hs. apply Hend. by right.
    + done.
Qed.

Lemma assemble_ordered_from (t : Q) a results :
  orderedFrom 0 (allSegments a) → lastEnd 0 (allSegments a) <= t →
  spacedFrom t results →
  orderedFrom 0 (allSegments (foldl addChunk a results)).
Proof.
  revert a t. induction results as [|r results IH]; intros a t Ha Hlast Hsp; [done|].
  destruct Hsp as (H1 & [H2 H3] & H4). simpl.
  assert (0 <= chunkDuration) as Hc by done.
  assert (lastEnd 0 (allSegments a) <= startTime r.1 + 0) as Hlast' by lra.
  destruct (addSegments_ordered (startTime r.1) chunkDuration 0 a r.2
              Ha Hlast' H2 H3 Hc) as [G1 G2].
  by apply (IH _ (startTime r.1 + chunkDuration)).
Qed.

Lemma spacedFrom_le (t t' : Q) results :
  t' <= t → spacedFrom t results → spacedFrom t' results.
Proof.
  intros Ht. destruct results as [|r results]; [done|].
  simpl. intros (? & ? & ?). split; [lra|done].
Qed.

Lemma spaced_chunks (duration : Q) (n i : nat) (segss : list (list Segment)) :
  Forall fitsChunk segss →
  spacedFrom (inject_Z (Z.of_nat i) * chunkDuration)
    (zip (chunkAt duration <$> seq i n) segss).
Proof.
  revert i segss. induction n as [|n IH]; intros i segss Hall; [done|].
  destruct segss as [|segs segss]; [done|].
  apply list.Forall_cons in Hall as [H1 H2].
  change (inject_Z (Z.of_nat i) * chunkDuration <= inject_Z (Z.of_nat i) * chunkDuration
          ∧ fitsChunk segs
          ∧ spacedFrom (inject_Z (Z.of_nat i) * chunkDuration + chunkDuration)
              (zip (chunkAt duration <$> seq (S i) n) segss)).
  split; [lra|]. split; [done|].
  apply (spacedFrom_le (inject_Z (Z.of_nat (S i)) * chunkDuration)); [|by apply IH].
  rewrite Nat2Z.inj_succ. unfold Z.succ. rewrite inject_Z_plus.
  change (inject_Z 1) with 1. lra.
Qed.

(** X17. Moving the segments of each chunk by the chunk's start keeps the whole
    in order: when the chunks are those of [makeChunks] and the segments of
    each chunk are in order and within its twenty minutes, the assembled
    segments are in order from 0 on. *)
Theorem shifted_segments_stay_in_order (duration : Q)
    (segss : list (list Segment)) :
  Forall fitsChunk segss →
  orderedFrom 0 (allSegments (assemble (zip (makeChunks duration) segss))).
Proof.
  intros Hall. unfold assemble.
  apply (assemble_ordered_from 0); [done|done|].
  apply (spaced_chunks duration _ 0 segss Hall).
Qed.

Lemma shifted_segments_stay_in_order_witness :
  orderedFrom 0
    (allSegments (assemble (zip (makeChunks 3000)
       [[mkSegment 0 0 700 "satu" (8 # 10) (Some []);
         mkSegment 1 (1401 # 2) 1199 "dua" (8 # 10) (Some [])];
        [mkSegment 0 (1 # 2) 5 "tiga" (8 # 10) (Some [])]]))).
Proof.
  apply (shifted_segments_stay_in_order 3000).
  repeat (apply list.Forall_cons; split); [| |done].
  - split; [simpl; repeat split; by vm_compute|].
    intros s Hs. repeat (apply elem_of_cons in Hs as [->|Hs]; [by vm_compute|]).
    by apply elem_of_nil in Hs.
  - split; [simpl; repeat split; by vm_compute|].
    intros s Hs. repeat (apply elem_of_cons in Hs as [->|Hs]; [by vm_compute|]).
    by apply elem_of_nil in Hs.
Defined.

(** *** Language codes *)

Lemma beforeHyphen_clean s : hasHyphen (beforeHyphen s) = false.
Proof.
  induction s as [|c s IH]; [done|]. simpl.
  destruct (Ascii.eqb c "-") eqn:E; [done|]. simpl. by rewrite E.
Qed.

Lemma beforeHyphen_fixed s : hasHyphen s = false → beforeHyphen s = s.
Proof.
  induction s as [|c s IH]; [done|]. simpl.
  destruct (Ascii.eqb c "-"); [done|]. simpl. intros H. by rewrite IH.
Qed.

Lemma property_hyphen key code :
  property languageMap key = Some code →
  hasHyphen key = true ∧ code ∈ supportedLanguages ∧ hasHyphen code = false
  ∧ code ≠ EmptyString.
Proof.
  unfold languageMap. cbn [property].
  repeat match goal with
         | |- context [String.eqb ?k key] =>
             destruct (String.eqb_spec k key) as [<-|_];
             [intros [= <-]; repeat split; try done; set_solver|]
         end.
  done.
Qed.

Lemma property_none key : hasHyphen key = false → property languageMap key = None.
Proof.
  intros H. destruct (property languageMap key) as [code|] eqn:E; [|done].
  apply property_hyphen in E as [E _]. congruence.
Qed.

Lemma supported_not_inherited code :
  code ∈ supportedLanguages → code ∉ inheritedNames.
Proof.
  unfold supportedLanguages. intros H.
  repeat (apply elem_of_cons in H as [->|H];
          [apply (bool_decide_eq_true_1 _); by vm_compute|]).
  by apply elem_of_nil in H.
Qed.

(** X18. Unless the option is the name of an inherited property, the code
    handed to the API is a non-empty string without a hyphen, and a mapped
    language gives a supported code.  Handed in again, the code comes back
    as it is, with one exception: a code that is itself the name of an
    inherited property (['constructor'] from ['constructor-x']) gives that
    property, no string. *)
Theorem language_code_is_a_primary_tag (language : string) :
  language ∉ inheritedNames →
  ∃ code,
    extractLanguageCode language = Str code
    ∧ code ≠ EmptyString ∧ hasHyphen code = false
    ∧ (is_Some (property languageMap language) → code ∈ supportedLanguages)
    ∧ (is_Some (property languageMap language) → code ∉ inheritedNames)
    ∧ extractLanguageCode code
      = if bool_decide (code ∈ inheritedNames) then Inherited code else Str code.
Proof.
  intros Hlang. unfold extractLanguageCode at 1.
  assert (∀ code, code ≠ EmptyString → hasHyphen code = false →
            extractLanguageCode code
            = if bool_decide (code ∈ inheritedNames) then Inherited code
              else Str code) as Hfix.
  { intros code Hne Hh. unfold extractLanguageCode.
    rewrite property_none by done. case_bool_decide; [done|].
    rewrite beforeHyphen_fixed by done. by destruct code. }
  destruct (property languageMap language) as [code|] eqn:E.
  - apply property_hyphen in E as (H1 & H2 & H3 & H4).
    exists code. repeat split; try done; [|by apply Hfix].
    intros _. by apply supported_not_inherited.
  - rewrite bool_decide_eq_false_2 by done.
    pose proof (beforeHyphen_clean language) as Hclean.
    destruct (beforeHyphen language) as [|c rest] eqn:Eb.
    + exists "id". repeat split; try done; intros [? ?]; done.
    + exists (String c rest).
      repeat split; first [done|intros [? ?]; done|by apply Hfix].
Qed.

Lemma language_code_is_a_primary_tag_witness :
  ∃ code,
    extractLanguageCode "constructor-x" = Str code
    ∧ code ≠ EmptyString ∧ hasHyphen code = false
    ∧ (is_Some (property languageMap "constructor-x") → code ∈ supportedLanguages)
    ∧ (is_Some (property languageMap "constructor-x") → code ∉ inheritedNames)
    ∧ extractLanguageCode code
      = if bool_decide (code ∈ inheritedNames) then Inherited code else Str code.
Proof.
  apply (language_code_is_a_primary_tag "constructor-x").
  unfold inheritedNames. intros H.
  repeat (apply elem_of_cons in H as [H|H]; [discriminate|]).
  by apply elem_of_nil in H.
Defined.

(** The exception at work, and the usual case beside it. *)
Lemma language_code_examples :
  extractLanguageCode "constructor-x" = Str "constructor"
  ∧ extractLanguageCode "constructor" = Inherited "constructor"
  ∧ extractLanguageCode "en-AU" = Str "en"
  ∧ extractLanguageCode "en" = Str "en"
  ∧ extractLanguageCode "id-ID" = Str "id"
  ∧ extractLanguageCode "" = Str "id".
Proof. by vm_compute. Qed.

End WhisperMoreFacts.

(** ** More facts about [SpeakerDiarizationService] *)

Module DiarizationMoreFacts.
Import Js JsFacts WhisperService SpeakerDiarizationService DiarizationFacts
  TranscriptionReport ReportFacts WhisperMore DiarizationMore.

#[local] Open Scope Q_scope.

Lemma Math_sqrt_nonneg x : 0 <= Math_sqrt x.
Proof.
  unfold Math_sqrt, Qle. simpl. rewrite Z.mul_1_r. apply Z.sqrt_nonneg.
Qed.

Lemma calculateDistance_nonneg v1 v2 : 0 <= calculateDistance v1 v2.
Proof. apply Math_sqrt_nonneg. Qed.

Lemma nearestOf_step feature seen state c :
  nearestOf feature seen state →
  nearestOf feature (seen ++ [c])
    (let '(nearestIndex, minDistance, i) := state in
     let distance := calculateDistance feature c in
     if Qlt_bool distance minDistance
     then (i, distance, S i)
     else (nearestIndex, minDistance, S i)).
Proof.
  destruct state as [[ni md] i]. intros (-> & (c0 & Hc0 & ->) & Hall & Hbefore).
  simpl. destruct (Qlt_bool _ _) eqn:E.
  - apply Qlt_bool_iff in E. repeat split.
    + rewrite length_app. simpl. lia.
    + exists c. split; [|done]. by rewrite lookup_app_r, Nat.sub_diag.
    + intros j c' Hj. apply lookup_app_Some in Hj as [Hj|[_ Hj]].
      * specialize (Hall j c' Hj). lra.
      * apply list_lookup_singleton_Some in Hj as [_ <-]. lra.
    + intros j c' Hlt Hj. rewrite lookup_app_l in Hj by done.
      specialize (Hall j c' Hj). lra.
  - apply Qlt_bool_false in E. repeat split.
    + rewrite length_app. simpl. lia.
    + exists c0. split; [|done]. apply lookup_app_l_Some. done.
    + intros j c' Hj. apply lookup_app_Some in Hj as [Hj|[_ Hj]].
      * by apply (Hall j).
      * apply list_lookup_singleton_Some in Hj as [_ <-]. done.
    + intros j c' Hlt Hj.
      assert (ni < length seen)%nat by (by eapply lookup_lt_Some).
      rewrite lookup_app_l in Hj by lia. by apply (Hbefore j).
Qed.

Lemma nearestOf_loop feature seen state rest :
  nearestOf feature seen state →
  nearestOf feature (seen ++ rest)
    (foldl (λ '(nearestIndex, minDistance, i) c,
              let distance := calculateDistance feature c in
              if Qlt_bool distance minDistance
              then (i, distance, S i)
              else (nearestIndex, minDistance, S i)) state rest).
Proof.
  revert seen state. induction rest as [|c rest IH]; intros seen state H.
  - by rewrite app_nil_r.
  - simpl. replace (seen ++ c :: rest) with ((seen ++ [c]) ++ rest)
      by (by rewrite <- app_assoc).
    apply IH. destruct state as [[ni md] i]. by apply (nearestOf_step feature seen (ni, md, i)).
Qed.

(** X19. [findNearestCentroid] returns the index of a centroid at the
    least distance from the feature, the first of them. *)
Theorem nearest_centroid_is_nearest (feature : Vector) (centroids : list Vector) :
  centroids ≠ [] →
  ∃ c, centroids !! findNearestCentroid feature centroids = Some c
       ∧ (∀ j c', centroids !! j = Some c' →
            calculateDistance feature c <= calculateDistance feature c')
       ∧ (∀ j c', (j < findNearestCentroid feature centroids)%nat →
            centroids !! j = Some c' →
            calculateDistance feature c < calculateDistance feature c').
Proof.
  intros Hne. destruct centroids as [|c0 rest]; [done|].
  unfold findNearestCentroid.
  assert (nearestOf feature [c0] (0%nat, calculateDistance feature c0, 1%nat)) as H0.
  { repeat split.
    - by exists c0.
    - intros [|j] c Hj; [|done]. simpl in Hj. injection Hj as <-. lra.
    - intros j c Hj. lia. }
  pose proof (nearestOf_loop feature [c0] _ rest H0) as H.
  simpl in H. destruct (foldl _ _ rest) as [[ni md] i].
  destruct H as (_ & (c & Hc & ->) & Hall & Hbefore). simpl.
  exists c. done.
Qed.

Lemma nearest_centroid_is_nearest_witness :
  ∃ c, [mkVector 1 2 150 50 1000; mkVector 101 2 150 50 1000]
         !! findNearestCentroid (mkVector 2 2 150 50 1000)
              [mkVector 1 2 150 50 1000; mkVector 101 2 150 50 1000] = Some c
       ∧ (∀ j c', [mkVector 1 2 150 50 1000; mkVector 101 2 150 50 1000] !! j = Some c' →
            calculateDistance (mkVector 2 2 150 50 1000) c
            <= calculateDistance (mkVector 2 2 150 50 1000) c')
       ∧ (∀ j c', (j < findNearestCentroid (mkVector 2 2 150 50 1000)
                          [mkVector 1 2 150 50 1000; mkVector 101 2 150 50 1000])%nat →
            [mkVector 1 2 150 50 1000; mkVector 101 2 150 50 1000] !! j = Some c' →
            calculateDistance (mkVector 2 2 150 50 1000) c
            < calculateDistance (mkVector 2 2 150 50 1000) c').
Proof.
  apply (nearest_centroid_is_nearest (mkVector 2 2 150 50 1000)
           [mkVector 1 2 150 50 1000; mkVector 101 2 150 50 1000]).
  done.
Defined.

Lemma findNearestCentroid_lt feature centroids :
  centroids ≠ [] → (findNearestCentroid feature centroids < length centroids)%nat.
Proof.
  intros Hne. destruct centroids as [|c0 rest]; [done|].
  unfold findNearestCentroid.
  assert (nearestOf feature [c0] (0%nat, calculateDistance feature c0, 1%nat)) as H0.
  { repeat split.
    - by exists c0.
    - intros [|j] c Hj; [|done]. simpl in Hj. injection Hj as <-. lra.
    - intros j c Hj. lia. }
  pose proof (nearestOf_loop feature [c0] _ rest H0) as H.
  simpl in H. destruct (foldl _ _ rest) as [[ni md] i].
  destruct H as (_ & (c & Hc & _) & _). by apply lookup_lt_Some in Hc.
Qed.

Lemma randomCentroid_total features rng : ∃ c rng', randomCentroid features rng = (c, rng').
Proof. destruct (randomCentroid features rng) as [c rng']. by eexists _, _. Qed.

Lemma initializeCentroids_length features k rng :
  length (initializeCentroids features k rng).1 = k.
Proof.
  revert rng. induction k as [|k IH]; intros rng; [done|].
  simpl. destruct (randomCentroid features rng) as [c rng1].
  specialize (IH rng1). destruct (initializeCentroids features k rng1) as [cs rng2].
  simpl in *. by rewrite IH.
Qed.

Lemma updateCentroidsFrom_length features assignments i n rng :
  length (updateCentroidsFrom features assignments i n rng).1 = n.
Proof.
  revert i rng. induction n as [|n IH]; intros i rng; [done|].
  simpl.
  destruct (match assignedTo features assignments i with
            | [] => randomCentroid features rng
            | _ :: _ => (meanOf (assignedTo features assignments i), rng)
            end) as [c rng1].
  specialize (IH (S i) rng1).
  destruct (updateCentroidsFrom features assignments (S i) n rng1) as [cs rng2].
  simpl in *. by rewrite IH.
Qed.

Lemma iterate_result fuel features k centroids assignments rng :
  length centroids = k →
  (fuel ≠ 0%nat ∨ ∃ cs, length cs = k ∧ assignments = nearestTo features cs) →
  let '(centroids', assignments', _) :=
    iterate fuel features k centroids assignments rng in
  length centroids' = k
  ∧ ∃ cs, length cs = k ∧ assignments' = nearestTo features cs.
Proof.
  revert centroids assignments rng.
  induction fuel as [|fuel IH]; intros centroids assignments rng Hlen Hor.
  - simpl. destruct Hor as [?|?]; done.
  - simpl. fold (nearestTo features centroids).
    pose proof (updateCentroidsFrom_length features (nearestTo features centroids) 0 k rng) as Hup.
    unfold updateCentroids.
    destruct (updateCentroidsFrom features (nearestTo features centroids) 0 k rng)
      as [newCentroids rng1].
    simpl in Hup.
    destruct (negb _ || centroidsConverged _ _ _).
    + split; [done|]. by exists centroids.
    + apply IH; [done|]. right. by exists centroids.
Qed.

Lemma assignedTo_nearest features cs i :
  assignedTo features (nearestTo features cs) i
  = filter (λ f, findNearestCentroid (values f) cs = i) features.
Proof.
  unfold assignedTo, nearestTo.
  induction features as [|f features IH]; [done|].
  rewrite filter_cons, <- IH. cbn.
  destruct (decide (Some (findNearestCentroid (values f) cs) = Some i)) as [E|E];
    destruct (decide (findNearestCentroid (values f) cs = i)) as [E'|E'];
    simplify_eq; done.
Qed.

Lemma filter_below {X} (n : X → nat) (l : list X) (k : nat) :
  filter (λ x, n x < S k)%nat l
  ≡ₚ filter (λ x, n x < k)%nat l ++ filter (λ x, n x = k) l.
Proof.
  induction l as [|x l IH]; [done|].
  rewrite !filter_cons.
  destruct (decide (n x < S k)%nat), (decide (n x < k)%nat), (decide (n x = k));
    try lia; simpl; rewrite ?IH; try done.
  by rewrite <- Permutation_middle.
Qed.

Lemma classes_partition {X} (n : X → nat) (l : list X) (k : nat) :
  mjoin ((λ i, filter (λ x, n x = i) l) <$> seq 0 k)
  ≡ₚ filter (λ x, n x < k)%nat l.
Proof.
  induction k as [|k IH].
  - simpl. induction l as [|x l IHl]; [done|].
    rewrite filter_cons. destruct (decide _); [lia|done].
  - rewrite seq_S, fmap_app, join_app, IH. simpl. rewrite app_nil_r.
    by rewrite filter_below.
Qed.

Lemma filter_all {X} (P : X → Prop) `{∀ x, Decision (P x)} (l : list X) :
  (∀ x, x ∈ l → P x) → filter P l = l.
Proof.
  induction l as [|x l IH]; intros Hall; [done|].
  rewrite filter_cons, decide_True by (apply Hall; by left).
  rewrite IH; [done|]. intros y Hy. apply Hall. by right.
Qed.

(** The clusters [kMeansClustering] returns: cluster [i] has the centroid
    [cs !! i] and the features that are nearest to the [i]-th of the
    centroids [cs'] of the last assignment. *)
Lemma kMeansClustering_shape (features : list Feature) (k : nat) (rng : Rng) :
  ∃ cs cs',
    length cs = k ∧ length cs' = k
    ∧ (kMeansClustering features k rng).1
      = (λ i, mkCluster i (cs !! i)
                (filter (λ f, findNearestCentroid (values f) cs' = i) features))
          <$> seq 0 k.
Proof.
  unfold kMeansClustering.
  pose proof (initializeCentroids_length features k rng) as Hinit.
  destruct (initializeCentroids features k rng) as [cs0 rng0]. simpl in Hinit.
  pose proof (iterate_result maxIterations features k cs0
                (replicate (length features) None) rng0 Hinit) as Hit.
  destruct (iterate maxIterations features k cs0 _ rng0) as [[cs assignments] rng1].
  destruct Hit as (Hlen & cs' & Hlen' & ->); [by left|].
  exists cs, cs'. split; [done|]. split; [done|]. simpl.
  apply list_fmap_ext. intros ? i _. by rewrite assignedTo_nearest.
Qed.

Lemma kMeansClustering_covers (features : list Feature) (k : nat) (rng : Rng) :
  (1 ≤ k)%nat →
  let clusters := (kMeansClustering features k rng).1 in
  length clusters = k
  ∧ (∀ c, c ∈ clusters → is_Some (c_centroid c))
  ∧ ∀ f, f ∈ features → ∃ c, c ∈ clusters ∧ f ∈ c_features c.
Proof.
  intros Hk clusters. unfold clusters.
  destruct (kMeansClustering_shape features k rng) as (cs & cs' & Hlen & Hlen' & ->).
  split; [by rewrite length_fmap, length_seq|]. split.
  - intros c (i & -> & Hi)%list_elem_of_fmap. simpl.
    apply elem_of_seq in Hi. apply lookup_lt_is_Some. lia.
  - intros f Hf.
    assert (findNearestCentroid (values f) cs' < k)%nat as Hlt.
    { rewrite <- Hlen'. apply findNearestCentroid_lt. intros ->. simpl in Hlen'. lia. }
    eexists. split.
    + apply list_elem_of_fmap_2, elem_of_seq. split; [lia|exact Hlt].
    + simpl. by apply list_elem_of_filter.
Qed.

(** X20. For [k >= 1], [kMeansClustering] returns [k] clusters numbered 0 to
    [k - 1], each with a centroid, and the clusters' features are the
    features, every one in exactly one cluster (a cluster may be empty). *)
Theorem kmeans_puts_every_feature_in_one_cluster (features : list Feature)
    (k : nat) (rng : Rng) :
  (1 ≤ k)%nat →
  let clusters := (kMeansClustering features k rng).1 in
  length clusters = k
  ∧ (∀ i c, clusters !! i = Some c → c_id c = i ∧ is_Some (c_centroid c))
  ∧ mjoin (c_features <$> clusters) ≡ₚ features
  ∧ (∀ c, c ∈ clusters → c_features c ⊆+ features).
Proof.
  intros Hk clusters. unfold clusters.
  destruct (kMeansClustering_shape features k rng) as (cs & cs' & Hlen & Hlen' & ->).
  split; [by rewrite length_fmap, length_seq|].
  split; [|split].
  - intros i c Hi. rewrite list_lookup_fmap in Hi.
    destruct (seq 0 k !! i) as [j|] eqn:Hj; [|done].
    apply lookup_seq in Hj as [-> Hlt]. simpl in Hi. injection Hi as <-.
    simpl. split; [done|]. apply lookup_lt_is_Some. lia.
  - rewrite <- list_fmap_compose.
    change (c_features ∘ _)
      with (λ i, filter (λ f, findNearestCentroid (values f) cs' = i) features).
    rewrite classes_partition. rewrite filter_all; [done|].
    intros f _. rewrite <- Hlen'. apply findNearestCentroid_lt.
    intros ->. simpl in Hlen'. lia.
  - intros c (i & -> & _)%list_elem_of_fmap. simpl.
    apply sublist_submseteq, sublist_filter.
Qed.

Lemma kmeans_puts_every_feature_in_one_cluster_witness :
  let clusters := (kMeansClustering twoPairs 2 draws).1 in
  length clusters = 2%nat
  ∧ (∀ i c, clusters !! i = Some c → c_id c = i ∧ is_Some (c_centroid c))
  ∧ mjoin (c_features <$> clusters) ≡ₚ twoPairs
  ∧ (∀ c, c ∈ clusters → c_features c ⊆+ twoPairs).
Proof. apply (kmeans_puts_every_feature_in_one_cluster twoPairs 2 draws). lia. Defined.

Lemma foldl_nonneg {X} (g : X → Q) (l : list X) (a : Q) :
  0 <= a → (∀ x, 0 <= g x) → 0 <= foldl (λ total x, total + g x) a l.
Proof.
  revert a. induction l as [|x l IH]; intros a Ha Hg; [done|].
  simpl. apply IH; [|done]. specialize (Hg x). lra.
Qed.

Lemma averageIntraClusterDistance_nonneg feature cluster :
  0 <= averageIntraClusterDistance feature cluster.
Proof.
  unfold averageIntraClusterDistance.
  destruct (bool_decide _); [done|].
  destruct (filter _ _) as [|o others] eqn:E; [done|].
  apply Qle_shift_div_l.
  - change 0 with (inject_Z 0). rewrite <- Zlt_Qlt. simpl. lia.
  - rewrite Qmult_0_l.
    apply (foldl_nonneg (λ other, calculateDistance (values feature) (values other)));
      [done|]. intros x. apply calculateDistance_nonneg.
Qed.

Lemma minimum_nonneg (l : list Q) : (∀ x, x ∈ l → 0 <= x) → 0 <= minimum l.
Proof.
  destruct l as [|v rest]; [done|]. intros Hall. simpl.
  assert (0 <= v) as Hv by (apply Hall; by left).
  assert (∀ x, x ∈ rest → 0 <= x) as Hrest by (intros x Hx; apply Hall; by right).
  clear Hall. revert v Hv. induction rest as [|x rest IH]; intros v Hv; [done|].
  simpl. apply IH.
  - intros y Hy. apply Hrest. by right.
  - destruct (Qlt_bool x v); [apply Hrest; by left|done].
Qed.

Lemma nearestClusterDistance_nonneg feature clusters excludeClusterIdx :
  0 <= nearestClusterDistance feature clusters excludeClusterIdx.
Proof.
  unfold nearestClusterDistance.
  set (distances := mjoin _).
  assert (∀ x, x ∈ distances → 0 <= x) as Hall.
  { intros x Hx. unfold distances in Hx.
    apply list_elem_of_join in Hx as (l & Hx & Hl).
    apply list_elem_of_lookup_1 in Hl as (i & Hi).
    rewrite list_lookup_imap in Hi.
    destruct (clusters !! i) as [c|]; [|done]. simpl in Hi. injection Hi as <-.
    destruct (decide _); [by apply elem_of_nil in Hx|].
    apply list_elem_of_fmap in Hx as (o & -> & _). apply calculateDistance_nonneg. }
  destruct distances as [|d ds] eqn:E; [done|]. by apply minimum_nonneg.
Qed.

Lemma silhouette_range feature clusters clusterIdx cluster :
  -1 <= silhouette feature clusters clusterIdx cluster
  ∧ silhouette feature clusters clusterIdx cluster <= 1.
Proof.
  unfold silhouette.
  pose proof (averageIntraClusterDistance_nonneg feature cluster) as Ha.
  pose proof (nearestClusterDistance_nonneg feature clusters clusterIdx) as Hb.
  set (a := averageIntraClusterDistance feature cluster) in *.
  set (b := nearestClusterDistance feature clusters clusterIdx) in *.
  destruct (Qeq_bool b 0) eqn:E; [split; lra|].
  apply Qeq_bool_neq in E. assert (0 < b) as Hpos by lra.
  destruct (Qlt_bool a b) eqn:El.
  - apply Qlt_bool_iff in El. split.
    + apply Qle_shift_div_l; [done|]. lra.
    + apply Qle_shift_div_r; [done|]. lra.
  - apply Qlt_bool_false in El. assert (0 < a) by lra. split.
    + apply Qle_shift_div_l; [done|]. lra.
    + apply Qle_shift_div_r; [done|]. lra.
Qed.

Lemma mean_within (l : list Q) (lo hi : Q) :
  l ≠ [] → (∀ x, x ∈ l → lo <= x ∧ x <= hi) →
  lo <= foldl Qplus 0 l / inject_Z (Z.of_nat (length l))
  ∧ foldl Qplus 0 l / inject_Z (Z.of_nat (length l)) <= hi.
Proof.
  intros Hne Hall.
  assert (0 < inject_Z (Z.of_nat (length l))) as Hn.
  { change 0 with (inject_Z 0). rewrite <- Zlt_Qlt.
    destruct l; [done|simpl; lia]. }
  pose proof (foldl_sumQ (λ x : Q, x) l 0) as Hsum.
  rewrite list_fmap_id in Hsum.
  change (foldl (λ sum x, sum + x) 0 l) with (foldl Qplus 0 l) in Hsum.
  rewrite Hsum.
  destruct (sumQ_bounds (λ x : Q, x) l lo hi Hall) as [H1 H2].
  rewrite list_fmap_id in H1, H2.
  split.
  - apply Qle_shift_div_l; [done|]. lra.
  - apply Qle_shift_div_r; [done|]. lra.
Qed.

(** X21. The quality score of any clustering lies between -1 and 1. *)
Theorem cluster_quality_within_minus_one_and_one (clusters : list Cluster)
    (features : list Feature) :
  -1 <= evaluateClusterQuality clusters features
  ∧ evaluateClusterQuality clusters features <= 1.
Proof.
  unfold evaluateClusterQuality.
  set (silhouettes := mjoin _).
  assert (∀ x, x ∈ silhouettes → -1 <= x ∧ x <= 1) as Hall.
  { intros x Hx. unfold silhouettes in Hx.
    apply list_elem_of_join in Hx as (l & Hx & Hl).
    apply list_elem_of_lookup_1 in Hl as (i & Hi).
    rewrite list_lookup_imap in Hi.
    destruct (clusters !! i) as [c|]; [|done]. simpl in Hi. injection Hi as <-.
    apply list_elem_of_fmap in Hx as (o & -> & _). apply silhouette_range. }
  clearbody silhouettes.
  destruct silhouettes as [|s0 rest]; [split; lra|].
  by apply mean_within.
Qed.

Lemma sumQ_nonneg {X} (g : X → Q) (l : list X) :
  (∀ x, 0 <= g x) → 0 <= sumQ (g <$> l).
Proof.
  intros Hg. induction l as [|y l IH]; [done|].
  cbn [fmap list_fmap sumQ foldr]. fold (sumQ (g <$> l)).
  specialize (Hg y). lra.
Qed.

Lemma sumQ_zero {X} (g : X → Q) (l : list X) :
  (∀ x, 0 <= g x) → sumQ (g <$> l) == 0 → ∀ x, x ∈ l → g x == 0.
Proof.
  intros Hg. induction l as [|y l IH]; intros Hsum x Hx; [by apply elem_of_nil in Hx|].
  cbn [fmap list_fmap sumQ foldr] in Hsum. fold (sumQ (g <$> l)) in Hsum.
  pose proof (sumQ_nonneg g l Hg). pose proof (Hg y).
  apply elem_of_cons in Hx as [->|Hx]; [lra|]. apply IH; [lra|done].
Qed.

Lemma sumQ_all_zero {X} (g : X → Q) (l : list X) :
  (∀ x, x ∈ l → g x == 0) → sumQ (g <$> l) == 0.
Proof.
  induction l as [|y l IH]; intros Hall; [done|].
  cbn [fmap list_fmap sumQ foldr]. fold (sumQ (g <$> l)).
  rewrite IH by (intros x Hx; apply Hall; by right).
  rewrite (Hall y) by (by left). lra.
Qed.

Lemma Math_min_max_range x :
  0 <= Math_min 1 (Math_max 0 x) ∧ Math_min 1 (Math_max 0 x) <= 1.
Proof.
  unfold Math_min, Math_max.
  destruct (Qlt_bool 0 x) eqn:E1.
  - apply Qlt_bool_iff in E1. destruct (Qlt_bool x 1) eqn:E2.
    + apply Qlt_bool_iff in E2. lra.
    + lra.
  - destruct (Qlt_bool 0 1) eqn:E2; [lra|]. apply Qlt_bool_false in E2. lra.
Qed.

(** X22. The speaker confidence of a feature, when the cluster has a centroid,
    is a number between 0 and 1 or [NaN], never an exception; it is [NaN]
    exactly when the cluster is empty or the feature and all members of the
    cluster sit on the centroid, as the lone member of a cluster does whose
    centroid is its mean. *)
Theorem speaker_confidence_is_a_share_or_nan (feature : Feature)
    (cluster : Cluster) (centroid : Vector) :
  c_centroid cluster = Some centroid →
  ∃ r, calculateSpeakerConfidence feature cluster = Some r
     ∧ match r with
       | Finite c => 0 <= c ∧ c <= 1
       | NaN => True
       end
     ∧ (r = NaN ↔
        c_features cluster = []
        ∨ (calculateDistance (values feature) centroid == 0
           ∧ ∀ f, f ∈ c_features cluster →
                  calculateDistance (values f) centroid == 0)).
Proof.
  intros Hc. unfold calculateSpeakerConfidence. rewrite Hc. simpl.
  eexists. split; [reflexivity|].
  set (d := calculateDistance (values feature) centroid).
  set (g := λ f, calculateDistance (values f) centroid).
  pose proof (foldl_sumQ g (c_features cluster) 0) as Hsum.
  fold g. set (total := foldl _ 0 _) in *.
  assert (0 <= d) as Hd by (unfold d; apply calculateDistance_nonneg).
  assert (∀ f, 0 <= g f) as Hg by (intros f; unfold g; apply calculateDistance_nonneg).
  assert (0 <= total) as Htotal.
  { rewrite Hsum. pose proof (sumQ_nonneg g (c_features cluster) Hg). lra. }
  unfold js_div.
  destruct (Qeq_bool (inject_Z (Z.of_nat (length (c_features cluster)))) 0) eqn:En;
    cbv beta iota.
  { split; [done|]. split; [intros _|done]. left.
    apply Qeq_bool_eq in En. unfold Qeq in En. simpl in En.
    apply nil_length_inv. lia. }
  apply Qeq_bool_neq in En.
  assert (length (c_features cluster) ≠ 0)%nat as Hlen.
  { intros E. rewrite E in En. by apply En. }
  assert (0 < inject_Z (Z.of_nat (length (c_features cluster)))) as Hn.
  { change 0 with (inject_Z 0). rewrite <- Zlt_Qlt. lia. }
  set (n := inject_Z _) in *.
  assert (c_features cluster ≠ []) as Hne.
  { intros E. by rewrite E in Hlen. }
  assert (0 <= total / n) as Havg by (apply Qle_shift_div_l; lra).
  destruct (Qeq_bool (total / n * 2) 0) eqn:Ez; cbv beta iota.
  - apply Qeq_bool_eq in Ez.
    assert (total == 0) as Ht.
    { assert (total / n == 0) as E by lra.
      assert (total == total / n * n) as -> by (field; lra). rewrite E. lra. }
    assert (∀ f, f ∈ c_features cluster → g f == 0) as Hzero.
    { apply sumQ_zero; [done|]. lra. }
    destruct (Qlt_bool 0 d) eqn:E1; cbv beta iota.
    + apply Qlt_bool_iff in E1. split; [lra|]. split; [done|].
      intros [?|[? _]]; [done|lra].
    + apply Qlt_bool_false in E1. destruct (Qlt_bool d 0) eqn:E2; cbv beta iota.
      * apply Qlt_bool_iff in E2. lra.
      * split; [done|]. split; [|done]. intros _. right. split; [lra|done].
  - apply Qeq_bool_neq in Ez. split; [apply Math_min_max_range|].
    split; [done|]. intros [?|[_ Hzero]]; [done|]. exfalso. apply Ez.
    assert (total == 0) as Ht.
    { rewrite Hsum. rewrite sumQ_all_zero by done. lra. }
    rewrite Ht. field. lra.
Qed.

Lemma speaker_confidence_is_a_share_or_nan_witness :
  ∃ r, calculateSpeakerConfidence (featureAt 0 1)
         (mkCluster 0 (Some (mkVector 1 2 150 50 1000)) [featureAt 0 1]) = Some r
     ∧ match r with
       | Finite c => 0 <= c ∧ c <= 1
       | NaN => True
       end
     ∧ (r = NaN ↔
        c_features (mkCluster 0 (Some (mkVector 1 2 150 50 1000)) [featureAt 0 1]) = []
        ∨ (calculateDistance (values (featureAt 0 1)) (mkVector 1 2 150 50 1000) == 0
           ∧ ∀ f, f ∈ c_features (mkCluster 0 (Some (mkVector 1 2 150 50 1000))
                                    [featureAt 0 1]) →
                  calculateDistance (values f) (mkVector 1 2 150 50 1000) == 0)).
Proof.
  apply (speaker_confidence_is_a_share_or_nan (featureAt 0 1)
           (mkCluster 0 (Some (mkVector 1 2 150 50 1000)) [featureAt 0 1])
           (mkVector 1 2 150 50 1000)).
  reflexivity.
Defined.

Lemma changes_app_cons l1 a l2 :
  changes (l1 ++ a :: l2) = (changes (l1 ++ [a]) + changes (a :: l2))%nat.
Proof.
  induction l1 as [|x l1 IH]; [done|].
  destruct l1 as [|y l1].
  - simpl. destruct l2; simpl; lia.
  - change (((if decide (speaker x = speaker y) then 0 else 1)
             + changes ((y :: l1) ++ a :: l2))
            = ((if decide (speaker x = speaker y) then 0 else 1)
               + changes ((y :: l1) ++ [a]) + changes (a :: l2)))%nat.
    rewrite IH. lia.
Qed.

Lemma three_in_a_row {X} (l : list X) i p c n :
  (1 ≤ i)%nat → l !! (i - 1)%nat = Some p → l !! i = Some c →
  l !! (i + 1)%nat = Some n →
  l = take (i - 1) l ++ p :: c :: n :: drop (i + 2) l.
Proof.
  intros Hi Hp Hc Hn.
  rewrite <- (take_drop_middle l (i - 1) p Hp) at 1. f_equal. f_equal.
  replace (S (i - 1)) with i by lia.
  rewrite (drop_S l c i Hc). f_equal.
  replace (S i) with (i + 1)%nat by lia.
  rewrite (drop_S l n (i + 1) Hn). f_equal. f_equal. lia.
Qed.

Lemma smoothAt_cases l i :
  (1 ≤ i)%nat →
  smoothAt l i = l
  ∨ ∃ l1 l2 p c n,
      l = l1 ++ p :: c :: n :: l2
      ∧ smoothAt l i = l1 ++ p :: reassign p c :: n :: l2
      ∧ flickers p c n = true.
Proof.
  intros Hi. unfold smoothAt.
  destruct (l !! (i - 1)%nat) as [p|] eqn:Hp; [|by left].
  destruct (l !! i) as [c|] eqn:Hc; [|by left].
  destruct (l !! (i + 1)%nat) as [n|] eqn:Hn; [|by left].
  destruct (flickers p c n) eqn:E; [|by left].
  right. exists (take (i - 1) l), (drop (i + 2) l), p, c, n.
  pose proof (three_in_a_row l i p c n Hi Hp Hc Hn) as Hl.
  split; [done|]. split; [|done].
  rewrite Hl at 1.
  assert (length (take (i - 1) l) = (i - 1)%nat) as Hlen.
  { rewrite length_take. apply lookup_lt_Some in Hp. lia. }
  replace i with (length (take (i - 1) l) + 1)%nat at 1 by lia.
  rewrite insert_app_r. done.
Qed.

Lemma smoothAt_keeps l i :
  (1 ≤ i)%nat →
  segment <$> smoothAt l i = segment <$> l
  ∧ (∀ s, s ∈ smoothAt l i → speaker s ∈ speaker <$> l)
  ∧ (changes (smoothAt l i) ≤ changes l)%nat.
Proof.
  intros Hi. destruct (smoothAt_cases l i Hi) as [->|(l1 & l2 & p & c & n & -> & -> & E)].
  { split; [done|]. split; [|done]. intros s Hs. by apply list_elem_of_fmap_2. }
  apply flickers_true in E as (Hpn & Hcp & _ & _).
  split; [|split].
  - rewrite !fmap_app. simpl. done.
  - intros s Hs. rewrite fmap_app. simpl.
    rewrite elem_of_app, !elem_of_cons in Hs. rewrite elem_of_app, !elem_of_cons.
    destruct Hs as [Hs|[->|[->|[->|Hs]]]].
    + left. by apply list_elem_of_fmap_2.
    + right. by left.
    + right. by left.
    + right. right. right. by left.
    + right. right. right. right. by apply list_elem_of_fmap_2.
  - rewrite (changes_app_cons l1 p (c :: n :: l2)),
      (changes_app_cons l1 p (reassign p c :: n :: l2)).
    apply Nat.add_le_mono_l.
    change (((if decide (speaker p = speaker (reassign p c)) then 0 else 1)
             + ((if decide (speaker (reassign p c) = speaker n) then 0 else 1)
                + changes (n :: l2)))
            ≤ ((if decide (speaker p = speaker c) then 0 else 1)
               + ((if decide (speaker c = speaker n) then 0 else 1)
                  + changes (n :: l2))))%nat.
    simpl speaker. rewrite !decide_True by done.
    repeat destruct (decide _); lia.
Qed.

Lemma smoothedUpTo_keeps segments m :
  segment <$> smoothedUpTo segments m = segment <$> segments
  ∧ (∀ s, s ∈ smoothedUpTo segments m → speaker s ∈ speaker <$> segments)
  ∧ (changes (smoothedUpTo segments m) ≤ changes segments)%nat.
Proof.
  induction m as [|m (IH1 & IH2 & IH3)].
  { split; [done|]. split; [|done]. intros s Hs. by apply list_elem_of_fmap_2. }
  rewrite smoothedUpTo_S.
  destruct (smoothAt_keeps (smoothedUpTo segments m) (S m)) as (H1 & H2 & H3); [lia|].
  split; [by rewrite H1|]. split; [|lia].
  intros s Hs. apply H2 in Hs.
  apply list_elem_of_fmap in Hs as (s' & -> & Hs'). by apply IH2.
Qed.

(** X23. Smoothing only relabels: times, texts and words of the segments stay
    as they are, every label of the result is a label that was there
    before, and the speaker changes from one segment to the next at no
    more places than before. *)
Theorem smoothing_only_relabels (segments : list DiarizedSegment) :
  let smoothed := smoothSpeakerTransitions segments in
  segment <$> smoothed = segment <$> segments
  ∧ (∀ s, s ∈ smoothed → speaker s ∈ speaker <$> segments)
  ∧ (changes smoothed ≤ changes segments)%nat.
Proof. apply smoothedUpTo_keeps. Qed.

Section labelling.
Context (segments : list Segment) (clusters : list Cluster).
Hypothesis distinct : NoDup (id <$> segments).
Hypothesis centroids : ∀ c, c ∈ clusters → is_Some (c_centroid c).

Lemma confidence_defined feature cluster :
  cluster ∈ clusters → is_Some (calculateSpeakerConfidence feature cluster).
Proof.
  intros Hc. destruct (centroids cluster Hc) as [centroid E].
  unfold calculateSpeakerConfidence. rewrite E. by eexists.
Qed.

Lemma labelFeature_sound clusterIdx cluster diarized feature :
  clusters !! clusterIdx = Some cluster → feature ∈ c_features cluster →
  sound segments clusters diarized →
  ∃ diarized',
    labelFeature clusterIdx cluster diarized feature = Some diarized'
    ∧ sound segments clusters diarized'
    ∧ (∀ x, settled diarized x → settled diarized' x)
    ∧ settled diarized' (segmentId feature).
Proof.
  intros Hidx Hf [Hseg Hlab]. unfold labelFeature.
  destruct (list_find _ diarized) as [[i s]|] eqn:Efind.
  - apply list_find_Some in Efind as (Hi & Hid & _).
    destruct (confidence_defined feature cluster) as [confidence Ec].
    { by eapply list_elem_of_lookup_2. }
    rewrite Ec. simpl. eexists. split; [reflexivity|].
    set (s' := mkLabelled (l_segment s) (Some (speakerLabel clusterIdx)) confidence).
    assert (∀ t, t ∈ <[i := s']> diarized → t = s' ∨ t ∈ diarized) as Hmem.
    { intros t (j & Hj)%list_elem_of_lookup_1.
      apply list_lookup_insert_Some in Hj as [(-> & <- & _)|[_ Hj]]; [by left|].
      right. by eapply list_elem_of_lookup_2. }
    split; [|split].
    + split.
      * rewrite list_fmap_insert. simpl. rewrite list_insert_id; [done|].
        by rewrite list_lookup_fmap, Hi.
      * intros t [->|Ht]%Hmem; [|by apply Hlab].
        right. exists clusterIdx, cluster, feature. done.
    + intros x Hx t (j & Hj)%list_elem_of_lookup_1 Hidt.
      apply list_lookup_insert_Some in Hj as [(-> & <- & _)|[_ Hj]]; [by eexists|].
      apply Hx; [by eapply list_elem_of_lookup_2|done].
    + intros t (j & Hj)%list_elem_of_lookup_1 Hidt.
      apply list_lookup_insert_Some in Hj as [(-> & <- & _)|[Hne Hj]]; [by eexists|].
      exfalso. apply Hne.
      assert ((id <$> segments) !! i = Some (segmentId feature)) as H1.
      { rewrite <- Hseg, <- list_fmap_compose, list_lookup_fmap, Hi. simpl. by rewrite Hid. }
      assert ((id <$> segments) !! j = Some (segmentId feature)) as H2.
      { rewrite <- Hseg, <- list_fmap_compose, list_lookup_fmap, Hj. simpl. by rewrite Hidt. }
      by eapply NoDup_lookup.
  - eexists. split; [reflexivity|]. split; [done|]. split; [done|].
    apply list_find_None in Efind. rewrite list.Forall_forall in Efind.
    intros t Ht Hidt. by destruct (Efind t Ht).
Qed.

Lemma labelFeatures_sound clusterIdx cluster features diarized :
  clusters !! clusterIdx = Some cluster →
  (∀ f, f ∈ features → f ∈ c_features cluster) →
  sound segments clusters diarized →
  ∃ diarized',
    foldl (λ acc feature, acc ≫= λ d, labelFeature clusterIdx cluster d feature)
          (Some diarized) features = Some diarized'
    ∧ sound segments clusters diarized'
    ∧ (∀ x, settled diarized x → settled diarized' x)
    ∧ ∀ f, f ∈ features → settled diarized' (segmentId f).
Proof.
  intros Hidx. revert diarized.
  induction features as [|f features IH]; intros diarized Hsub Hsound.
  - exists diarized. split; [done|]. split; [done|]. split; [done|].
    intros f Hf. by apply elem_of_nil in Hf.
  - destruct (labelFeature_sound clusterIdx cluster diarized f Hidx) as
      (d1 & E1 & Hs1 & Hmono1 & Hf1); [apply Hsub; by left|done|].
    destruct (IH d1) as (d2 & E2 & Hs2 & Hmono2 & Hf2);
      [intros g Hg; apply Hsub; by right|done|].
    exists d2. simpl. rewrite E1. split; [done|]. split; [done|].
    split; [intros x Hx; by apply Hmono2, Hmono1|].
    intros g [->|Hg]%elem_of_cons; [by apply Hmono2|by apply Hf2].
Qed.

Lemma labelClusters_sound (before rest : list Cluster) diarized :
  clusters = before ++ rest →
  sound segments clusters diarized →
  ∃ diarized',
    foldl (λ acc '(clusterIdx, cluster),
             acc ≫= λ d, labelCluster d clusterIdx cluster)
          (Some diarized) (imap (λ i c, (length before + i, c)%nat) rest)
    = Some diarized'
    ∧ sound segments clusters diarized'
    ∧ (∀ x, settled diarized x → settled diarized' x)
    ∧ ∀ c f, c ∈ rest → f ∈ c_features c → settled diarized' (segmentId f).
Proof.
  revert before diarized.
  induction rest as [|c rest IH]; intros before diarized Hcs Hsound.
  - exists diarized. split; [done|]. split; [done|]. split; [done|].
    intros c f Hc. by apply elem_of_nil in Hc.
  - assert (clusters !! length before = Some c) as Hidx.
    { rewrite Hcs. by rewrite lookup_app_r, Nat.sub_diag. }
    destruct (labelFeatures_sound (length before) c (c_features c) diarized Hidx)
      as (d1 & E1 & Hs1 & Hmono1 & Hf1); [done|done|].
    destruct (IH (before ++ [c]) d1) as (d2 & E2 & Hs2 & Hmono2 & Hf2);
      [by rewrite <- app_assoc|done|].
    exists d2. cbn [imap foldl]. rewrite Nat.add_0_r.
    cbn [mbind option_bind]. unfold labelCluster at 2. rewrite E1.
    split.
    { rewrite <- E2. f_equal. apply imap_ext. intros i x _. simpl.
      rewrite length_app. simpl. f_equal. lia. }
    split; [done|]. split; [intros x Hx; by apply Hmono2, Hmono1|].
    intros c' f [->|Hc']%elem_of_cons Hf; [by apply Hmono2, Hf1|by eapply Hf2].
Qed.
End labelling.

Lemma unlabelled_sound segments clusters : sound segments clusters (unlabelled segments).
Proof.
  split.
  - unfold unlabelled. rewrite <- list_fmap_compose. apply list_fmap_id.
  - intros s (s0 & -> & _)%list_elem_of_fmap. by left.
Qed.

(** X24. With at least one cluster asked for, features made from segments with
    distinct ids (one feature per segment, as [extractAudioFeatures] makes
    them) and any random numbers, the labelling throws no exception and
    leaves no segment without a speaker: each one carries the label
    [speaker_<i+1>] of the cluster [i] that holds its feature. *)
Theorem every_segment_gets_a_speaker (segments : list Segment)
    (features : list Feature) (k : nat) (rng : Rng) :
  (1 ≤ k)%nat →
  NoDup (id <$> segments) →
  segmentId <$> features = id <$> segments →
  let clusters := (kMeansClustering features k rng).1 in
  ∃ diarized,
    labelSegments segments clusters = Some diarized
    ∧ l_segment <$> diarized = segments
    ∧ ∀ s, s ∈ diarized →
        ∃ clusterIdx cluster feature,
          (clusterIdx < k)%nat
          ∧ clusters !! clusterIdx = Some cluster
          ∧ feature ∈ c_features cluster
          ∧ segmentId feature = id (l_segment s)
          ∧ l_speaker s = Some (speakerLabel clusterIdx).
Proof.
  intros Hk Hnd Hids clusters.
  destruct (kMeansClustering_covers features k rng Hk) as (Hlen & Hcentroids & Hcover).
  fold clusters in Hlen, Hcentroids, Hcover.
  destruct (labelClusters_sound segments clusters Hnd Hcentroids [] clusters
              (unlabelled segments) eq_refl (unlabelled_sound _ _))
    as (d & E & [Hseg Hlab] & _ & Hdone).
  exists d. split; [exact E|]. split; [done|].
  intros s Hs.
  assert (id (l_segment s) ∈ segmentId <$> features) as Hin.
  { rewrite Hids, <- Hseg, <- list_fmap_compose. by apply (list_elem_of_fmap_2 (id ∘ l_segment)). }
  apply list_elem_of_fmap in Hin as (f & Hf & Hfin).
  destruct (Hcover f Hfin) as (c & Hc & Hffs).
  destruct (Hdone c f Hc Hffs s Hs) as [label Hlabel]; [done|].
  destruct (Hlab s Hs) as [Hnone|(idx & c' & f' & H1 & H2 & H3 & H4)]; [congruence|].
  exists idx, c', f'. split; [|done].
  rewrite <- Hlen. by eapply lookup_lt_Some.
Qed.

Lemma every_segment_gets_a_speaker_witness :
  let segments :=
    [mkSegment 0 0 1 "satu" (8 # 10) (Some []);
     mkSegment 1 1 3 "dua" (8 # 10) (Some []);
     mkSegment 2 3 104 "tiga" (8 # 10) (Some []);
     mkSegment 3 104 206 "empat" (8 # 10) (Some [])] in
  let clusters := (kMeansClustering twoPairs 2 draws).1 in
  ∃ diarized,
    labelSegments segments clusters = Some diarized
    ∧ l_segment <$> diarized = segments
    ∧ ∀ s, s ∈ diarized →
        ∃ clusterIdx cluster feature,
          (clusterIdx < 2)%nat
          ∧ clusters !! clusterIdx = Some cluster
          ∧ feature ∈ c_features cluster
          ∧ segmentId feature = id (l_segment s)
          ∧ l_speaker s = Some (speakerLabel clusterIdx).
Proof.
  apply (every_segment_gets_a_speaker
           [mkSegment 0 0 1 "satu" (8 # 10) (Some []);
            mkSegment 1 1 3 "dua" (8 # 10) (Some []);
            mkSegment 2 3 104 "tiga" (8 # 10) (Some []);
            mkSegment 3 104 206 "empat" (8 # 10) (Some [])] twoPairs 2 draws).
  - lia.
  - simpl. repeat (apply list.NoDup_cons; split;
      [intros H; repeat (apply elem_of_cons in H as [H|H]; [discriminate|]);
       by apply elem_of_nil in H|]).
    apply NoDup_nil_2.
  - reflexivity.
Defined.

Lemma speakerLabel_inj : Inj eq eq speakerLabel.
Proof.
  intros i j E. unfold speakerLabel in E.
  apply String.app_inj in E. apply pretty_nat_inj in E. lia.
Qed.

Lemma profiles_by_index clusters diarized :
  generateSpeakerProfiles clusters diarized
  = profileOf diarized <$> seq 0 (length clusters).
Proof.
  unfold generateSpeakerProfiles.
  apply list_eq. intros i. rewrite list_lookup_imap, list_lookup_fmap.
  destruct (clusters !! i) as [c|] eqn:E; simpl.
  - rewrite lookup_seq_lt by (by eapply lookup_lt_Some). done.
  - rewrite lookup_seq_ge; [done|]. by apply lookup_ge_None.
Qed.

Lemma sumQ_ones {X} (l : list X) :
  sumQ ((λ _, 1) <$> l) == inject_Z (Z.of_nat (length l)).
Proof.
  induction l as [|x l IH]; [done|].
  cbn [length fmap list_fmap sumQ foldr]. fold (sumQ ((λ _ : X, 1) <$> l)).
  rewrite IH, Nat2Z.inj_succ. unfold Z.succ. rewrite inject_Z_plus.
  change (inject_Z 1) with 1. lra.
Qed.



(** The two steps of [assignSpeakersToSegments] together.  The middle turn
    is alone in its cluster, so its confidence is [NaN]; it is a second
    long and lies between two turns of the other speaker, and the smoothing
    pass, for which [NaN] is not below 0.8, leaves it with its speaker. *)
Lemma lone_member_keeps_its_speaker :
  ∃ diarized,
    assignSpeakersToSegments threeTurns twoClusters = Some diarized
    ∧ segment <$> diarized = threeTurns
    ∧ speaker <$> diarized = [Some "speaker_1"; Some "speaker_2"; Some "speaker_1"]
    ∧ speakerConfidence <$> diarized !! 1%nat = Some NaN.
Proof. eexists. split; [by vm_compute|]. by vm_compute. Qed.

End DiarizationMoreFacts.

(** ** Facts about [formatGoogleResponse] *)

Module GoogleFacts.
Import Js JsFacts WhisperService GoogleSpeechService.

#[local] Open Scope Q_scope.

Lemma madeOf_more sources more start_ finish speaker ws :
  madeOf sources start_ finish speaker ws →
  madeOf (sources ++ more) start_ finish speaker ws.
Proof.
  intros (H1 & H2 & H3 & H4 & H5). repeat split; try done.
  intros w Hw. destruct (H4 w Hw) as (src & Hsrc & E).
  exists src. split; [|done]. by apply lookup_app_l_Some.
Qed.

Lemma formatted_snoc sources source :
  imap formatted (sources ++ [source])
  = imap formatted sources ++ [formatted (length sources) source].
Proof. rewrite imap_app. simpl. by rewrite Nat.add_0_r. Qed.

Lemma addWord_grouped sources confidence g word :
  grouped sources g →
  grouped (sources ++ [(confidence, word)]) (addWord confidence g word).
Proof.
  intros [Hw Hp Hi Hn Hc Ho].
  assert (length (allWords g) = length sources) as Hlen
    by (by rewrite Hw, length_imap).
  set (fw := formatted (length sources) (confidence, word)).
  assert (madeOf (sources ++ [(confidence, word)])
            (timeToSeconds (g_startTime word)) (timeToSeconds (g_endTime word))
            (speakerName (speakerOf word)) [fw]) as Hnew.
  { repeat split; try done.
    intros w ->%list_elem_of_singleton.
    exists (confidence, word). split; [|done].
    simpl. by rewrite lookup_app_r, Nat.sub_diag. }
  unfold addWord. destruct (startsSegment g _ _) eqn:Estart.
  - destruct (currentSegment g) as [c|] eqn:Ec.
    + destruct (Ho c eq_refl) as [Hmade _]. simpl. rewrite Hlen. fold fw.
      constructor; simpl.
      * by rewrite Hw, formatted_snoc.
      * rewrite fmap_app, join_app. simpl. rewrite app_nil_r. by rewrite <- Hp.
      * rewrite fmap_app, Hi, length_app. simpl. rewrite Nat.add_1_r, seq_S.
        by rewrite Hn.
      * rewrite length_app. simpl. lia.
      * intros s [Hs| ->%list_elem_of_singleton]%elem_of_app.
        -- by apply madeOf_more, Hc.
        -- simpl. by apply madeOf_more.
      * intros c' [= <-]. simpl. split; [done|]. by eexists.
    + simpl. rewrite Hlen. fold fw. simpl in Hp. rewrite app_nil_r in Hp.
      constructor; simpl.
      * by rewrite Hw, formatted_snoc.
      * by rewrite Hp.
      * done.
      * done.
      * intros s Hs. by apply madeOf_more, Hc.
      * intros c' [= <-]. simpl. split; [done|]. by eexists.
  - unfold startsSegment in Estart.
    destruct (currentSegment g) as [c|] eqn:Ec; [|done].
    apply orb_false_iff in Estart as [Espeaker Egap].
    apply bool_decide_eq_false in Espeaker. apply dec_stable in Espeaker.
    destruct (Ho c eq_refl) as [(H1 & H2 & H3 & H4 & H5) (sp & Hsp & Hname)].
    simpl. rewrite Hlen. fold fw. simpl in Hp.
    constructor; simpl.
    + by rewrite Hw, formatted_snoc.
    + rewrite app_assoc. by rewrite Hp.
    + done.
    + done.
    + intros s Hs. by apply madeOf_more, Hc.
    + intros c' [= <-]. simpl. split; [|by exists sp].
      repeat split.
      * by destruct (o_words c).
      * by destruct (o_words c).
      * by rewrite last_snoc.
      * intros w [Hw'| ->%list_elem_of_singleton]%elem_of_app.
        -- destruct (H4 w Hw') as (src & Hsrc & E).
           exists src. split; [by apply lookup_app_l_Some|done].
        -- exists (confidence, word). split.
           ++ simpl. by rewrite lookup_app_r, Nat.sub_diag.
           ++ rewrite Hname. simpl. congruence.
      * intros i a b Ha Hb.
        apply lookup_app_Some in Hb as [Hb|[Hge Hb]].
        -- rewrite lookup_app_l in Ha by (apply lookup_lt_Some in Hb; lia).
           by apply (H5 i).
        -- apply list_lookup_singleton_Some in Hb as [Hi' <-].
           assert (S i = length (o_words c)) as Hlast by lia.
           rewrite lookup_app_l in Ha by lia.
           assert (list.last (o_words c) = Some a) as Ela.
           { rewrite last_lookup. rewrite <- Hlast. simpl. done. }
           rewrite Ela in Egap. apply Qlt_bool_false in Egap.
           done.
Qed.

Lemma addWords_grouped sources confidence g ws :
  grouped sources g →
  grouped (sources ++ ((λ word, (confidence, word)) <$> ws))
    (foldl (addWord confidence) g ws).
Proof.
  revert sources g. induction ws as [|word ws IH]; intros sources g Hg.
  - simpl. by rewrite app_nil_r.
  - simpl. rewrite cons_middle, app_assoc. by apply IH, addWord_grouped.
Qed.

Lemma addResult_grouped sources g alternative :
  grouped sources g → currentSegment g = None →
  grouped (sources ++ sourcesOf [alternative]) (addResult g alternative)
  ∧ currentSegment (addResult g alternative) = None.
Proof.
  intros Hg Hnone. unfold sourcesOf. simpl. rewrite app_nil_r.
  destruct alternative as [a|]; simpl.
  2: { by rewrite app_nil_r. }
  set (confidence := or0 (a_confidence a)).
  assert (grouped sources (mkGrouping (segments g) (allWords g) (segmentId g) None None))
    as Hg0.
  { destruct Hg as [Hw Hp Hi Hn Hc Ho]. rewrite Hnone in Hp. by constructor. }
  pose proof (addWords_grouped sources confidence _ (a_words a) Hg0) as Hg1.
  set (g1 := foldl (addWord confidence) _ (a_words a)) in *.
  destruct Hg1 as [Hw Hp Hi Hn Hc Ho].
  destruct (currentSegment g1) as [c|] eqn:Ec; (split; [|done]).
  - destruct (Ho c eq_refl) as [Hmade _]. simpl in Hp.
    constructor; simpl; try done.
    + rewrite fmap_app, join_app. simpl. by rewrite !app_nil_r.
    + rewrite fmap_app, Hi, length_app. simpl. rewrite Nat.add_1_r, seq_S.
      by rewrite Hn.
    + rewrite length_app. simpl. lia.
    + intros s [Hs| ->%list_elem_of_singleton]%elem_of_app; [by apply Hc|done].
  - simpl in Hp. by constructor.
Qed.

Lemma addResults_grouped sources g results :
  grouped sources g → currentSegment g = None →
  grouped (sources ++ sourcesOf results) (foldl addResult g results).
Proof.
  revert sources g. induction results as [|r results IH]; intros sources g Hg Hnone.
  - unfold sourcesOf. simpl. by rewrite app_nil_r.
  - destruct (addResult_grouped sources g r Hg Hnone) as [H1 H2].
    assert (sourcesOf (r :: results) = sourcesOf [r] ++ sourcesOf results) as ->.
    { unfold sourcesOf. cbn. by rewrite app_nil_r. }
    rewrite app_assoc. cbn [foldl]. apply IH; [exact H1|exact H2].
Qed.

Lemma addResults_closed g results :
  currentSegment g = None → currentSegment (foldl addResult g results) = None.
Proof.
  revert g. induction results as [|r results IH]; intros g Hg; [done|].
  simpl. apply IH. destruct r as [a|]; [|done]. simpl.
  by destruct (currentSegment (foldl _ _ _)).
Qed.

Lemma greatest_from (rest : list Q) (m : Q) :
  m <= foldl (λ m x, if Qlt_bool m x then x else m) m rest.
Proof.
  revert m. induction rest as [|y rest IH]; intros m; simpl; [lra|].
  destruct (Qlt_bool m y) eqn:E.
  - apply Qlt_bool_iff in E. specialize (IH y). lra.
  - apply IH.
Qed.

Lemma greatest_upper (rest : list Q) (m x : Q) :
  x ∈ rest → x <= foldl (λ m x, if Qlt_bool m x then x else m) m rest.
Proof.
  revert m. induction rest as [|y rest IH]; intros m Hx; [by apply elem_of_nil in Hx|].
  simpl. apply elem_of_cons in Hx as [->|Hx]; [|by apply IH].
  destruct (Qlt_bool m y) eqn:E.
  - apply greatest_from.
  - apply Qlt_bool_false in E.
    pose proof (greatest_from rest m). lra.
Qed.

Lemma maximum_upper (l : list Q) x : x ∈ l → x <= SpeakerDiarizationService.maximum l.
Proof.
  destruct l as [|v rest]; [by intros ?%elem_of_nil|].
  unfold SpeakerDiarizationService.maximum.
  intros [->|Hx]%elem_of_cons; [apply greatest_from|by apply greatest_upper].
Qed.


End GoogleFacts.

(** ** Facts about the progress reports *)

Module ProgressFacts.
Import Js JsFacts StageTracker StageTrackerFacts TranscriptionQueue PipelineFacts
  QueueMore QueueMoreFacts WhisperMore WhisperMoreFacts ProgressReports.

#[local] Open Scope Q_scope.

(** *** What the services hand to their [progressCallback] *)

Lemma climbingFrom_le q q' l : q' <= q → climbingFrom q l → climbingFrom q' l.
Proof. destruct l as [|x l]; [done|]. simpl. intros ? (? & ? & ?). split; [lra|done]. Qed.

Lemma climbingFrom_app q l1 l2 :
  climbingFrom q l1 → climbingFrom (lastOr q l1) l2 → climbingFrom q (l1 ++ l2).
Proof.
  revert q. induction l1 as [|x l1 IH]; intros q; [done|].
  simpl. intros (H1 & H2 & H3) H. split; [done|]. split; [done|].
  apply IH; [done|]. unfold lastOr in *. rewrite last_cons in H.
  by destruct (list.last l1).
Qed.

Lemma lastOr_bounds q l : climbingFrom q l → q <= lastOr q l ∧ (q <= 100 → lastOr q l <= 100).
Proof.
  revert q. induction l as [|x l IH]; intros q.
  - unfold lastOr. simpl. intros _. split; [lra|done].
  - simpl. intros (H1 & H2 & H3). destruct (IH x H3) as [H4 H5].
    unfold lastOr in *. rewrite last_cons. destruct (list.last l); simpl in *.
    + split; [lra|]. intros _. by apply H5.
    + split; [lra|done].
Qed.

Lemma fraction_bounds i n : (i < n)%nat → 0 <= fraction i n ∧ fraction i n < 1.
Proof.
  intros Hi. unfold fraction.
  assert (0 < inject_Z (Z.of_nat n)) by (change 0 with (inject_Z 0); rewrite <- Zlt_Qlt; lia).
  assert (0 <= inject_Z (Z.of_nat i)) by (change 0 with (inject_Z 0); rewrite <- Zle_Qle; lia).
  assert (inject_Z (Z.of_nat i) < inject_Z (Z.of_nat n)) by (rewrite <- Zlt_Qlt; lia).
  split.
  - apply Qle_shift_div_l; [done|]. lra.
  - apply Qlt_shift_div_r; [done|]. lra.
Qed.

Lemma fraction_mono i j n : (i ≤ j)%nat → (j < n)%nat → fraction i n <= fraction j n.
Proof.
  intros Hij Hj. unfold fraction.
  assert (0 < inject_Z (Z.of_nat n)) by (change 0 with (inject_Z 0); rewrite <- Zlt_Qlt; lia).
  assert (inject_Z (Z.of_nat i) <= inject_Z (Z.of_nat j)) by (rewrite <- Zle_Qle; lia).
  apply Qle_shift_div_l; [done|].
  assert (inject_Z (Z.of_nat i) / inject_Z (Z.of_nat n) * inject_Z (Z.of_nat n)
          == inject_Z (Z.of_nat i)) as E by (field; lra).
  rewrite E. done.
Qed.

(** The reports of a loop, [base + (i / n) * span] for the turns from [i]
    on, climb and stay under [base + span]. *)
Lemma loop_climbs (base span q : Q) (n i m : nat) :
  0 <= span → base + span <= 100 → (i + m = n)%nat →
  q <= base + fraction i n * span ∨ m = 0%nat →
  let l := (λ i, base + fraction i n * span) <$> seq i m in
  climbingFrom q l ∧ (m ≠ 0%nat → lastOr q l <= base + span).
Proof.
  intros Hspan Htop. revert q i. induction m as [|m IH]; intros q i Hn Hq l.
  - split; [done|]. done.
  - destruct Hq as [Hq|?]; [|done].
    destruct (fraction_bounds i n) as [F0 F1]; [lia|].
    assert (fraction i n * span <= 1 * span) as Hf by (apply Qmult_le_compat_r; lra).
    destruct (IH (base + fraction i n * span) (S i)) as [IH1 IH2]; [lia| |].
    { destruct m; [by right|left].
      assert (fraction i n <= fraction (S i) n) by (apply fraction_mono; lia).
      assert (fraction i n * span <= fraction (S i) n * span)
        by (by apply Qmult_le_compat_r).
      lra. }
    unfold l. simpl. split.
    + split; [done|]. split; [lra|done].
    + intros _. unfold lastOr in *. rewrite last_cons.
      destruct m as [|m]; [simpl; lra|].
      specialize (IH2 ltac:(done)).
      destruct (list.last _) eqn:E; [done|]. simpl. lra.
Qed.

Lemma loop_reports (base span q : Q) (n : nat) :
  0 <= span → base + span <= 100 → q <= base →
  let l := (λ i, base + fraction i n * span) <$> seq 0 n in
  climbingFrom q l ∧ lastOr q l <= base + span.
Proof.
  intros Hspan Htop Hq l.
  destruct (loop_climbs base span q n 0 n Hspan Htop) as [H1 H2]; [done| |].
  { destruct n; [by right|left].
    destruct (fraction_bounds 0 (S n)) as [F0 _]; [lia|].
    assert (0 <= fraction 0 (S n) * span) by (by apply Qmult_le_0_compat). lra. }
  split; [done|]. destruct n as [|n]; [|by apply H2].
  unfold l, lastOr. simpl. lra.
Qed.

Lemma lastOr_snoc q l x : lastOr q (l ++ [x]) = x.
Proof. unfold lastOr. by rewrite last_snoc. Qed.

Lemma lastOr_app_cons q l x l' : lastOr q (l ++ x :: l') = lastOr x l'.
Proof.
  unfold lastOr. rewrite last_app. rewrite last_cons.
  by destruct (list.last l').
Qed.

Lemma googleReports_climb : climbingFrom 0 googleReports ∧ lastOr 0 googleReports = 100.
Proof. split; [|done]. simpl. repeat split; by vm_compute. Qed.

Lemma whisperReports_climb : climbingFrom 0 whisperReports ∧ lastOr 0 whisperReports = 100.
Proof. split; [|done]. simpl. repeat split; by vm_compute. Qed.

Lemma whisperLargeReports_climb n :
  climbingFrom 0 (whisperLargeReports n) ∧ lastOr 0 (whisperLargeReports n) = 100.
Proof.
  unfold whisperLargeReports. split.
  - apply climbingFrom_app; [simpl; repeat split; by vm_compute|].
    change (lastOr 0 [5; 10; 10]) with 10.
    destruct (loop_reports 20 20 10 n) as [A1 A2]; [done..|].
    apply climbingFrom_app; [done|].
    set (q := lastOr 10 _) in *.
    destruct (loop_reports 40 50 q n) as [B1 B2]; [done|done|lra|].
    apply climbingFrom_app; [done|].
    set (q' := lastOr q _) in *. simpl. repeat split; try lra; by vm_compute.
  - rewrite !app_assoc. change [95; 100] with ([95] ++ [100]).
    rewrite app_assoc. apply lastOr_snoc.
Qed.

Lemma recognitionReports_climb (segments : nat) (events : list AzureEvent) (q : Q) :
  q <= 30 →
  climbingFrom q (recognitionReports segments events)
  ∧ lastOr q (recognitionReports segments events) <= 80.
Proof.
  assert (∀ s q, q <= Math_min (30 + inject_Z (Z.of_nat s) * 5) 80 ∨ q <= 30 →
            climbingFrom q (recognitionReports s events)
            ∧ lastOr q (recognitionReports s events)
              <= (if decide (recognitionReports s events = []) then q else 80)) as H.
  { induction events as [|[|[|]] events IH]; intros s q' Hq.
    - simpl. split; [done|]. unfold lastOr. simpl. lra.
    - assert (0 <= inject_Z (Z.of_nat s)) as Hs
        by (change 0 with (inject_Z 0); rewrite <- Zle_Qle; lia).
      set (x := Math_min (30 + inject_Z (Z.of_nat s) * 5) 80).
      assert (30 <= x ∧ x <= 80) as [Hx1 Hx2].
      { unfold x. destruct (Math_min_spec (30 + inject_Z (Z.of_nat s) * 5) 80)
          as [[? ->]|[? ->]]; lra. }
      destruct (IH s x) as [IH1 IH2]; [left; unfold x; lra|].
      cbn [recognitionReports]. fold x. split.
      + simpl. split; [destruct Hq; [done|lra]|]. split; [lra|done].
      + rewrite decide_False by done. unfold lastOr in *. rewrite last_cons.
        destruct (list.last _) eqn:E; simpl in *.
        * destruct (decide _) as [E'|_]; [by rewrite E' in E|done].
        * done.
    - cbn [recognitionReports]. apply IH. destruct Hq as [Hq|Hq]; [|by right].
      left. 
      assert (inject_Z (Z.of_nat s) <= inject_Z (Z.of_nat (S s))) as Hs
        by (rewrite <- Zle_Qle; lia).
      destruct (Math_min_spec (30 + inject_Z (Z.of_nat s) * 5) 80) as [[? E1]|[? E1]];
        destruct (Math_min_spec (30 + inject_Z (Z.of_nat (S s)) * 5) 80) as [[? E2]|[? E2]];
        rewrite E1 in Hq; rewrite E2; lra.
    - cbn [recognitionReports]. by apply IH. }
  intros Hq. destruct (H segments q) as [H1 H2]; [by right|].
  split; [done|]. destruct (decide _); lra.
Qed.

Lemma azureReports_climb events :
  climbingFrom 0 (azureReports events) ∧ lastOr 0 (azureReports events) = 100.
Proof.
  unfold azureReports. split.
  - apply climbingFrom_app; [simpl; repeat split; by vm_compute|].
    change (lastOr 0 [5; 15; 25]) with 25.
    destruct (recognitionReports_climb 0 events 25) as [A1 A2]; [done|].
    apply climbingFrom_app; [done|]. simpl. repeat split; [lra|done].
  - rewrite app_assoc. apply lastOr_snoc.
Qed.

Lemma diarizationReports_climb n :
  climbingFrom 0 (diarizationReports n) ∧ lastOr 0 (diarizationReports n) = 100.
Proof.
  unfold diarizationReports. split.
  - apply climbingFrom_app; [simpl; repeat split; by vm_compute|].
    change (lastOr 0 [5; 20]) with 20.
    destruct (loop_reports 20 40 20 n) as [A1 A2]; [done|done|lra|].
    apply climbingFrom_app; [done|].
    set (q := lastOr 20 _) in *. simpl. repeat split; try lra; by vm_compute.
  - rewrite app_assoc. change [60; 80; 90; 100] with ([60; 80; 90] ++ [100]).
    rewrite app_assoc. apply lastOr_snoc.
Qed.

Lemma reportsOf_climb p script :
  reportsOf p script → climbingFrom 0 script ∧ lastOr 0 script = 100.
Proof.
  intros [| |n|events].
  - apply googleReports_climb.
  - apply whisperReports_climb.
  - apply whisperLargeReports_climb.
  - apply azureReports_climb.
Qed.

(** X27. Whatever the number of chunks, of segments and the events of the
    recognizer, the percentages a service reports on a call that succeeds
    never go down, stay between 0 and 100, and end at 100. *)
Theorem service_reports_climb_to_100 :
  (∀ p script, reportsOf p script →
     climbingFrom 0 script ∧ list.last script = Some 100)
  ∧ (∀ segments,
       climbingFrom 0 (diarizationReports segments)
       ∧ list.last (diarizationReports segments) = Some 100).
Proof.
  assert (∀ l, l ≠ [] → lastOr 0 l = 100 → list.last l = Some 100) as Hlast.
  { intros l Hne. unfold lastOr. destruct (list.last l) eqn:E; simpl; [by intros ->|].
    by apply last_None in E. }
  split.
  - intros p script H. destruct (reportsOf_climb p script H) as [H1 H2].
    split; [done|]. apply Hlast; [|done]. by destruct H.
  - intros n. destruct (diarizationReports_climb n) as [H1 H2].
    split; [done|]. by apply Hlast.
Qed.

Lemma run_fst_cons s sig sigs :
  (run s (sig :: sigs)).1 = (run (stepState s sig).1 sigs).1.
Proof.
  rewrite run_cons. unfold emit_bind.
  destruct (stepState s sig) as [s1 o1]. simpl. by destruct (run s1 sigs).
Qed.

Lemma steady_app s sigs1 sigs2 :
  steady s sigs1 → steady (run s sigs1).1 sigs2 → steady s (sigs1 ++ sigs2).
Proof.
  revert s. induction sigs1 as [|sig sigs1 IH]; intros s H1 H2; [done|].
  destruct H1 as [Hsig H1]. simpl. split; [done|].
  apply IH; [done|]. by rewrite run_fst_cons in H2.
Qed.

Lemma run_fst_app s sigs1 sigs2 :
  (run s (sigs1 ++ sigs2)).1 = (run (run s sigs1).1 sigs2).1.
Proof.
  rewrite run_app. unfold emit_bind.
  destruct (run s sigs1) as [s1 o1]. simpl. by destruct (run s1 sigs2).
Qed.

Lemma reports_phase t sigs :
  Forall (accepted (at_ t)) sigs →
  climbingFrom (st_progress (stages (job t) (reportingStage (at_ t))))
    (percentOf <$> sigs) →
  steady (Running t) sigs
  ∧ ∃ t', (run (Running t) sigs).1 = Running t'
          ∧ at_ t' = at_ t ∧ calls t' = calls t ∧ data (job t') = data (job t).
Proof.
  revert t. induction sigs as [|sig sigs IH]; intros t Hacc Hclimb.
  - split; [done|]. by exists t.
  - apply list.Forall_cons in Hacc as [Hsig Hacc].
    destruct Hclimb as (H1 & H2 & H3).
    assert (∃ p, reportedPercent sig = Some p
                 ∧ step t sig = report t (reportingStage (at_ t)) p) as (p & Ep & Es).
    { destruct t as [j a log]. simpl in Hsig.
      destruct sig, a; try done; (eexists; split; reflexivity). }
    assert (percentOf sig = p) as Epc by (unfold percentOf; by rewrite Ep).
    rewrite Epc in H1, H2, H3.
    set (t1 := mkTask (updateJobProgress (job t) (reportingStage (at_ t)) in_progress p).1
                 (at_ t) (calls t)).
    assert ((stepState (Running t) sig).1 = Running t1) as E1.
    { simpl. rewrite Es. done. }
    destruct (IH t1) as (S1 & t' & E' & A' & C' & D').
    { done. }
    { simpl. rewrite setStage_same. done. }
    split.
    + cbn [steady]. split; [|by rewrite E1].
      unfold notLowering. rewrite Ep. done.
    + exists t'. rewrite run_fst_cons, E1. done.
Qed.

Lemma audio_ready t p :
  at_ t = AwaitAudio → primaryProvider (selectService (job t)) = Some p →
  ∃ t', (step t Resolved).1 = Running t'
        ∧ at_ t' = AwaitPrimary p ∧ calls t' = calls t ++ [p]
        ∧ st_progress (stages (job t') transcription) = 0.
Proof.
  destruct t as [j a log]. simpl. intros -> Hp. simpl.
  unfold enterTranscription, emit_bind. simpl.
  change (selectService _) with (selectService j). rewrite Hp. simpl.
  eexists. split; [reflexivity|]. simpl. done.
Qed.

Lemma transcription_done t :
  (∃ p, at_ t = AwaitPrimary p) →
  ∃ t', (step t Resolved).1 = Running t'
        ∧ at_ t' = AwaitDiarization ∧ calls t' = calls t
        ∧ st_progress (stages (job t') diarization) = 0.
Proof.
  destruct t as [j a log]. simpl. intros [p ->]. simpl.
  eexists. split; [reflexivity|]. simpl. done.
Qed.

Lemma diarization_done t :
  at_ t = AwaitDiarization →
  ∃ t', (step t Resolved).1 = Running t' ∧ at_ t' = AwaitSave ∧ calls t' = calls t.
Proof.
  destruct t as [j a log]. simpl. intros ->. simpl. by eexists.
Qed.

Lemma saved t :
  at_ t = AwaitSave →
  ∃ j, (step t Resolved).1 = Settled j (calls t) ∧ status j = job_completed.
Proof.
  destruct t as [j a log]. simpl. intros ->. simpl. by eexists.
Qed.

Lemma climbing_inRange q l :
  0 <= q → climbingFrom q l → Forall (λ p, 0 <= p ∧ p <= 100) l.
Proof.
  revert q. induction l as [|x l IH]; intros q Hq; [done|].
  simpl. intros (H1 & H2 & H3). constructor; [lra|]. apply (IH x); [lra|done].
Qed.

Lemma percentOf_callbacks (l : list Q) : percentOf <$> (Callback <$> l) = l.
Proof. rewrite <- list_fmap_compose. apply list_fmap_id. Qed.

Lemma percentOf_ffmpeg (ffmpeg : list (option Q)) :
  percentOf <$> (FfmpegProgress <$> ffmpeg) = ffmpegPercent <$> ffmpeg.
Proof. by rewrite <- list_fmap_compose. Qed.

Lemma callbacks_accepted a (l : list Q) :
  a ≠ AwaitAudio → a ≠ AwaitSave → Forall (accepted a) (Callback <$> l).
Proof.
  intros H1 H2. apply list.Forall_forall. intros sig (p & -> & _)%list_elem_of_fmap.
  by destruct a.
Qed.

Lemma ffmpeg_accepted (ffmpeg : list (option Q)) : Forall (accepted AwaitAudio) (FfmpegProgress <$> ffmpeg).
Proof.
  apply list.Forall_forall. by intros sig (p & -> & _)%list_elem_of_fmap.
Qed.

Lemma reports_inRange (sigs : list Signal) :
  Forall (λ p, 0 <= p ∧ p <= 100) (percentOf <$> sigs) → Forall signalInRange sigs.
Proof.
  rewrite list.Forall_fmap. intros Hall. eapply list.Forall_impl; [exact Hall|].
  intros sig H. unfold signalInRange, percentOf in *. simpl in H.
  by destruct (reportedPercent sig).
Qed.

Lemma lastFrom_100 (l : list Z) : lastFrom 10 l = 100%Z → list.last l = Some 100%Z.
Proof. unfold lastFrom. destruct (list.last l); simpl; [by intros ->|done]. Qed.

(** X28. A job whose calls all succeed climbs to 100: whatever provider the job
    names, however many chunks, recognizer events and segments there are,
    and as long as the percentages ffmpeg reports never go down and stay
    at most 100, the job ends completed after the one provider call, and
    the overall progress it reports on the way never goes down from the 10
    of the finished upload, stays at most 100, and ends at 100. *)
Theorem successful_job_climbs_to_100 (jobId : string) (d : JobData)
    (p : Provider) (ffmpeg : list (option Q)) (script : list Q) (segments : nat) :
  primaryProvider (selectService (newJob jobId d)) = Some p →
  reportsOf p script →
  climbingFrom 0 (ffmpegPercent <$> ffmpeg) →
  let finish :=
    run (Running (startJob (newJob jobId d)).1)
        (successfulRun ffmpeg script segments) in
  (∃ j, finish.1 = Settled j [p] ∧ status j = job_completed
        ∧ progress j = 100%Z)
  ∧ steady (Running (startJob (newJob jobId d)).1)
      (successfulRun ffmpeg script segments)
  ∧ ascendingFrom 10 (reported finish.2)
  ∧ Forall inRange (reported finish.2)
  ∧ list.last (reported finish.2) = Some 100%Z.
Proof.
  intros Hprov Hrep Hff finish.
  set (t0 := (startJob (newJob jobId d)).1) in *.
  set (F := FfmpegProgress <$> ffmpeg). set (C := Callback <$> script).
  set (D := Callback <$> diarizationReports segments).
  destruct (reportsOf_climb p script Hrep) as [Hscript _].
  destruct (diarizationReports_climb segments) as [Hdia _].
  (* the audio is converted *)
  destruct (reports_phase t0 F) as (S1 & t1 & E1 & A1 & C1 & D1).
  { apply ffmpeg_accepted. }
  { unfold F. by rewrite percentOf_ffmpeg. }
  destruct (audio_ready t1 p) as (t2 & E2 & A2 & C2 & P2); [done| |].
  { unfold selectService in *. by rewrite D1. }
  (* the provider transcribes *)
  destruct (reports_phase t2 C) as (S3 & t3 & E3 & A3 & C3 & D3).
  { apply callbacks_accepted; by rewrite A2. }
  { unfold C. rewrite percentOf_callbacks, A2. simpl. by rewrite P2. }
  destruct (transcription_done t3) as (t4 & E4 & A4 & C4 & P4).
  { exists p. by rewrite A3. }
  (* the speakers are told apart *)
  destruct (reports_phase t4 D) as (S5 & t5 & E5 & A5 & C5 & D5).
  { apply callbacks_accepted; by rewrite A4. }
  { unfold D. rewrite percentOf_callbacks, A4. simpl. by rewrite P4. }
  destruct (diarization_done t5) as (t6 & E6 & A6 & C6); [by rewrite A5|].
  destruct (saved t6 A6) as (j & E7 & Hstatus).
  assert (finish.1 = Settled j [p]) as Hfinish.
  { unfold finish, successfulRun. fold F C D.
    rewrite run_fst_app, E1. cbn [app]. rewrite run_fst_cons. cbn [stepState]. rewrite E2.
    rewrite run_fst_app, E3. cbn [app]. rewrite run_fst_cons. cbn [stepState]. rewrite E4.
    rewrite run_fst_app, E5. cbn [app]. rewrite run_fst_cons. cbn [stepState]. rewrite E6.
    rewrite run_fst_cons. cbn [stepState]. rewrite E7. simpl.
    by rewrite C6, C5, C4, C3, C2, C1. }
  assert (steady (Running t0) (successfulRun ffmpeg script segments)) as Hsteady.
  { unfold successfulRun. fold F C D.
    apply steady_app; [done|]. rewrite E1. cbn [app steady stepState].
    split; [done|]. rewrite E2.
    apply steady_app; [done|]. rewrite E3. cbn [app steady stepState].
    split; [done|]. rewrite E4.
    apply steady_app; [done|]. rewrite E5. cbn [app steady stepState].
    split; [done|]. rewrite E6. split; [done|]. done. }
  assert (progress (job t0) = 10%Z) as Hp0 by (by vm_compute).
  destruct (run_ascending (Running t0) (successfulRun ffmpeg script segments))
    as [Hasc Hlast]; [apply startJob_orderly|done|].
  change (jobOf (Running t0)) with (job t0) in Hasc, Hlast.
  rewrite Hp0 in Hasc, Hlast. fold finish in Hasc, Hlast.
  pose proof (run_tidy t0 (successfulRun ffmpeg script segments) (startJob_tidy jobId d)) as Htidy.
  fold finish in Htidy. rewrite Hfinish in Htidy, Hlast. simpl in Htidy, Hlast.
  destruct Htidy as [(_ & Hp100 & _)|(Hfailed & _)]; [|congruence].
  split; [by exists j|]. split; [done|]. split; [done|]. split.
  - assert (jobInRange (job t0) ∧ Forall inRange (reported (startJob (newJob jobId d)).2))
      as [Hj0 _].
    { apply updateJobProgress_inRange; [apply initialStages_inRange | lra | lra]. }
    apply (run_inRange (Running t0)); [done|].
    unfold successfulRun. fold F C D.
    assert (Forall signalInRange [Resolved]) as Hres by (by repeat constructor).
    repeat (apply Forall_app; split); try done.
    + apply reports_inRange. unfold F. rewrite percentOf_ffmpeg.
      by apply (climbing_inRange 0).
    + apply reports_inRange. unfold C. rewrite percentOf_callbacks.
      by apply (climbing_inRange 0).
    + apply reports_inRange. unfold D. rewrite percentOf_callbacks.
      by apply (climbing_inRange 0).
  - apply lastFrom_100. by rewrite <- Hlast.
Qed.

Lemma successful_job_climbs_to_100_witness :
  let finish :=
    run (Running (startJob (newJob "job-1" (mkJobData "a.wav" (Some "azure") None))).1)
        (successfulRun [None; Some (101 # 10); Some (997 # 10)]
           (azureReports [Recognizing; Recognized true; Recognizing;
                          Recognized false; Recognizing]) 3) in
  (∃ j, finish.1 = Settled j [azure] ∧ status j = job_completed
        ∧ progress j = 100%Z)
  ∧ steady (Running (startJob (newJob "job-1" (mkJobData "a.wav" (Some "azure") None))).1)
      (successfulRun [None; Some (101 # 10); Some (997 # 10)]
         (azureReports [Recognizing; Recognized true; Recognizing;
                        Recognized false; Recognizing]) 3)
  ∧ ascendingFrom 10 (reported finish.2)
  ∧ Forall inRange (reported finish.2)
  ∧ list.last (reported finish.2) = Some 100%Z.
Proof.
  apply (successful_job_climbs_to_100 "job-1" (mkJobData "a.wav" (Some "azure") None)
           azure [None; Some (101 # 10); Some (997 # 10)]).
  - reflexivity.
  - apply reports_azure.
  - simpl. repeat split; by vm_compute.
Defined.

End ProgressFacts.
